(** * Multicell network figure: layout and line-visibility geometry

    A shallow embedding of the geometric core of
    [src/backend/multicell_circles.py] (duplicated verbatim in
    [src/backend/multicell_gui.py]):

    - [random_cell_positions]      (rejection sampling of cell centres),
    - [ring_positions_inside_cell] (function nodes on a ring),
    - [segment_circle_intersection] (segment against circle),
    - [draw_smart_line]            (cutting a line at circle borders).

    Python floats are IEEE binary64 numbers.  The functions are written once,
    over an interface [Num] of the arithmetic the source uses, and read at
    two instances:

    - [B64]: binary64 itself, with the operations of the Standard Library's
      [SpecFloat] (round to nearest even, signed zeros, infinities, NaN);
      this is the code as it runs, and it evaluates;
    - [R]: exact real arithmetic, the reading under which the geometric
      statements of the specification ("up to floating-point tolerance")
      are meant.

    Conventions of the embedding:
    - a 2-element numpy array, or a Python 2-tuple, is a pair;
      [np.dot(u, v)] is [u0*v0 + u1*v1]; [np.hypot(x, y)] and
      [np.linalg.norm] of a difference are [sqrt (x*x + y*y)];
      [radius**2] is [radius * radius] where the power returns (it raises
      on a radius whose square is out of range, see
      [segment_circle_intersection_call]);
    - numpy scalar arithmetic does not raise: a division by zero yields an
      infinity or NaN (with a warning), as the binary64 instance does;
    - the state outside the functions is a [World]: the stream of
      [random.random()] results with the position of the next draw, the
      text written to [sys.stdout], and the lines plotted on the axes;
      functions with effects take a world and return the next one;
    - a [while] loop runs on fuel and yields [None] when the fuel is used
      up before the loop condition fails. *)

From Stdlib Require Import ZArith List Bool Lia.
From Stdlib Require Strings.String.
From Stdlib Require Import Reals Lra Psatz Classical.
From Stdlib Require Import Floats.SpecFloat.
Import ListNotations.

Set Implicit Arguments.

(** ** The arithmetic interface *)

Class Num (A : Type) : Type := {
  of_Z : Z -> A;
  add : A -> A -> A;
  sub : A -> A -> A;
  mul : A -> A -> A;
  div : A -> A -> A;
  neg : A -> A;
  sqrt : A -> A;
  ltb : A -> A -> bool;
  leb : A -> A -> bool;
  eqb : A -> A -> bool
}.

Declare Scope num_scope.
Delimit Scope num_scope with num.
Notation "x + y" := (add x y) : num_scope.
Notation "x - y" := (sub x y) : num_scope.
Notation "x * y" := (mul x y) : num_scope.
Notation "x / y" := (div x y) : num_scope.
Notation "- x" := (neg x) : num_scope.
Notation "x <? y" := (ltb x y) : num_scope.
Notation "x <=? y" := (leb x y) : num_scope.
Notation "x =? y" := (eqb x y) : num_scope.

(** A decimal literal [n/d] of the source, such as [0.9] or [0.55]: the
    correctly rounded quotient in binary64, the exact quotient in [R]. *)
Definition lit {A} `{Num A} (n d : Z) : A := div (of_Z n) (of_Z d).

(** *** Binary64 *)

Module B64.
Definition prec : Z := 53.
Definition emax : Z := 1024.
Definition t : Type := spec_float.

Definition of_Z (z : Z) : t := binary_normalize prec emax z 0 false.
Definition nan : t := S754_nan.

(** A zero or a finite number: neither an infinity nor NaN. *)
Definition finite (x : t) : bool :=
  match x with
  | S754_zero _ | S754_finite _ _ _ => true
  | _ => false
  end.

Definition not_nan (x : t) : bool :=
  match x with
  | S754_nan => false
  | _ => true
  end.

(** Zero of either sign, or NaN: what [x - x] can be. *)
Definition zero_or_nan (x : t) : bool :=
  match x with
  | S754_zero _ | S754_nan => true
  | _ => false
  end.
End B64.

#[export] Instance Num_B64 : Num B64.t := {
  of_Z := B64.of_Z;
  add := SFadd B64.prec B64.emax;
  sub := SFsub B64.prec B64.emax;
  mul := SFmul B64.prec B64.emax;
  div := SFdiv B64.prec B64.emax;
  neg := SFopp;
  sqrt := SFsqrt B64.prec B64.emax;
  ltb := SFltb;
  leb := SFleb;
  eqb := SFeqb
}.

(** *** Real numbers *)

Definition Rltb (x y : R) : bool := if Rlt_dec x y then true else false.
Definition Rleb (x y : R) : bool := if Rle_dec x y then true else false.
Definition Reqb (x y : R) : bool := if Req_dec_T x y then true else false.

#[export] Instance Num_R : Num R := {
  of_Z := IZR;
  add := Rplus;
  sub := Rminus;
  mul := Rmult;
  div := Rdiv;
  neg := Ropp;
  sqrt := R_sqrt.sqrt;
  ltb := Rltb;
  leb := Rleb;
  eqb := Reqb
}.

(** ** Points, vectors and sorting *)

Section Geometry.
Context {A : Type} `{NumA : Num A}.
Local Open Scope num_scope.

Definition Point : Type := (A * A)%type.

Definition vadd (u v : Point) : Point := (fst u + fst v, snd u + snd v).
Definition vsub (u v : Point) : Point := (fst u - fst v, snd u - snd v).
Definition scale (k : A) (u : Point) : Point := (k * fst u, k * snd u).
Definition dot (u v : Point) : A := fst u * fst v + snd u * snd v.
Definition hypot (x y : A) : A := sqrt (x * x + y * y).

(** [np.linalg.norm(np.array(p) - np.array(c))] *)
Definition norm_diff (p c : Point) : A :=
  let v := vsub p c in sqrt (dot v v).

(** Python's [<] on 2-tuples: decided by the first component on which
    the tuples differ. *)
Definition tuple_lt (u v : Point) : bool :=
  if negb (fst u =? fst v) then fst u <? fst v
  else if negb (snd u =? snd v) then snd u <? snd v
  else false.

(** [sorted]: a stable sort that only asks [<]; an element goes before
    the first one it is smaller than. *)
Fixpoint insert_sorted (x : Point) (l : list Point) : list Point :=
  match l with
  | [] => [x]
  | y :: l' => if tuple_lt x y then x :: y :: l' else y :: insert_sorted x l'
  end.

Definition sorted (l : list Point) : list Point :=
  fold_left (fun acc x => insert_sorted x acc) l [].

(** ** [segment_circle_intersection] *)

Definition segment_circle_intersection
    (p1 p2 center : Point) (radius : A) : option (list Point) :=
  let d := vsub p2 p1 in
  let f := vsub p1 center in
  let a := dot d d in
  let b := of_Z 2 * dot f d in
  let c_val := dot f f - radius * radius in
  let disc := b * b - of_Z 4 * a * c_val in
  if disc <? of_Z 0 then None
  else
    let disc := sqrt disc in
    let t1 := (- b - disc) / (of_Z 2 * a) in
    let t2 := (- b + disc) / (of_Z 2 * a) in
    let pts := [] in
    let pts :=
      if (of_Z 0 <=? t1) && (t1 <=? of_Z 1)
      then pts ++ [vadd p1 (scale t1 d)] else pts in
    let pts :=
      if (of_Z 0 <=? t2) && (t2 <=? of_Z 1)
      then pts ++ [vadd p1 (scale t2 d)] else pts in
    match pts with
    | [] => None
    | _ => Some pts
    end.

(** ** [draw_smart_line] *)

(** A piece of the line: its two ends and the [outside] flag. *)
Definition Segment : Type := (Point * Point * bool)%type.

Definition midpoint (s e : Point) : Point :=
  ((fst s + fst e) / of_Z 2, (snd s + snd e) / of_Z 2).

(** [np.hypot(mid[0] - center[0], mid[1] - center[1]) < radius] *)
Definition inside_circle (center : Point) (radius : A) (mid : Point) : bool :=
  hypot (fst mid - fst center) (snd mid - snd center) <? radius.

(** [zip(pts[:-1], pts[1:])] *)
Definition consecutive (pts : list Point) : list (Point * Point) :=
  combine (removelast pts) (tl pts).

(** The body of the inner loop, for one pending piece. *)
Definition cut_segment (center : Point) (radius : A) (seg : Segment)
    : list Segment :=
  let '(a, b, outside) := seg in
  match segment_circle_intersection a b center radius with
  | None | Some [] => [(a, b, outside)]
  | Some inter =>
      let inter := sorted inter in
      let pts := [a] ++ inter ++ [b] in
      map (fun se : Point * Point =>
             let (s, e) := se in
             let mid := midpoint s e in
             let inside := inside_circle center radius mid in
             (s, e, negb inside))
          (consecutive pts)
  end.

(** One pass of the outer loop: [new_segments] for one circle. *)
Definition cut_all (segments : list Segment) (circle : Point * A)
    : list Segment :=
  flat_map (cut_segment (fst circle) (snd circle)) segments.

(** The list [segments] when the outer loop is over. *)
Definition smart_line_segments
    (p1 p2 : Point) (circle_centers : list Point) (circle_radii : list A)
    : list Segment :=
  fold_left cut_all (combine circle_centers circle_radii) [(p1, p2, true)].


(** ** The state outside the functions *)

(** What [sys.stdout.write] is called with in [random_cell_positions]:
    the message carries the relaxed distance. *)
Inductive Event : Type :=
| Relaxing (min_dist : A).

(** One [ax.plot] call of [draw_smart_line]. *)
Record PlotCall : Type := {
  line_from : Point;
  line_to : Point;
  color : String.string;
  linewidth : A;
  alpha : A;
  zorder : Z
}.

Record World : Type := {
  rng : nat -> A;
  rng_pos : nat;
  stdout : list Event;
  canvas : list PlotCall
}.

(** [random.uniform(a, b)] is [a + (b - a) * random.random()]. *)
Definition uniform (a b : A) (w : World) : A * World :=
  (a + (b - a) * rng w (rng_pos w),
   {| rng := rng w; rng_pos := S (rng_pos w);
      stdout := stdout w; canvas := canvas w |}).

Definition stdout_write (e : Event) (w : World) : World :=
  {| rng := rng w; rng_pos := rng_pos w;
     stdout := stdout w ++ [e]; canvas := canvas w |}.

Definition ax_plot (c : PlotCall) (w : World) : World :=
  {| rng := rng w; rng_pos := rng_pos w;
     stdout := stdout w; canvas := canvas w ++ [c] |}.

(** [draw_smart_line], with the keyword arguments of the interactive
    variant; the batch variant fixes them to their defaults. *)
Definition lw_out_default : A := lit 16 10.
Definition lw_in_default : A := lit 12 10.
Definition zorder_base_default : Z := 10.

Definition plot_segment (color : String.string) (lw_out lw_in : A) (zorder_base : Z)
    (seg : Segment) : PlotCall :=
  let '(a, b, outside) := seg in
  {| line_from := a; line_to := b; color := color;
     linewidth := if outside then lw_out else lw_in;
     alpha := if outside then lit 100 100 else lit 25 100;
     zorder := zorder_base |}.

Definition draw_smart_line
    (p1 p2 : Point) (circle_centers : list Point) (circle_radii : list A)
    (color : String.string) (lw_out lw_in : A) (zorder_base : Z) (w : World) : World :=
  let segments := smart_line_segments p1 p2 circle_centers circle_radii in
  fold_left (fun w seg => ax_plot (plot_segment color lw_out lw_in zorder_base seg) w)
            segments w.

(** ** [random_cell_positions] *)

Definition min_dist_default : A := lit 55 100.
Definition max_attempts_default : Z := 6000.
Definition relax_factor_default : A := lit 9 10.

(** The variables of the loop. *)
Record PlaceState : Type := {
  centres : list Point;
  attempts : Z;
  min_dist : A
}.

(** The test of line 74: the candidate is farther than [min_dist] from
    every centre accepted so far. *)
Definition far_enough (p : Point) (st : PlaceState) : bool :=
  forallb (fun c => min_dist st <? norm_diff p c) (centres st).

(** The loop body once the candidate [p] is drawn. *)
Definition place_step (max_attempts : Z) (relax_factor : A) (p : Point)
    (sw : PlaceState * World) : PlaceState * World :=
  let (st, w) := sw in
  if far_enough p st then
    ({| centres := centres st ++ [p]; attempts := 0; min_dist := min_dist st |}, w)
  else
    let attempts' := (attempts st + 1)%Z in
    if (max_attempts <=? attempts')%Z then
      let min_dist' := min_dist st * relax_factor in
      ({| centres := centres st; attempts := 0; min_dist := min_dist' |},
       stdout_write (Relaxing min_dist') w)
    else
      ({| centres := centres st; attempts := attempts'; min_dist := min_dist st |}, w).

(** Line 73: the candidate point, two draws. *)
Definition draw_candidate (w : World) : Point * World :=
  let (x, w1) := uniform (lit 15 100) (lit 85 100) w in
  let (y, w2) := uniform (lit 15 100) (lit 85 100) w1 in
  ((x, y), w2).

(** One iteration of the [while] loop. *)
Definition place_iter (max_attempts : Z) (relax_factor : A)
    (sw : PlaceState * World) : PlaceState * World :=
  let (p, w') := draw_candidate (snd sw) in
  place_step max_attempts relax_factor p (fst sw, w').

Definition placing (n : Z) (st : PlaceState) : bool :=
  (Z.of_nat (length (centres st)) <? n)%Z.

Fixpoint place_loop (fuel : nat) (n max_attempts : Z) (relax_factor : A)
    (sw : PlaceState * World) : option (list Point * World) :=
  if placing n (fst sw) then
    match fuel with
    | O => None
    | S fuel' =>
        place_loop fuel' n max_attempts relax_factor
                   (place_iter max_attempts relax_factor sw)
    end
  else Some (centres (fst sw), snd sw).

Definition random_cell_positions (fuel : nat)
    (n : Z) (min_dist : A) (max_attempts : Z) (relax_factor : A) (w : World)
    : option (list Point * World) :=
  place_loop fuel n max_attempts relax_factor
             ({| centres := []; attempts := 0; min_dist := min_dist |}, w).

(** *** The run of the loop, iteration by iteration *)

(** The loop variables and the world after [k] iterations. *)
Definition place_run (max_attempts : Z) (relax_factor : A) (k : nat)
    (sw : PlaceState * World) : PlaceState * World :=
  Nat.iter k (place_iter max_attempts relax_factor) sw.

(** The candidate the next iteration draws. *)
Definition iter_candidate (sw : PlaceState * World) : Point :=
  fst (draw_candidate (snd sw)).

(** The candidate of iteration [i], counted from the world the call
    starts in. *)
Definition candidate_at (w : World) (i : nat) : Point :=
  (lit 15 100 + (lit 85 100 - lit 15 100) * rng w (rng_pos w + 2 * i)%nat,
   lit 15 100 + (lit 85 100 - lit 15 100) * rng w (rng_pos w + 2 * i + 1)%nat).

(** Whether iteration [i] of the run accepts its candidate. *)
Definition accepted_at (max_attempts : Z) (relax_factor : A)
    (sw : PlaceState * World) (i : nat) : bool :=
  far_enough (iter_candidate (place_run max_attempts relax_factor i sw))
             (fst (place_run max_attempts relax_factor i sw)).

Definition initial_state (min_dist : A) : PlaceState :=
  {| centres := []; attempts := 0; min_dist := min_dist |}.

End Geometry.

Arguments Event A : clear implicits.
Arguments PlotCall A : clear implicits.
Arguments World A : clear implicits.
Arguments PlaceState A : clear implicits.
Arguments Point A : clear implicits.
Arguments Segment A : clear implicits.

(** ** [ring_positions_inside_cell] *)

Class Trig (A : Type) : Type := {
  pi : A;
  cos : A -> A;
  sin : A -> A
}.

#[export] Instance Trig_R : Trig R := {
  pi := PI;
  cos := Rtrigo_def.cos;
  sin := Rtrigo_def.sin
}.

Section Ring.
Context {A : Type} `{NumA : Num A} `{TrigA : Trig A}.
Local Open Scope num_scope.

Definition LIVING_RADIUS : A := lit 10 100.

(** Python's [max(x, y)] and [min(x, y)]: the first argument unless the
    second is strictly beyond it. *)
Definition py_max (x y : A) : A := if x <? y then y else x.
Definition py_min (x y : A) : A := if y <? x then y else x.

Definition of_nat (i : nat) : A := of_Z (Z.of_nat i).

(** [np.linspace(start, stop, num, endpoint=False)] *)
Definition linspace_open (start stop : A) (num : nat) : list A :=
  let step := (stop - start) / of_nat num in
  map (fun i => of_nat i * step + start) (seq 0 num).

Definition outer_limit (cell_radius item_radius : A) : A :=
  cell_radius - item_radius - lit 1 100.

Definition inner_limit (item_radius : A) : A :=
  LIVING_RADIUS + item_radius + lit 2 1000.

(** Lines 94 to 103: the radius of the ring. *)
Definition ring_radius (cell_radius item_radius : A) : A :=
  let outer_limit := outer_limit cell_radius item_radius in
  let inner_limit := inner_limit item_radius in
  let ring_radius := py_max inner_limit (outer_limit * lit 95 100) in
  let ring_radius := py_min ring_radius outer_limit in
  if ring_radius <=? of_Z 0 then cell_radius * lit 5 10 else ring_radius.

(** Lines 106 to 113, once [start_angle] is drawn. *)
Definition ring_points (center : Point A) (ring_radius start_angle : A)
    (n_items : nat) : list (Point A) :=
  let angles :=
    map (fun x => start_angle + x)
        (linspace_open (of_Z 0) (of_Z 2 * pi) n_items) in
  map (fun a => (fst center + ring_radius * cos a,
                 snd center + ring_radius * sin a))
      angles.

Definition ring_positions_inside_cell
    (center : Point A) (cell_radius : A) (n_items : nat) (item_radius : A)
    (w : World A) : list (Point A) * World A :=
  let ring_radius := ring_radius cell_radius item_radius in
  let (start_angle, w') := uniform (of_Z 0) (of_Z 2 * pi) w in
  (ring_points center ring_radius start_angle n_items, w').

End Ring.

Definition f64 (z : Z) : B64.t := B64.of_Z z.

Section Lengths.
Context {A : Type} `{NumA : Num A}.
Local Open Scope num_scope.

(** Euclidean length of a piece and of a list of pieces. *)
Definition segment_length (seg : Segment A) : A :=
  let '(s, e, _) := seg in hypot (fst e - fst s) (snd e - snd s).

Definition path_length (segs : list (Segment A)) : A :=
  fold_left (fun acc seg => acc + segment_length seg) segs (of_Z 0).

End Lengths.

(** The source's test [if not inter]: the circle cuts the piece when the
    intersection is a non-empty list. *)
Definition circle_intersects {A} `{Num A}
    (circle : Point A * A) (s e : Point A) : bool :=
  match segment_circle_intersection s e (fst circle) (snd circle) with
  | None | Some [] => false
  | Some _ => true
  end.

(** What explains the tag of a final piece [(s, e, tag)]: either the piece
    is the whole line, which no circle cut, still tagged outside; or some
    circle [c] cut it out of a pending piece [parent], the tag is the
    midpoint test against [c] alone, and no later circle cut it again. *)
Definition tag_explained {A} `{Num A}
    (p1 p2 : Point A) (circles : list (Point A * A))
    (s e : Point A) (tag : bool) : Prop :=
  ((s, e, tag) = (p1, p2, true) /\
   Forall (fun c => circle_intersects c s e = false) circles)
  \/
  (exists pre c post,
      circles = pre ++ c :: post /\
      (exists parent,
          In parent (fold_left cut_all pre [(p1, p2, true)]) /\
          circle_intersects c (fst (fst parent)) (snd (fst parent)) = true /\
          In (s, e, tag) (cut_segment (fst c) (snd c) parent)) /\
      tag = negb (inside_circle (fst c) (snd c) (midpoint s e)) /\
      Forall (fun c' => circle_intersects c' s e = false) post).

(** ** The segment against the circle, in exact arithmetic

    The words of the specification: the quadratic in [t] on the
    parameterization [p1 + t (p2 - p1)], its discriminant and its roots. *)

Open Scope R_scope.

Definition param_point (p1 p2 : Point R) (t : R) : Point R :=
  (fst p1 + t * (fst p2 - fst p1), snd p1 + t * (snd p2 - snd p1)).

Definition on_circle (center : Point R) (radius : R) (q : Point R) : Prop :=
  (fst q - fst center) * (fst q - fst center)
  + (snd q - snd center) * (snd q - snd center) = radius * radius.

Definition quad_a (p1 p2 : Point R) : R :=
  (fst p2 - fst p1) * (fst p2 - fst p1) + (snd p2 - snd p1) * (snd p2 - snd p1).

Definition quad_b (p1 p2 center : Point R) : R :=
  2 * ((fst p1 - fst center) * (fst p2 - fst p1)
       + (snd p1 - snd center) * (snd p2 - snd p1)).

Definition quad_c (p1 center : Point R) (radius : R) : R :=
  (fst p1 - fst center) * (fst p1 - fst center)
  + (snd p1 - snd center) * (snd p1 - snd center) - radius * radius.

Definition discriminant (p1 p2 center : Point R) (radius : R) : R :=
  quad_b p1 p2 center * quad_b p1 p2 center
  - 4 * quad_a p1 p2 * quad_c p1 center radius.

Definition is_root (p1 p2 center : Point R) (radius : R) (t : R) : Prop :=
  quad_a p1 p2 * (t * t) + quad_b p1 p2 center * t + quad_c p1 center radius = 0.

Definition in_unit (t : R) : Prop := 0 <= t <= 1.

(** The list built by lines 144 to 148. *)
Definition kept_points (p1 p2 : Point R) (t1 t2 : R) : list (Point R) :=
  (if Rleb 0 t1 && Rleb t1 1 then [param_point p1 p2 t1] else [])
  ++ (if Rleb 0 t2 && Rleb t2 1 then [param_point p1 p2 t2] else []).

Close Scope R_scope.

(** ** The ring radius, in the words of the specification

    The larger of the inner bound and 95% of the outer bound, clamped to
    the outer bound; half the cell radius when that is not positive. *)

Open Scope R_scope.

Definition ring_radius_clamped (cell_radius item_radius : R) : R :=
  let outer := cell_radius - item_radius - 1 / 100 in
  let inner := 10 / 100 + item_radius + 2 / 1000 in
  Rmin (Rmax inner (95 / 100 * outer)) outer.

Definition ring_radius_spec (cell_radius item_radius : R) : R :=
  let v := ring_radius_clamped cell_radius item_radius in
  if Rle_dec v 0 then cell_radius / 2 else v.

(** The turn by the angle [delta] about [center]. *)
Definition rotate_about (center : Point R) (delta : R) (q : Point R) : Point R :=
  let x := fst q - fst center in
  let y := snd q - snd center in
  (fst center + (Rtrigo_def.cos delta * x - Rtrigo_def.sin delta * y),
   snd center + (Rtrigo_def.sin delta * x + Rtrigo_def.cos delta * y)).

(** The points of a ring of [k] items: as many, all at the distance
    [|rho|] from the centre, the [i]-th at the angle [theta0 + i * (2 pi / k)],
    each the turn of the one before by [2 pi / k], the first the turn of
    the last. *)
Definition evenly_spaced_ring (center : Point R) (rho theta0 : R) (k : nat)
    (pts : list (Point R)) : Prop :=
  length pts = k /\
  (forall q, In q pts -> norm_diff q center = Rabs rho) /\
  (forall i, (i < k)%nat ->
     nth i pts center
     = (fst center + rho * Rtrigo_def.cos (theta0 + INR i * (2 * PI / INR k)),
        snd center + rho * Rtrigo_def.sin (theta0 + INR i * (2 * PI / INR k)))) /\
  (forall i, (S i < k)%nat ->
     nth (S i) pts center = rotate_about center (2 * PI / INR k) (nth i pts center)) /\
  nth 0 pts center = rotate_about center (2 * PI / INR k) (nth (k - 1) pts center).

Close Scope R_scope.

(** ** A sampler that lets the placement finish

    At least [n] distinct points keep coming back among the candidates the
    random stream of the world yields. *)
Definition fair_sampler (n : Z) (w : World R) : Prop :=
  exists Q : list (Point R),
    NoDup Q /\
    (n <= Z.of_nat (length Q))%Z /\
    forall q, In q Q -> forall i, exists j, (i <= j)%nat /\ candidate_at w j = q.

(** ** Further vocabulary for the properties of the drawing code *)

(** The pieces [segs] lead from [a] to [b]: there is at least one, the first
    starts at [a], each starts where the one before ends, the last ends
    at [b]. *)
Fixpoint chained {A : Type} (a : Point A) (segs : list (Segment A)) (b : Point A)
    : Prop :=
  match segs with
  | [] => False
  | seg :: rest =>
      fst (fst seg) = a /\
      match rest with
      | [] => snd (fst seg) = b
      | _ :: _ => chained (snd (fst seg)) rest b
      end
  end.

(** Python's order on 2-tuples of reals. *)
Definition lex_lt (u v : Point R) : Prop :=
  (fst u < fst v)%R \/ (fst u = fst v /\ snd u < snd v)%R.

(** Strictly inside the circle. *)
Definition strictly_inside (center : Point R) (radius : R) (q : Point R) : Prop :=
  ((fst q - fst center) * (fst q - fst center)
   + (snd q - snd center) * (snd q - snd center) < radius * radius)%R.

(** The configuration of the scripts (lines 26 to 52). *)
Module Config.
Import String.
Local Open Scope string_scope.

Definition FUNCTIONS : list string :=
  ["water"; "education"; "green"; "work"; "streets";
   "tree"; "temperature"; "biodiversity"; "pollution"].

End Config.

Definition CELL_RADIUS {A} `{Num A} : A := lit 22 100.
Definition FUNCTION_RADIUS {A} `{Num A} : A := lit 5 100.

(** Every point of [pts] is between [lo] and [hi] away from [center]. *)
Definition forall_points_between (pts : list (Point R)) (center : Point R)
    (lo hi : R) : Prop :=
  Forall (fun q => (lo <= norm_diff q center <= hi)%R) pts.

(** ** Colour text of the interactive variant

    A Python string is the list of its code points.  [str.strip] and
    [str.lower] follow the Unicode tables of the interpreter, which are not
    part of the repository: the whitespace test [isspace] and the lowering
    [lower] are parameters of the functions that use them. *)

Module Text.

Definition char : Type := N.
Definition str : Type := list char.

Definition eqb (s t : str) : bool :=
  if list_eq_dec N.eq_dec s t then true else false.

Fixpoint dropwhile (f : char -> bool) (s : str) : str :=
  match s with
  | [] => []
  | c :: s' => if f c then dropwhile f s' else s
  end.

(** [s.strip()] *)
Definition strip (isspace : char -> bool) (s : str) : str :=
  rev (dropwhile isspace (rev (dropwhile isspace s))).

(** [s.startswith("#")] *)
Definition startswith_hash (s : str) : bool :=
  match s with
  | c :: _ => N.eqb c 35
  | [] => false
  end.

Definition auto : str := [97; 117; 116; 111]%N.
Definition black : str := [35; 48; 48; 48; 48; 48; 48]%N.

End Text.

Section CleanColor.
Variable isspace : Text.char -> bool.
Variable lower : Text.str -> Text.str.

(** [MultiCellGUI._clean_color] *)
Definition _clean_color (text fallback : Text.str) (allow_auto : bool) : Text.str :=
  let text := Text.strip isspace text in
  if allow_auto && Text.eqb (lower text) Text.auto then Text.auto
  else
    match text with
    | [] => fallback
    | _ =>
        if Text.startswith_hash text then
          if (length text =? 4)%nat || (length text =? 7)%nat then text
          else fallback
        else text
    end.

(** A dict with string keys, in insertion order. *)
Definition Dict : Type := list (Text.str * Text.str).

(** [d.get(key, default)] *)
Fixpoint dict_get (d : Dict) (key default : Text.str) : Text.str :=
  match d with
  | [] => default
  | (k, v) :: d' => if Text.eqb k key then v else dict_get d' key default
  end.

(** [d[key] = value] *)
Fixpoint dict_set (d : Dict) (key value : Text.str) : Dict :=
  match d with
  | [] => [(key, value)]
  | (k, v) :: d' =>
      if Text.eqb k key then (k, value) :: d' else (k, v) :: dict_set d' key value
  end.

End CleanColor.

(** A colour text the drawing can take: not empty, and of length 4 or 7
    when it starts with the hash sign. *)
Definition colour_shaped (s : Text.str) : Prop :=
  s <> [] /\ (Text.startswith_hash s = true -> length s = 4%nat \/ length s = 7%nat).

(** The whitespace of ASCII and the lowering of the ASCII letters, for
    running the colour functions on ASCII text. *)
Definition ascii_isspace (c : Text.char) : bool :=
  ((9 <=? c) && (c <=? 13) || (28 <=? c) && (c <=? 32))%N.

Definition ascii_lower (s : Text.str) : Text.str :=
  map (fun c => if ((65 <=? c) && (c <=? 90))%N then (c + 32)%N else c) s.

(** ** The layout state of the interactive variant and the mouse *)

(** [l[i] = v]; [None] stands for the [IndexError] of an index past the
    end. *)
Fixpoint list_set {T : Type} (l : list T) (i : nat) (v : T) : option (list T) :=
  match l, i with
  | [], _ => None
  | _ :: l', O => Some (v :: l')
  | x :: l', S i' => option_map (cons x) (list_set l' i' v)
  end.

Section GuiLayout.
Context {A : Type} `{NumA : Num A}.
Local Open Scope num_scope.

(** The fields of [MultiCellGUI] that hold the layout and the drag. *)
Record Layout : Type := {
  cell_centres : list (Point A);
  living_centres : list (Point A);
  function_centres : list (list (Point A));
  dragging_idx : option nat;
  last_xy : option (Point A)
}.

(** What the handlers read of a mouse event: whether it is over the main
    axes, and its data coordinates. *)
Record MouseEvent : Type := {
  in_main_axes : bool;
  xdata : option A;
  ydata : option A
}.

(** The test of line 492: the click is within 1.4 living radii of the
    centre. *)
Definition in_reach (click centre : Point A) : bool :=
  norm_diff click centre <=? LIVING_RADIUS * lit 14 10.

(** The loop of lines 491 to 495: the index of the first centre in reach,
    counted from [idx]. *)
Fixpoint first_in_reach (click : Point A) (centres : list (Point A)) (idx : nat)
    : option nat :=
  match centres with
  | [] => None
  | centre :: rest =>
      if in_reach click centre then Some idx
      else first_in_reach click rest (S idx)
  end.

(** [MultiCellGUI._on_press] *)
Definition _on_press (event : MouseEvent) (st : Layout) : Layout :=
  if negb (in_main_axes event) then st
  else
    match xdata event, ydata event with
    | Some x, Some y =>
        let click := (x, y) in
        match first_in_reach click (living_centres st) 0 with
        | Some idx =>
            {| cell_centres := cell_centres st;
               living_centres := living_centres st;
               function_centres := function_centres st;
               dragging_idx := Some idx;
               last_xy := Some click |}
        | None => st
        end
    | _, _ => st
    end.

(** [MultiCellGUI._on_motion], up to its call of [redraw], which reads the
    layout and changes none of these fields.  [None] stands for an
    exception: the [IndexError] of a stale [dragging_idx], or the
    [TypeError] of a missing [last_xy]. *)
Definition _on_motion (event : MouseEvent) (st : Layout) : option Layout :=
  match dragging_idx st with
  | None => Some st
  | Some ci =>
      if negb (in_main_axes event) then Some st
      else
        match xdata event, ydata event with
        | Some x, Some y =>
            let new_xy := (x, y) in
            match last_xy st with
            | None => None
            | Some last =>
                let delta := vsub new_xy last in
                match nth_error (living_centres st) ci with
                | None => None
                | Some old =>
                    let moved := vadd old delta in
                    match list_set (living_centres st) ci moved,
                          list_set (cell_centres st) ci moved,
                          nth_error (function_centres st) ci with
                    | Some living', Some cells', Some ring =>
                        match list_set (function_centres st) ci
                                       (map (fun p => vadd p delta) ring) with
                        | Some functions' =>
                            Some {| cell_centres := cells';
                                    living_centres := living';
                                    function_centres := functions';
                                    dragging_idx := Some ci;
                                    last_xy := Some new_xy |}
                        | None => None
                        end
                    | _, _, _ => None
                    end
                end
            end
        | _, _ => Some st
        end
  end.

(** [MultiCellGUI._on_release], up to its call of [redraw]. *)
Definition _on_release (st : Layout) : Layout :=
  {| cell_centres := cell_centres st;
     living_centres := living_centres st;
     function_centres := function_centres st;
     dragging_idx := None;
     last_xy := None |}.

(** A motion event over the main axes at the point [p]. *)
Definition motion_at (p : Point A) : MouseEvent :=
  {| in_main_axes := true; xdata := Some (fst p); ydata := Some (snd p) |}.

(** A run of motion events, stopped by the first exception. *)
Fixpoint drag_along (path : list (Point A)) (st : Layout) : option Layout :=
  match path with
  | [] => Some st
  | p :: rest =>
      match _on_motion (motion_at p) st with
      | Some st' => drag_along rest st'
      | None => None
      end
  end.

End GuiLayout.

Arguments Layout A : clear implicits.
Arguments MouseEvent A : clear implicits.

(** ** The scene: circles, connections, line widths, layout *)

From Stdlib Require Import Permutation.

Section Scene.
Context {A : Type} `{NumA : Num A}.
Local Open Scope num_scope.

(** The loop that lists the occluding circles (lines 208 to 216 of the
    batch script, 531 to 538 of the interactive one): for each cell its
    living circle, then its function circles.  [None] stands for the
    [IndexError] of [function_centres[i]]. *)
Fixpoint all_circles_from (i : nat) (cell_centres : list (Point A))
    (function_centres : list (list (Point A)))
    : option (list (Point A) * list A) :=
  match cell_centres with
  | [] => Some ([], [])
  | c :: rest =>
      match nth_error function_centres i with
      | None => None
      | Some ring =>
          match all_circles_from (S i) rest function_centres with
          | None => None
          | Some (centres, radii) =>
              Some (c :: ring ++ centres,
                    LIVING_RADIUS :: map (fun _ => FUNCTION_RADIUS) ring ++ radii)
          end
      end
  end.

(** The circles of one cell, each centre with its radius. *)
Definition cell_circles (cf : Point A * list (Point A)) : list (Point A * A) :=
  (fst cf, LIVING_RADIUS) :: map (fun fc => (fc, FUNCTION_RADIUS)) (snd cf).

Definition all_circles (cell_centres : list (Point A))
    (function_centres : list (list (Point A)))
    : option (list (Point A) * list A) :=
  all_circles_from 0 cell_centres function_centres.

(** One connection line to draw, and the value of [counter] after it. *)
Definition Connection : Type := (Point A * Point A * String.string * Z)%type.

(** [for (fx, fy), fname in zip(funcs, FUNCTIONS)]: a line from [liv] to
    each function point, the counter going up by one per line. *)
Fixpoint connect_to (liv : Point A) (targets : list (Point A * String.string))
    (counter : Z) : list Connection * Z :=
  match targets with
  | [] => ([], counter)
  | (p, fname) :: rest =>
      let (calls, counter') := connect_to liv rest (counter + 1) in
      ((liv, p, fname, (counter + 1)%Z) :: calls, counter')
  end.

(** [for j, funcs in enumerate(function_centres): if i == j: continue] *)
Fixpoint connect_external (liv : Point A) (i j : nat)
    (function_centres : list (list (Point A))) (counter : Z)
    : list Connection * Z :=
  match function_centres with
  | [] => ([], counter)
  | funcs :: rest =>
      if Nat.eqb i j then connect_external liv i (S j) rest counter
      else
        let (calls, counter1) :=
          connect_to liv (combine funcs Config.FUNCTIONS) counter in
        let (calls', counter2) := connect_external liv i (S j) rest counter1 in
        (calls ++ calls', counter2)
  end.

(** [for i, liv in enumerate(living_centres)], from the index [i] on.
    [None] stands for the [IndexError] of [function_centres[i]]. *)
Fixpoint connect_from (i : nat) (living_centres : list (Point A))
    (function_centres : list (list (Point A))) (counter : Z)
    : option (list Connection * Z) :=
  match living_centres with
  | [] => Some ([], counter)
  | liv :: rest =>
      match nth_error function_centres i with
      | None => None
      | Some ring =>
          let (internal, counter1) :=
            connect_to liv (combine ring Config.FUNCTIONS) counter in
          let (external, counter2) :=
            connect_external liv i 0 function_centres counter1 in
          match connect_from (S i) rest function_centres counter2 with
          | None => None
          | Some (calls, counter3) => Some (internal ++ external ++ calls, counter3)
          end
      end
  end.

(** The connection loops (lines 225 to 244 of the batch script, 542 to 555
    of the interactive one), with [counter] starting at 0. *)
Definition connections (living_centres : list (Point A))
    (function_centres : list (list (Point A))) : option (list Connection * Z) :=
  connect_from 0 living_centres function_centres 0.

Definition conn_from (c : Connection) : Point A := fst (fst (fst c)).
Definition conn_to (c : Connection) : Point A * String.string :=
  (snd (fst (fst c)), snd (fst c)).
Definition conn_counter (c : Connection) : Z := snd c.

(** Every function point of every cell, with the name [zip] gives it. *)
Definition all_targets (function_centres : list (list (Point A)))
    : list (Point A * String.string) :=
  concat (map (fun ring => combine ring Config.FUNCTIONS) function_centres).

(** The targets the loop over the other cells reaches: those of the
    cells of [function_centres], numbered from [j], except the cell [i]. *)
Fixpoint other_targets (i j : nat) (function_centres : list (list (Point A)))
    : list (Point A * String.string) :=
  match function_centres with
  | [] => []
  | funcs :: rest =>
      if Nat.eqb i j then other_targets i (S j) rest
      else combine funcs Config.FUNCTIONS ++ other_targets i (S j) rest
  end.

(** The counter values [c + 1, ..., c + n]. *)
Definition counters_from (c : Z) (n : nat) : list Z :=
  map (fun k => (c + 1 + Z.of_nat k)%Z) (seq 0 n).

(** [total_connections] of the batch script, for [n] cells. *)
Definition total_connections (n : Z) : Z :=
  (n * Z.of_nat (length Config.FUNCTIONS) * n)%Z.

(** [MultiCellGUI._draw_line_with_jitter] *)
Definition _draw_line_with_jitter
    (line_width_base line_width_jitter : A)
    (p1 p2 : Point A) (color : String.string)
    (circle_centres : list (Point A)) (circle_radii : list A)
    (zorder_lines : Z) (w : World A) : World A :=
  let u := rng w (rng_pos w) in
  let w1 := {| rng := rng w; rng_pos := S (rng_pos w);
               stdout := stdout w; canvas := canvas w |} in
  let jitter := (u - lit 5 10) * of_Z 2 * line_width_jitter in
  let lw_out := py_max (lit 2 10) (line_width_base * (of_Z 1 + jitter)) in
  let lw_in := py_max (lit 15 100) (lw_out * lit 75 100) in
  draw_smart_line p1 p2 circle_centres circle_radii color lw_out lw_in
                  zorder_lines w1.

End Scene.

(** ** The interactive figure: its state, [redraw] and the colour handlers

    Of a redraw the world records what it records of the batch script: the
    random numbers taken and the lines plotted on the main axes.  The
    circles and the labels are patches and texts, not lines, and are not
    recorded; the loop that adds them is kept for the [IndexError] it can
    raise. *)

(** The name of a function as a Python string: its code points. *)
Definition text_of_string (s : String.string) : Text.str :=
  map Ascii.N_of_ascii (String.list_ascii_of_string s).

Section Gui.
Context {A : Type} `{NumA : Num A}.

(** The fields of [MultiCellGUI] the colour handlers and the lines of
    [redraw] read or write. *)
Record Gui : Type := {
  layout : Layout A;
  func_color_map : Dict;
  font_color_living : Text.str;
  font_color_function : Text.str;
  line_width_base : A;
  line_width_jitter : A;
  lines_on_top : bool
}.

Variable isspace : Text.char -> bool.
Variable lower : Text.str -> Text.str.

(** A colour text as the colour of a plot call: the same Python string,
    in the string type of [PlotCall]. *)
Variable plot_colour : Text.str -> String.string.

(** [z_lines] of line 541. *)
Definition z_lines (g : Gui) : Z := if lines_on_top g then 40 else 10.

(** [self.func_color_map.get(fname, "#000000")] *)
Definition line_colour (g : Gui) (fname : String.string) : String.string :=
  plot_colour (dict_get (func_color_map g) (text_of_string fname) Text.black).

(** The connection loops of lines 542 to 555: each connection is drawn by
    [_draw_line_with_jitter], in the colour of its function. *)
Definition draw_connections (g : Gui)
    (circle_centres : list (Point A)) (circle_radii : list A)
    (conns : list Connection) (w : World A) : World A :=
  fold_left
    (fun w c =>
       _draw_line_with_jitter (line_width_base g) (line_width_jitter g)
         (conn_from c) (fst (conn_to c)) (line_colour g (snd (conn_to c)))
         circle_centres circle_radii (z_lines g) w)
    conns w.

(** [lw_out] and [lw_in] of lines 596 to 598, for the random number [u]. *)
Definition jitter_widths (g : Gui) (u : A) : A * A :=
  let jitter := ((u - lit 5 10) * of_Z 2 * line_width_jitter g)%num in
  let lw_out :=
    py_max (lit 2 10) (line_width_base g * (of_Z 1 + jitter))%num in
  (lw_out, py_max (lit 15 100) (lw_out * lit 75 100)%num).

(** The lines the connections [conns] are drawn with when the random
    stream is [random], read from the position [pos]: the pieces of each
    connection, in order, the i-th connection with the widths of the
    random number at [pos + i]. *)
Fixpoint drawn_lines (g : Gui)
    (circle_centres : list (Point A)) (circle_radii : list A)
    (conns : list Connection) (random : nat -> A) (pos : nat)
    : list (PlotCall A) :=
  match conns with
  | [] => []
  | c :: rest =>
      map (plot_segment (line_colour g (snd (conn_to c)))
                        (fst (jitter_widths g (random pos)))
                        (snd (jitter_widths g (random pos)))
                        (z_lines g))
          (smart_line_segments (conn_from c) (fst (conn_to c))
                               circle_centres circle_radii)
      ++ drawn_lines g circle_centres circle_radii rest random (S pos)
  end.

(** The loop of lines 557 to 590 over the cells, from the index [ci] on: it
    adds the circles and the labels.  [None] stands for the [IndexError] of
    [function_centres[ci]]. *)
Fixpoint draw_circles_and_labels (ci : nat) (cell_centres : list (Point A))
    (function_centres : list (list (Point A))) : option unit :=
  match cell_centres with
  | [] => Some tt
  | _ :: rest =>
      match nth_error function_centres ci with
      | None => None
      | Some _ => draw_circles_and_labels (S ci) rest function_centres
      end
  end.

(** [MultiCellGUI.redraw]: the axes are cleared, the connections are drawn
    unless [skip_lines], then the circles and labels.  [None] stands for
    an [IndexError]. *)
Definition redraw (g : Gui) (skip_lines : bool) (w : World A)
    : option (World A) :=
  let cleared := {| rng := rng w; rng_pos := rng_pos w;
                    stdout := stdout w; canvas := [] |} in
  let lines :=
    if skip_lines then Some cleared
    else
      match all_circles (cell_centres (layout g))
                        (function_centres (layout g)) with
      | None => None
      | Some (all_circle_centres, all_circle_radii) =>
          match connections (living_centres (layout g))
                            (function_centres (layout g)) with
          | None => None
          | Some (conns, _) =>
              Some (draw_connections g all_circle_centres all_circle_radii
                                     conns cleared)
          end
      end in
  match lines with
  | None => None
  | Some w1 =>
      match draw_circles_and_labels 0 (cell_centres (layout g))
                                    (function_centres (layout g)) with
      | None => None
      | Some _ => Some w1
      end
  end.

(** [MultiCellGUI._update_function_color]: the state after the assignment
    of line 452, and the world after [redraw], [None] if it raised. *)
Definition _update_function_color (g : Gui) (fname text : Text.str)
    (w : World A) : Gui * option (World A) :=
  let cleaned :=
    _clean_color isspace lower text
                 (dict_get (func_color_map g) fname Text.black) false in
  let g' := {| layout := layout g;
               func_color_map := dict_set (func_color_map g) fname cleaned;
               font_color_living := font_color_living g;
               font_color_function := font_color_function g;
               line_width_base := line_width_base g;
               line_width_jitter := line_width_jitter g;
               lines_on_top := lines_on_top g |} in
  (g', redraw g' false w).

(** [MultiCellGUI._update_font_color]; [target_is_living] is the test
    [target == "living"]. *)
Definition _update_font_color (g : Gui) (text : Text.str)
    (target_is_living : bool) (w : World A) : Gui * option (World A) :=
  let g' :=
    if target_is_living then
      {| layout := layout g;
         func_color_map := func_color_map g;
         font_color_living :=
           _clean_color isspace lower text (font_color_living g) false;
         font_color_function := font_color_function g;
         line_width_base := line_width_base g;
         line_width_jitter := line_width_jitter g;
         lines_on_top := lines_on_top g |}
    else
      {| layout := layout g;
         func_color_map := func_color_map g;
         font_color_living := font_color_living g;
         font_color_function :=
           _clean_color isspace lower text (font_color_function g) true;
         line_width_base := line_width_base g;
         line_width_jitter := line_width_jitter g;
         lines_on_top := lines_on_top g |} in
  (g', redraw g' false w).

End Gui.

Arguments Gui A : clear implicits.

(** A plotted line without its width: ends, colour, opacity and layer. *)
Definition without_width {A : Type} (c : PlotCall A)
    : Point A * Point A * String.string * A * Z :=
  (line_from c, line_to c, color c, alpha c, zorder c).

Section InitLayout.
Context {A : Type} `{NumA : Num A} `{TrigA : Trig A}.

(** The list comprehension of lines 201 to 204: one ring per cell centre,
    in order, each taking its start angle from the world. *)
Fixpoint rings_for (cell_centres : list (Point A)) (w : World A)
    : list (list (Point A)) * World A :=
  match cell_centres with
  | [] => ([], w)
  | c :: rest =>
      let (ring, w1) :=
        ring_positions_inside_cell c CELL_RADIUS (length Config.FUNCTIONS)
                                   FUNCTION_RADIUS w in
      let (rings, w2) := rings_for rest w1 in
      (ring :: rings, w2)
  end.

(** [MultiCellGUI._init_layout], on fuel for the placement loop. *)
Definition _init_layout (fuel : nat) (n_cells : Z) (cell_spacing : A)
    (avoid_overlap : bool) (st : Layout A) (w : World A)
    : option (Layout A * World A) :=
  let min_dist := if avoid_overlap then cell_spacing else lit 5 100 in
  match random_cell_positions fuel n_cells min_dist
                              max_attempts_default relax_factor_default w with
  | None => None
  | Some (centres, w1) =>
      let (rings, w2) := rings_for centres w1 in
      Some ({| cell_centres := centres;
               living_centres := centres;
               function_centres := rings;
               dragging_idx := dragging_idx st;
               last_xy := last_xy st |}, w2)
  end.

End InitLayout.

(** ** The steps of [segment_circle_intersection], as computed

    The local variables of lines 132 to 141, as functions of the arguments,
    in the arithmetic of the instance: at [B64] they are the rounded values
    the code tests, not the real numbers they stand for. *)

Section IntersectionSteps.
Context {A : Type} `{NumA : Num A}.
Local Open Scope num_scope.

Definition sci_a (p1 p2 : Point A) : A :=
  dot (vsub p2 p1) (vsub p2 p1).

Definition sci_b (p1 p2 center : Point A) : A :=
  of_Z 2 * dot (vsub p1 center) (vsub p2 p1).

Definition sci_c_val (p1 center : Point A) (radius : A) : A :=
  dot (vsub p1 center) (vsub p1 center) - radius * radius.

(** [disc] of line 136, before the square root. *)
Definition sci_disc (p1 p2 center : Point A) (radius : A) : A :=
  sci_b p1 p2 center * sci_b p1 p2 center
  - of_Z 4 * sci_a p1 p2 * sci_c_val p1 center radius.

Definition sci_t1 (p1 p2 center : Point A) (radius : A) : A :=
  (- sci_b p1 p2 center - sqrt (sci_disc p1 p2 center radius))
  / (of_Z 2 * sci_a p1 p2).

Definition sci_t2 (p1 p2 center : Point A) (radius : A) : A :=
  (- sci_b p1 p2 center + sqrt (sci_disc p1 p2 center radius))
  / (of_Z 2 * sci_a p1 p2).

(** The test [0 <= t <= 1] of lines 145 and 147. *)
Definition in_range (t : A) : bool := (of_Z 0 <=? t) && (t <=? of_Z 1).

(** [tuple(p1 + t*d)] *)
Definition point_at (p1 p2 : Point A) (t : A) : Point A :=
  vadd p1 (scale t (vsub p2 p1)).

End IntersectionSteps.

(** ** The call of [segment_circle_intersection] on Python floats

    [radius**2] is Python's float power.  On a NaN, an infinity or a zero
    it does not raise and gives what the product gives; on any other
    radius it raises [OverflowError] when the square is out of the
    binary64 range, and gives the square otherwise.  Nothing else in the
    function raises: the rest is numpy scalar arithmetic.
    [segment_circle_intersection] above is the function for a power that
    returns; [segment_circle_intersection_call] is the call, with the
    exception. *)

Inductive Exception : Type :=
| OverflowError.

Inductive Outcome (T : Type) : Type :=
| Returns (v : T)
| Raises (e : Exception).

Arguments Returns {T} v.
Arguments Raises {T} e.

(** Whether [x**2] raises. *)
Definition square_raises (x : B64.t) : bool :=
  match x with
  | S754_finite _ _ _ =>
      match mul x x with
      | S754_infinity _ => true
      | _ => false
      end
  | _ => false
  end.

(** [x**2] *)
Definition float_square (x : B64.t) : Outcome B64.t :=
  if square_raises x then Raises OverflowError else Returns (mul x x).

Definition segment_circle_intersection_call
    (p1 p2 center : Point B64.t) (radius : B64.t)
    : Outcome (option (list (Point B64.t))) :=
  match float_square radius with
  | Raises e => Raises e
  | Returns _ => Returns (segment_circle_intersection p1 p2 center radius)
  end.

(** Two binary64 values that are the same, or are both a zero: they differ
    at most in the sign of a zero, which Python's [==] does not see. *)
Definition same_up_to_zero_sign (x y : B64.t) : Prop :=
  x = y \/ exists s s', x = S754_zero s /\ y = S754_zero s'.

Definition same_point_up_to_zero_sign (p q : Point B64.t) : Prop :=
  same_up_to_zero_sign (fst p) (fst q) /\ same_up_to_zero_sign (snd p) (snd q).

(** Python's [==] on two tuples of floats that share no element object:
    both coordinates are equal as floats, which no NaN is. *)
Definition tuple_eq (p q : Point B64.t) : bool :=
  eqb (fst p) (fst q) && eqb (snd p) (snd q).

(** * Properties *)

Unset Implicit Arguments.

(** ** The passes of [draw_smart_line] *)

Section SplitFacts.
Context {A : Type} `{NumA : Num A}.

Lemma cut_segment_keep (c : Point A) (r : A) (a b : Point A) (o : bool) :
  circle_intersects (c, r) a b = false ->
  cut_segment c r (a, b, o) = [(a, b, o)].
Proof.
  unfold circle_intersects, cut_segment; simpl.
  destruct (segment_circle_intersection a b c r) as [[|q l]|];
    intros E; try reflexivity; discriminate.
Qed.

Lemma cut_segment_tag (c : Point A) (r : A) (a b : Point A) (o : bool) :
  circle_intersects (c, r) a b = true ->
  forall s e t, In (s, e, t) (cut_segment c r (a, b, o)) ->
    t = negb (inside_circle c r (midpoint s e)).
Proof.
  unfold circle_intersects, cut_segment; simpl.
  destruct (segment_circle_intersection a b c r) as [[|q l]|];
    intros E; try discriminate.
  intros s e t Hin. apply in_map_iff in Hin.
  destruct Hin as [[s' e'] [Heq _]]. inversion Heq; subst. reflexivity.
Qed.

Lemma in_cut_all (segs : list (Segment A)) (circle : Point A * A) x :
  In x (cut_all segs circle) <->
  exists parent, In parent segs /\
                 In x (cut_segment (fst circle) (snd circle) parent).
Proof. unfold cut_all. apply in_flat_map. Qed.

(** Where a piece of the final list comes from: it is either one of the
    initial pieces, never cut, or it was cut out of a piece by some circle
    and left alone by every later circle. *)
Lemma piece_provenance (circles : list (Point A * A)) :
  forall (segs : list (Segment A)) s e t,
    In (s, e, t) (fold_left cut_all circles segs) ->
    (In (s, e, t) segs /\
     Forall (fun c => circle_intersects c s e = false) circles)
    \/
    (exists pre c post parent,
        circles = pre ++ c :: post /\
        In parent (fold_left cut_all pre segs) /\
        circle_intersects c (fst (fst parent)) (snd (fst parent)) = true /\
        In (s, e, t) (cut_segment (fst c) (snd c) parent) /\
        t = negb (inside_circle (fst c) (snd c) (midpoint s e)) /\
        Forall (fun c' => circle_intersects c' s e = false) post).
Proof.
  induction circles as [|c circles IH] using rev_ind; intros segs s e t Hin.
  - left. split; [exact Hin | constructor].
  - rewrite fold_left_app in Hin; simpl in Hin.
    apply in_cut_all in Hin. destruct Hin as [[[a b] o] [Hpar Hcut]].
    destruct (circle_intersects c a b) eqn:Ei.
    + right. exists circles, c, [], (a, b, o).
      destruct c as [cc cr]; cbn [fst snd] in *.
      repeat split; auto.
      eapply cut_segment_tag; eauto.
    + destruct c as [cc cr]; cbn [fst snd] in *.
      rewrite (cut_segment_keep _ _ _ _ _ Ei) in Hcut.
      destruct Hcut as [Heq | []]. inversion Heq; subst a b o.
      destruct (IH _ _ _ _ Hpar) as [[Hin0 Hall] | (pre & c & post & parent & H)].
      * left. split; auto. apply Forall_app. split; auto.
      * right. destruct H as (Hc & Hp & Hi & Hcut & Ht & Hpost).
        exists pre, c, (post ++ [(cc, cr)]), parent.
        repeat split; auto.
        -- rewrite Hc. rewrite <- app_assoc. reflexivity.
        -- apply Forall_app. split; auto.
Qed.

End SplitFacts.

(** C2. Every piece of the final list carries the tag given by the midpoint
    test against the last circle, in iteration order, that cut it (strictly
    inside means not outside); a piece that no circle cut is the whole line
    with its initial outside tag.  The tag is not "inside any circle": on the
    line (-2,0)-(2,0) with the circles ((0,0), 1) and ((3,0), 2.5) the piece
    (-1,0)-(0.5,0) ends tagged outside although its midpoint is strictly
    inside the first circle. *)
Theorem tag_from_last_cutting_circle :
  (forall (A : Type) (NumA : Num A) (p1 p2 : Point A)
          (circle_centers : list (Point A)) (circle_radii : list A)
          (s e : Point A) (tag : bool),
      In (s, e, tag) (smart_line_segments p1 p2 circle_centers circle_radii) ->
      tag_explained p1 p2 (combine circle_centers circle_radii) s e tag)
  /\
  (let c1 := (f64 0, f64 0) in
   let s := (f64 (-1), f64 0) in
   let e := (lit 1 2, f64 0) in
   In (s, e, true)
      (smart_line_segments (f64 (-2), f64 0) (f64 2, f64 0)
                           [c1; (f64 3, f64 0)] [f64 1; lit 5 2]) /\
   inside_circle c1 (f64 1) (midpoint s e) = true).
Proof.
  split.
  - intros A NumA p1 p2 cs rs s e tag Hin.
    unfold smart_line_segments in Hin.
    apply piece_provenance in Hin.
    destruct Hin as [[Hin Hall] | (pre & c & post & parent & Hc & Hp & Hi & Hcut & Ht & Hpost)].
    + left. destruct Hin as [Heq | []]. split; [symmetry; exact Heq | exact Hall].
    + right. exists pre, c, post. repeat split; auto.
      exists parent. auto.
  - vm_compute. split; [right; left; reflexivity | reflexivity].
Qed.

Lemma tag_from_last_cutting_circle_witness :
  tag_explained (f64 (-2), f64 0) (f64 2, f64 0)
                (combine [(f64 0, f64 0); (f64 3, f64 0)] [f64 1; lit 5 2])
                (f64 (-1), f64 0) (lit 1 2, f64 0) true.
Proof.
  apply (proj1 tag_from_last_cutting_circle).
  vm_compute. right; left; reflexivity.
Defined.

(** C1, at the input where it fails.  On the line from (2,0) to (-2,0) and
    the circle ((0,0), 1), [segment_circle_intersection] gives the crossings
    in the order of the parameter t, (1,0) then (-1,0); [sorted] reorders
    them by coordinates, so the line is cut at (-1,0) first.  The three
    pieces overlap, their lengths add up to 8 for a line of length 4, and
    all three are tagged inside, the stretch from (2,0) to (1,0) included.
    The opposite direction gives the three pieces of a partition. *)
Theorem right_to_left_line_cut_out_of_order :
  let p1 : Point B64.t := (f64 2, f64 0) in
  let p2 : Point B64.t := (f64 (-2), f64 0) in
  let c : Point B64.t := (f64 0, f64 0) in
  let segs := smart_line_segments p1 p2 [c] [f64 1] in
  segment_circle_intersection p1 p2 c (f64 1)
    = Some [(f64 1, f64 0); (f64 (-1), f64 0)] /\
  segs = [(p1, (f64 (-1), f64 0), false);
          ((f64 (-1), f64 0), (f64 1, f64 0), false);
          ((f64 1, f64 0), p2, false)] /\
  path_length segs = f64 8 /\
  segment_length (p1, p2, true) = f64 4 /\
  smart_line_segments p2 p1 [c] [f64 1]
    = [(p2, (f64 (-1), f64 0), true);
       ((f64 (-1), f64 0), (f64 1, f64 0), false);
       ((f64 1, f64 0), p1, true)] /\
  path_length (smart_line_segments p2 p1 [c] [f64 1]) = f64 4.
Proof. vm_compute. repeat split; reflexivity. Qed.

(** C9. What [draw_smart_line] plots is a function of its arguments alone:
    from any two worlds it appends the same plot calls, those of
    [smart_line_segments], and it leaves the random generator and the
    standard output as they were; so a second call plots the same pieces
    again. *)
Theorem draw_smart_line_deterministic :
  forall (A : Type) (NumA : Num A) (p1 p2 : Point A)
         (circle_centers : list (Point A)) (circle_radii : list A)
         (color : String.string) (lw_out lw_in : A) (zorder_base : Z)
         (w1 w2 : World A),
    let draw := draw_smart_line p1 p2 circle_centers circle_radii
                                color lw_out lw_in zorder_base in
    let drawn := map (plot_segment color lw_out lw_in zorder_base)
                     (smart_line_segments p1 p2 circle_centers circle_radii) in
    canvas (draw w1) = canvas w1 ++ drawn /\
    canvas (draw w2) = canvas w2 ++ drawn /\
    canvas (draw (draw w1)) = canvas w1 ++ drawn ++ drawn /\
    rng (draw w1) = rng w1 /\
    rng_pos (draw w1) = rng_pos w1 /\
    stdout (draw w1) = stdout w1.
Proof.
  intros A NumA p1 p2 cs rs color lo li z w1 w2 draw drawn.
  assert (Hfold : forall segs (w : World A),
             let w' := fold_left
                         (fun w seg => ax_plot (plot_segment color lo li z seg) w)
                         segs w in
             canvas w' = canvas w ++ map (plot_segment color lo li z) segs /\
             rng w' = rng w /\ rng_pos w' = rng_pos w /\ stdout w' = stdout w).
  { induction segs as [|seg segs IH]; intros w; simpl.
    - rewrite app_nil_r. auto.
    - destruct (IH (ax_plot (plot_segment color lo li z seg) w)) as (Hc & Hr & Hp & Ho).
      rewrite Hc, Hr, Hp, Ho. simpl. rewrite <- app_assoc. auto. }
  unfold draw, drawn, draw_smart_line.
  pose proof (Hfold (smart_line_segments p1 p2 cs rs) w1) as (Hc1 & Hr1 & Hp1 & Ho1).
  pose proof (Hfold (smart_line_segments p1 p2 cs rs) w2) as (Hc2 & _).
  repeat split; auto.
  destruct (Hfold (smart_line_segments p1 p2 cs rs)
                  (fold_left
                     (fun w seg => ax_plot (plot_segment color lo li z seg) w)
                     (smart_line_segments p1 p2 cs rs) w1)) as (Hc3 & _).
  rewrite Hc3, Hc1, <- app_assoc. reflexivity.
Qed.

(** ** [segment_circle_intersection] in exact arithmetic *)

Section RealIntersection.
Local Open Scope R_scope.

Lemma Rltb_true x y : Rltb x y = true <-> x < y.
Proof. unfold Rltb. destruct (Rlt_dec x y); split; intros; try lra; congruence. Qed.
Lemma Rltb_false x y : Rltb x y = false <-> y <= x.
Proof. unfold Rltb. destruct (Rlt_dec x y); split; intros; try lra; congruence. Qed.
Lemma Rleb_true x y : Rleb x y = true <-> x <= y.
Proof. unfold Rleb. destruct (Rle_dec x y); split; intros; try lra; congruence. Qed.
Lemma Rleb_false x y : Rleb x y = false <-> y < x.
Proof. unfold Rleb. destruct (Rle_dec x y); split; intros; try lra; congruence. Qed.

Lemma in_unit_test t :
  (Rleb 0 t && Rleb t 1 = true <-> in_unit t).
Proof.
  unfold in_unit. rewrite andb_true_iff, !Rleb_true. tauto.
Qed.

Lemma sci_R_unfold (p1 p2 c : Point R) (r : R) :
  segment_circle_intersection p1 p2 c r =
  let a := quad_a p1 p2 in
  let b := quad_b p1 p2 c in
  let disc := discriminant p1 p2 c r in
  if Rltb disc 0 then None
  else
    let t1 := (- b - R_sqrt.sqrt disc) / (2 * a) in
    let t2 := (- b + R_sqrt.sqrt disc) / (2 * a) in
    match (if Rleb 0 t1 && Rleb t1 1 then [param_point p1 p2 t1] else [])
          ++ (if Rleb 0 t2 && Rleb t2 1 then [param_point p1 p2 t2] else []) with
    | [] => None
    | pts => Some pts
    end.
Proof.
  unfold segment_circle_intersection, discriminant, quad_a, quad_b, quad_c,
    param_point, dot, vsub, vadd, scale.
  cbn.
  destruct (Rltb _ 0); [reflexivity|].
  destruct (Rleb 0 _ && Rleb _ 1); destruct (Rleb 0 _ && Rleb _ 1); reflexivity.
Qed.

Lemma is_root_on_circle (p1 p2 c : Point R) (r t : R) :
  is_root p1 p2 c r t <-> on_circle c r (param_point p1 p2 t).
Proof.
  unfold is_root, on_circle, param_point, quad_a, quad_b, quad_c.
  destruct p1 as [x1 y1], p2 as [x2 y2], c as [cx cy]; cbn [fst snd].
  split; intros H; nra.
Qed.

Lemma quad_a_pos (p1 p2 : Point R) : p1 <> p2 -> 0 < quad_a p1 p2.
Proof.
  destruct p1 as [x1 y1], p2 as [x2 y2]; unfold quad_a; cbn [fst snd].
  intros Hne.
  destruct (Req_dec x1 x2) as [Hx | Hx].
  - destruct (Req_dec y1 y2) as [Hy | Hy].
    + subst. exfalso. apply Hne. reflexivity.
    + assert (0 < (y2 - y1) * (y2 - y1)).
      { destruct (Rtotal_order y1 y2) as [H | [H | H]]; [nra | congruence | nra]. }
      pose proof (Rle_0_sqr (x2 - x1)) as Hq. unfold Rsqr in Hq. lra.
  - assert (0 < (x2 - x1) * (x2 - x1)).
    { destruct (Rtotal_order x1 x2) as [H | [H | H]]; [nra | congruence | nra]. }
    pose proof (Rle_0_sqr (y2 - y1)) as Hq. unfold Rsqr in Hq. lra.
Qed.

Lemma no_root_when_disc_negative (p1 p2 c : Point R) (r t : R) :
  discriminant p1 p2 c r < 0 -> ~ is_root p1 p2 c r t.
Proof.
  unfold discriminant, is_root.
  generalize (quad_a p1 p2) (quad_b p1 p2 c) (quad_c p1 c r).
  intros a b cv Hd Hr.
  assert (E : (2 * a * t + b) * (2 * a * t + b)
              = b * b - 4 * a * cv + 4 * a * (a * (t * t) + b * t + cv)) by ring.
  rewrite Hr in E.
  pose proof (Rle_0_sqr (2 * a * t + b)) as Hq. unfold Rsqr in Hq. lra.
Qed.

Lemma roots_when_disc_nonneg (p1 p2 c : Point R) (r t : R) :
  0 < quad_a p1 p2 -> 0 <= discriminant p1 p2 c r ->
  is_root p1 p2 c r t <->
  t = (- quad_b p1 p2 c - R_sqrt.sqrt (discriminant p1 p2 c r)) / (2 * quad_a p1 p2)
  \/ t = (- quad_b p1 p2 c + R_sqrt.sqrt (discriminant p1 p2 c r)) / (2 * quad_a p1 p2).
Proof.
  unfold is_root, discriminant.
  generalize (quad_a p1 p2) (quad_b p1 p2 c) (quad_c p1 c r).
  intros a b cv Ha Hd.
  pose proof (sqrt_sqrt _ Hd) as Hs.
  revert Hs. generalize (R_sqrt.sqrt (b * b - 4 * a * cv)). intros s Hs.
  assert (Hfac : 4 * a * (a * (t * t) + b * t + cv)
                 = (2 * a * t + b - s) * (2 * a * t + b + s)).
  { transitivity ((2 * a * t + b) * (2 * a * t + b) - (b * b - 4 * a * cv));
      [ring | rewrite <- Hs; ring]. }
  split.
  - intros Hr. rewrite Hr, Rmult_0_r in Hfac. symmetry in Hfac.
    apply Rmult_integral in Hfac. destruct Hfac as [H | H].
    + right. apply Rmult_eq_reg_r with (2 * a); [|lra].
      unfold Rdiv. rewrite Rmult_assoc, Rinv_l by lra. lra.
    + left. apply Rmult_eq_reg_r with (2 * a); [|lra].
      unfold Rdiv. rewrite Rmult_assoc, Rinv_l by lra. lra.
  - intros [H | H].
    + assert (H2 : 2 * a * t + b + s = 0).
      { rewrite H. field. lra. }
      rewrite H2, Rmult_0_r in Hfac. nra.
    + assert (H2 : 2 * a * t + b - s = 0).
      { rewrite H. field. lra. }
      rewrite H2, Rmult_0_l in Hfac. nra.
Qed.

Lemma in_kept_points (p1 p2 : Point R) (t1 t2 : R) (q : Point R) :
  In q (kept_points p1 p2 t1 t2) <->
  (in_unit t1 /\ q = param_point p1 p2 t1) \/
  (in_unit t2 /\ q = param_point p1 p2 t2).
Proof.
  unfold kept_points. rewrite in_app_iff.
  assert (H : forall t, In q (if Rleb 0 t && Rleb t 1 then [param_point p1 p2 t] else [])
                        <-> in_unit t /\ q = param_point p1 p2 t).
  { intros t. destruct (Rleb 0 t && Rleb t 1) eqn:E.
    - apply in_unit_test in E. simpl. split.
      + intros [H | []]. auto.
      + intros [_ H]. auto.
    - simpl. split; [tauto|]. intros [Hu _].
      apply in_unit_test in Hu. congruence. }
  rewrite !H. tauto.
Qed.

Lemma length_kept_points (p1 p2 : Point R) (t1 t2 : R) :
  (length (kept_points p1 p2 t1 t2) <= 2)%nat.
Proof.
  unfold kept_points.
  destruct (Rleb 0 t1 && Rleb t1 1); destruct (Rleb 0 t2 && Rleb t2 1);
    simpl; lia.
Qed.

Lemma sci_R_kept (p1 p2 c : Point R) (r : R) :
  0 <= discriminant p1 p2 c r ->
  segment_circle_intersection p1 p2 c r =
  match kept_points p1 p2
          ((- quad_b p1 p2 c - R_sqrt.sqrt (discriminant p1 p2 c r)) / (2 * quad_a p1 p2))
          ((- quad_b p1 p2 c + R_sqrt.sqrt (discriminant p1 p2 c r)) / (2 * quad_a p1 p2))
  with
  | [] => None
  | pts => Some pts
  end.
Proof.
  intros Hd. rewrite sci_R_unfold. cbv zeta.
  rewrite (proj2 (Rltb_false _ _) Hd). reflexivity.
Qed.

Lemma sci_R_none (p1 p2 c : Point R) (r : R) :
  discriminant p1 p2 c r < 0 ->
  segment_circle_intersection p1 p2 c r = None.
Proof.
  intros Hd. rewrite sci_R_unfold. cbv zeta.
  rewrite (proj2 (Rltb_true _ _) Hd). reflexivity.
Qed.

Lemma sci_R_points (p1 p2 c : Point R) (r : R) :
  p1 <> p2 ->
  (segment_circle_intersection p1 p2 c r = None <->
   discriminant p1 p2 c r < 0 \/
   ~ exists t, in_unit t /\ is_root p1 p2 c r t)
  /\
  (forall pts,
      segment_circle_intersection p1 p2 c r = Some pts ->
      (length pts = 1 \/ length pts = 2)%nat /\
      forall q, In q pts <->
                exists t, in_unit t /\ is_root p1 p2 c r t /\
                          q = param_point p1 p2 t).
Proof.
  intros Hne. pose proof (quad_a_pos _ _ Hne) as Ha.
  destruct (Rlt_dec (discriminant p1 p2 c r) 0) as [Hd | Hd].
  - rewrite (sci_R_none _ _ _ _ Hd). split.
    + split; auto.
    + intros pts H. discriminate.
  - apply Rnot_lt_le in Hd. rewrite (sci_R_kept _ _ _ _ Hd).
    set (t1 := (- quad_b p1 p2 c - R_sqrt.sqrt (discriminant p1 p2 c r)) / (2 * quad_a p1 p2)).
    set (t2 := (- quad_b p1 p2 c + R_sqrt.sqrt (discriminant p1 p2 c r)) / (2 * quad_a p1 p2)).
    assert (Hin : forall q, In q (kept_points p1 p2 t1 t2) <->
                   exists t, in_unit t /\ is_root p1 p2 c r t /\
                             q = param_point p1 p2 t).
    { intros q. rewrite in_kept_points. split.
      - intros [[Hu Hq] | [Hu Hq]].
        + exists t1. repeat split; auto; try apply Hu.
          apply roots_when_disc_nonneg; auto.
        + exists t2. repeat split; auto; try apply Hu.
          apply roots_when_disc_nonneg; auto.
      - intros (t & Hu & Hr & Hq).
        apply roots_when_disc_nonneg in Hr; auto.
        destruct Hr as [Ht | Ht]; subst t; [left | right]; auto. }
    pose proof (length_kept_points p1 p2 t1 t2) as Hlen.
    destruct (kept_points p1 p2 t1 t2) as [|q0 l] eqn:Ek.
    + split.
      * split; auto. intros _. right. intros (t & Hu & Hr).
        destruct (proj2 (Hin (param_point p1 p2 t))).
        exists t. auto.
      * intros pts H. discriminate.
    + split.
      * split; [discriminate|]. intros [Hlt | Hno]; [lra|].
        exfalso. apply Hno.
        destruct (proj1 (Hin q0) (or_introl eq_refl)) as (t & Hu & Hr & _).
        exists t. auto.
      * intros pts H. inversion H; subst pts. split.
        -- simpl in *. destruct l as [|q1 l]; simpl in *; [left | right]; lia.
        -- exact Hin.
Qed.



End RealIntersection.

Section StepsFacts.
Context {A : Type} `{NumA : Num A}.

Lemma sci_steps (p1 p2 c : Point A) (r : A) :
  segment_circle_intersection p1 p2 c r
  = if ltb (sci_disc p1 p2 c r) (of_Z 0) then None
    else match (if in_range (sci_t1 p1 p2 c r)
                then [point_at p1 p2 (sci_t1 p1 p2 c r)] else [])
               ++ (if in_range (sci_t2 p1 p2 c r)
                   then [point_at p1 p2 (sci_t2 p1 p2 c r)] else []) with
         | [] => None
         | pts => Some pts
         end.
Proof.
  unfold segment_circle_intersection, sci_t1, sci_t2, sci_disc, sci_b, sci_a,
    sci_c_val, in_range, point_at.
  cbv zeta.
  destruct (ltb _ (of_Z 0)); [reflexivity|].
  destruct (_ && _); destruct (_ && _); reflexivity.
Qed.


End StepsFacts.

Section RealSteps.
Local Open Scope R_scope.




Lemma point_at_R (p1 p2 : Point R) (t : R) : point_at p1 p2 t = param_point p1 p2 t.
Proof. reflexivity. Qed.



End RealSteps.


(** A root that passes the range test is a number: NaN and the infinities
    fail it. *)
Lemma in_range_is_finite (t : B64.t) : in_range t = true -> B64.finite t = true.
Proof.
  destruct t as [s | s | | s m e]; intros H; try reflexivity;
    [destruct s; discriminate H | discriminate H].
Qed.



(** ** A computed discriminant of exactly zero, in binary64 *)

Section TangentB64.
Local Open Scope num_scope.

Local Abbreviation same := same_up_to_zero_sign.

Lemma same_refl (x : B64.t) : same x x.
Proof. left. reflexivity. Qed.

Lemma eqb_zero_is_zero (x : B64.t) :
  (x =? of_Z 0) = true -> exists s, x = S754_zero s.
Proof.
  destruct x as [s | s | | s m e]; intros H.
  - exists s. reflexivity.
  - destruct s; discriminate.
  - discriminate.
  - destruct s; discriminate.
Qed.

Lemma sqrt_of_zero (s : bool) : sqrt (S754_zero s : B64.t) = S754_zero s.
Proof. reflexivity. Qed.

Lemma zero_not_negative (s : bool) : ((S754_zero s : B64.t) <? of_Z 0) = false.
Proof. destruct s; reflexivity. Qed.

(** Taking a zero away, or adding one, gives the same value up to the sign
    of a zero. *)
Lemma sub_add_zero (x : B64.t) (s : bool) :
  same (x - S754_zero s) (x + S754_zero s).
Proof.
  destruct x as [sx | sx | | sx mx ex].
  - right. destruct sx, s; cbn; eauto.
  - left. reflexivity.
  - left. reflexivity.
  - left. reflexivity.
Qed.

Lemma same_div (x y z : B64.t) : same x y -> same (x / z) (y / z).
Proof.
  intros [-> | (s & s' & -> & ->)]; [apply same_refl|].
  destruct z as [sz | sz | | sz mz ez]; cbn.
  - left. reflexivity.
  - right. eauto.
  - left. reflexivity.
  - right. eauto.
Qed.

Lemma same_mul (x y z : B64.t) : same x y -> same (x * z) (y * z).
Proof.
  intros [-> | (s & s' & -> & ->)]; [apply same_refl|].
  destruct z as [sz | sz | | sz mz ez]; cbn.
  - right. eauto.
  - left. reflexivity.
  - left. reflexivity.
  - right. eauto.
Qed.

Lemma same_add (p x y : B64.t) : same x y -> same (p + x) (p + y).
Proof.
  intros [-> | (s & s' & -> & ->)]; [apply same_refl|].
  destruct p as [sp | sp | | sp mp ep]; cbn.
  - right. destruct sp, s, s'; eauto.
  - left. reflexivity.
  - left. reflexivity.
  - left. reflexivity.
Qed.

Lemma same_in_range (x y : B64.t) : same x y -> in_range x = in_range y.
Proof.
  intros [-> | (s & s' & -> & ->)]; [reflexivity|].
  destruct s, s'; reflexivity.
Qed.

Lemma same_point_at (p1 p2 : Point B64.t) (t t' : B64.t) :
  same t t' -> same_point_up_to_zero_sign (point_at p1 p2 t) (point_at p1 p2 t').
Proof.
  intros H. unfold same_point_up_to_zero_sign, point_at, vadd, scale.
  cbn [fst snd]. split; apply same_add, same_mul, H.
Qed.

Lemma zero_disc_roots (p1 p2 c : Point B64.t) (r : B64.t) :
  (sci_disc p1 p2 c r =? of_Z 0) = true ->
  same (sci_t1 p1 p2 c r) (sci_t2 p1 p2 c r).
Proof.
  intros H. apply eqb_zero_is_zero in H. destruct H as [s Hs].
  unfold sci_t1, sci_t2. rewrite Hs, sqrt_of_zero.
  apply same_div, sub_add_zero.
Qed.

Lemma zero_disc_result (p1 p2 c : Point B64.t) (r : B64.t) :
  (sci_disc p1 p2 c r =? of_Z 0) = true ->
  segment_circle_intersection p1 p2 c r
  = if in_range (sci_t1 p1 p2 c r)
    then Some [point_at p1 p2 (sci_t1 p1 p2 c r);
               point_at p1 p2 (sci_t2 p1 p2 c r)]
    else None.
Proof.
  intros H. pose proof (zero_disc_roots p1 p2 c r H) as Hsame.
  apply same_in_range in Hsame.
  apply eqb_zero_is_zero in H. destruct H as [s Hs].
  rewrite sci_steps, Hs, zero_not_negative, <- Hsame.
  destruct (in_range (sci_t1 p1 p2 c r)); reflexivity.
Qed.

End TangentB64.

(** ** No NaN out of finite operands, in binary64 *)

Section FiniteB64.
Local Open Scope num_scope.

Local Abbreviation finite := B64.finite.
Local Abbreviation not_nan := B64.not_nan.

Lemma shr_1_nonneg (mrs : shr_record) :
  (0 <= shr_m mrs)%Z -> (0 <= shr_m (shr_1 mrs))%Z.
Proof.
  destruct mrs as [m r s]. cbn [shr_m]. intros Hm.
  destruct m as [|p|p]; [| |lia]; cbn.
  - lia.
  - destruct p; cbn; lia.
Qed.

Lemma iter_shr_1_nonneg (p : positive) :
  forall mrs : shr_record,
    (0 <= shr_m mrs)%Z -> (0 <= shr_m (iter_pos shr_1 p mrs))%Z.
Proof.
  induction p as [p IH | p IH |]; intros mrs Hm; cbn [iter_pos].
  - apply IH, IH, shr_1_nonneg, Hm.
  - apply IH, IH, Hm.
  - apply shr_1_nonneg, Hm.
Qed.

Lemma shr_fexp_nonneg (m e : Z) (l : location) :
  (0 <= m)%Z -> (0 <= shr_m (fst (shr_fexp B64.prec B64.emax m e l)))%Z.
Proof.
  intros Hm. unfold shr_fexp, shr.
  assert (H0 : (0 <= shr_m (shr_record_of_loc m l))%Z).
  { destruct l as [|[ | | ]]; exact Hm. }
  destruct (fexp B64.prec B64.emax (Zdigits2 m + e) - e)%Z; cbn [fst];
    [exact H0 | apply iter_shr_1_nonneg; exact H0 | exact H0].
Qed.

Lemma round_nearest_even_nonneg (m : Z) (l : location) :
  (0 <= m)%Z -> (0 <= round_nearest_even m l)%Z.
Proof.
  intros Hm. unfold round_nearest_even.
  destruct l as [|[ | | ]]; try lia. destruct (Z.even m); lia.
Qed.

Lemma binary_round_aux_not_nan (s : bool) (m e : Z) (l : location) :
  (0 <= m)%Z ->
  not_nan (binary_round_aux B64.prec B64.emax s m e l) = true.
Proof.
  intros Hm. unfold binary_round_aux.
  pose proof (shr_fexp_nonneg m e l Hm) as H1.
  destruct (shr_fexp B64.prec B64.emax m e l) as [mrs' e']. cbn [fst] in H1.
  pose proof (shr_fexp_nonneg
                (round_nearest_even (shr_m mrs') (loc_of_shr_record mrs')) e'
                loc_Exact (round_nearest_even_nonneg _ _ H1)) as H2.
  destruct (shr_fexp B64.prec B64.emax _ e' loc_Exact) as [mrs'' e''].
  cbn [fst] in H2.
  destruct (shr_m mrs'') as [|p|p]; [reflexivity | | lia].
  destruct (e'' <=? B64.emax - B64.prec)%Z; reflexivity.
Qed.

Lemma binary_normalize_not_nan (m e : Z) (szero : bool) :
  not_nan (binary_normalize B64.prec B64.emax m e szero) = true.
Proof.
  unfold binary_normalize, binary_round.
  destruct m as [|p|p]; [reflexivity | |];
    destruct (shl_align _ _ _) as [mz ez];
    apply binary_round_aux_not_nan; lia.
Qed.

(** A finite result has finite operands. *)
Lemma finite_mul (x y : B64.t) : finite (x * y) = true -> finite x = true /\ finite y = true.
Proof.
  destruct x as [sx | sx | | sx mx ex], y as [sy | sy | | sy my ey];
    cbn; intros H; try discriminate H; auto.
Qed.

Lemma finite_add (x y : B64.t) : finite (x + y) = true -> finite x = true /\ finite y = true.
Proof.
  destruct x as [sx | sx | | sx mx ex], y as [sy | sy | | sy my ey];
    cbn; intros H; try discriminate H; auto;
    destruct sx, sy; discriminate H.
Qed.

Lemma finite_sub (x y : B64.t) : finite (x - y) = true -> finite x = true /\ finite y = true.
Proof.
  destruct x as [sx | sx | | sx mx ex], y as [sy | sy | | sy my ey];
    cbn; intros H; try discriminate H; auto;
    destruct sx, sy; discriminate H.
Qed.

(** Finite operands give no NaN. *)
Lemma mul_not_nan (x y : B64.t) :
  finite x = true -> finite y = true -> not_nan (x * y) = true.
Proof.
  destruct x as [sx | sx | | sx mx ex], y as [sy | sy | | sy my ey];
    intros Hx Hy; try discriminate Hx; try discriminate Hy; try reflexivity.
  apply binary_round_aux_not_nan. lia.
Qed.

Lemma add_not_nan (x y : B64.t) :
  finite x = true -> not_nan y = true -> not_nan (x + y) = true.
Proof.
  destruct x as [sx | sx | | sx mx ex], y as [sy | sy | | sy my ey];
    intros Hx Hy; try discriminate Hx; try discriminate Hy; try reflexivity.
  - destruct sx, sy; reflexivity.
  - apply binary_normalize_not_nan.
Qed.

(** What a computed discriminant of zero says of the inputs. *)
Lemma zero_disc_finite (p1 p2 c : Point B64.t) (r : B64.t) :
  (sci_disc p1 p2 c r =? of_Z 0) = true ->
  finite (fst p1) = true /\ finite (snd p1) = true /\
  finite (fst (vsub p2 p1)) = true /\ finite (snd (vsub p2 p1)) = true.
Proof.
  intros H. apply eqb_zero_is_zero in H. destruct H as [s Hs].
  assert (Hf : finite (sci_disc p1 p2 c r) = true) by (rewrite Hs; reflexivity).
  unfold sci_disc in Hf. apply finite_sub in Hf. destruct Hf as [Hbb _].
  apply finite_mul in Hbb. destruct Hbb as [Hb _].
  unfold sci_b in Hb. apply finite_mul in Hb. destruct Hb as [_ Hdot].
  unfold dot in Hdot. apply finite_add in Hdot. destruct Hdot as [Hx Hy].
  apply finite_mul in Hx, Hy. destruct Hx as [Hfx Hdx], Hy as [Hfy Hdy].
  unfold vsub in Hfx, Hfy. cbn [fst snd] in Hfx, Hfy.
  apply finite_sub in Hfx, Hfy.
  repeat split; tauto.
Qed.

Lemma point_at_not_nan (p1 p2 : Point B64.t) (t : B64.t) :
  finite (fst p1) = true -> finite (snd p1) = true ->
  finite (fst (vsub p2 p1)) = true -> finite (snd (vsub p2 p1)) = true ->
  finite t = true ->
  not_nan (fst (point_at p1 p2 t)) = true /\
  not_nan (snd (point_at p1 p2 t)) = true.
Proof.
  intros H1 H2 H3 H4 Ht. unfold point_at, vadd, scale. cbn [fst snd].
  split; apply add_not_nan; try assumption; apply mul_not_nan; assumption.
Qed.

Lemma eqb_refl_not_nan (x : B64.t) : not_nan x = true -> (x =? x) = true.
Proof.
  destruct x as [s | s | | s m e]; intros H; try discriminate H.
  - reflexivity.
  - destruct s; reflexivity.
  - cbn. unfold SFeqb, SFcompare.
    rewrite Z.compare_refl, Pos.compare_cont_refl.
    destruct s; reflexivity.
Qed.

Lemma same_eqb (x y : B64.t) :
  same_up_to_zero_sign x y -> not_nan x = true -> (x =? y) = true.
Proof.
  intros [<- | (s & s' & -> & ->)] Hx; [apply eqb_refl_not_nan, Hx | reflexivity].
Qed.

End FiniteB64.

Lemma tangent_in_exact_arithmetic (p1 p2 c : Point R) (r t : R) :
  p1 <> p2 ->
  discriminant p1 p2 c r = 0%R ->
  is_root p1 p2 c r t ->
  in_unit t ->
  segment_circle_intersection p1 p2 c r
  = Some [param_point p1 p2 t; param_point p1 p2 t].
Proof.
  intros Hne Hd Hr Hu. pose proof (quad_a_pos _ _ Hne) as Ha.
  rewrite sci_R_kept by lra.
  apply roots_when_disc_nonneg in Hr; [|exact Ha|lra].
  rewrite Hd, sqrt_0 in *.
  assert (Ht : t = ((- quad_b p1 p2 c - 0) / (2 * quad_a p1 p2))%R).
  { destruct Hr as [Hr | Hr]; rewrite Hr; unfold Rdiv; f_equal; lra. }
  replace ((- quad_b p1 p2 c + 0) / (2 * quad_a p1 p2))%R
    with ((- quad_b p1 p2 c - 0) / (2 * quad_a p1 p2))%R
    by (unfold Rdiv; f_equal; lra).
  rewrite <- Ht. unfold kept_points.
  rewrite (proj2 (in_unit_test t) Hu). reflexivity.
Qed.

(** C10. When the discriminant the code computes is exactly zero, the two
    computed roots are the same, and the result is never a one-element
    list: if the root passes the test [0 <= t <= 1] the result lists two
    points, the point at [t1] and the point at [t2], which are the same
    point; otherwise it is [None].  This holds in binary64, for all
    inputs, where the two roots and the coordinates of the two points are
    the same values or differ only in the sign of a zero, no coordinate
    is NaN, and the two tuples are equal under Python's [==]; and in
    exact arithmetic, for distinct ends, where the point is the point of
    tangency.  In binary64 the segment (-2,1)-(2,1)
    against ((0,0), 1) and, inside the unit square, (0,0.5)-(1,0.5)
    against ((0.5,0), 0.5) have a computed discriminant of zero and give
    their tangent point twice. *)
Theorem tangent_point_listed_twice :
  (forall (p1 p2 c : Point B64.t) (r : B64.t),
      eqb (sci_disc p1 p2 c r) (of_Z 0) = true ->
      let P1 := point_at p1 p2 (sci_t1 p1 p2 c r) in
      let P2 := point_at p1 p2 (sci_t2 p1 p2 c r) in
      same_up_to_zero_sign (sci_t1 p1 p2 c r) (sci_t2 p1 p2 c r) /\
      same_point_up_to_zero_sign P1 P2 /\
      (in_range (sci_t1 p1 p2 c r) = true ->
       segment_circle_intersection p1 p2 c r = Some [P1; P2] /\
       tuple_eq P1 P2 = true) /\
      (in_range (sci_t1 p1 p2 c r) = false ->
       segment_circle_intersection p1 p2 c r = None))
  /\
  (forall (p1 p2 c : Point R) (r t : R),
      p1 <> p2 ->
      discriminant p1 p2 c r = 0%R ->
      is_root p1 p2 c r t ->
      in_unit t ->
      segment_circle_intersection p1 p2 c r
      = Some [param_point p1 p2 t; param_point p1 p2 t])
  /\
  (eqb (sci_disc (f64 (-2), f64 1) (f64 2, f64 1) (f64 0, f64 0) (f64 1)) (of_Z 0)
   = true /\
   segment_circle_intersection (f64 (-2), f64 1) (f64 2, f64 1) (f64 0, f64 0) (f64 1)
   = Some [(f64 0, f64 1); (f64 0, f64 1)])
  /\
  (eqb (sci_disc (f64 0, lit 1 2) (f64 1, lit 1 2) (lit 1 2, f64 0)
                 (lit 1 2 : B64.t)) (of_Z 0) = true /\
   segment_circle_intersection (f64 0, lit 1 2) (f64 1, lit 1 2)
                               (lit 1 2, f64 0) (lit 1 2 : B64.t)
   = Some [(lit 1 2, lit 1 2); (lit 1 2, lit 1 2)]).
Proof.
  split; [|split; [|split]].
  - intros p1 p2 c r Hd P1 P2.
    pose proof (zero_disc_roots p1 p2 c r Hd) as Hsame.
    pose proof (zero_disc_result p1 p2 c r Hd) as Hres.
    split; [exact Hsame|].
    pose proof (same_point_at p1 p2 _ _ Hsame) as [Hx Hy].
    split; [split; assumption|].
    split; intros Hin; rewrite Hres, Hin; [|reflexivity].
    split; [reflexivity|].
    destruct (zero_disc_finite p1 p2 c r Hd) as (F1 & F2 & F3 & F4).
    destruct (point_at_not_nan p1 p2 (sci_t1 p1 p2 c r) F1 F2 F3 F4
                (in_range_is_finite _ Hin)) as [N1 N2].
    unfold tuple_eq, P1, P2.
    rewrite (same_eqb _ _ Hx N1), (same_eqb _ _ Hy N2). reflexivity.
  - exact tangent_in_exact_arithmetic.
  - split; vm_compute; reflexivity.
  - split; vm_compute; reflexivity.
Qed.

Lemma tangent_point_listed_twice_witness :
  eqb (sci_disc (f64 (-2), f64 1) (f64 2, f64 1) (f64 0, f64 0) (f64 1)) (of_Z 0)
  = true /\
  in_range (sci_t1 (f64 (-2), f64 1) (f64 2, f64 1) (f64 0, f64 0) (f64 1)) = true /\
  segment_circle_intersection (f64 (-2), f64 1) (f64 2, f64 1) (f64 0, f64 0) (f64 1)
  = Some [point_at (f64 (-2), f64 1) (f64 2, f64 1)
            (sci_t1 (f64 (-2), f64 1) (f64 2, f64 1) (f64 0, f64 0) (f64 1));
          point_at (f64 (-2), f64 1) (f64 2, f64 1)
            (sci_t2 (f64 (-2), f64 1) (f64 2, f64 1) (f64 0, f64 0) (f64 1))].
Proof.
  assert (Hd : eqb (sci_disc (f64 (-2), f64 1) (f64 2, f64 1) (f64 0, f64 0) (f64 1))
                   (of_Z 0) = true) by (vm_compute; reflexivity).
  assert (Hin : in_range (sci_t1 (f64 (-2), f64 1) (f64 2, f64 1) (f64 0, f64 0)
                                 (f64 1)) = true) by (vm_compute; reflexivity).
  split; [exact Hd | split; [exact Hin|]].
  exact (proj1 (proj1 (proj2 (proj2 (proj1 tangent_point_listed_twice
                                           (f64 (-2), f64 1) (f64 2, f64 1)
                                           (f64 0, f64 0) (f64 1) Hd)))
                      Hin)).
Defined.

(** ** [ring_positions_inside_cell] in exact arithmetic *)

Section RealRing.
Local Open Scope R_scope.

Lemma of_nat_R (i : nat) : of_nat i = INR i.
Proof. unfold of_nat. cbn. symmetry. apply INR_IZR_INZ. Qed.

Lemma ring_points_R (center : Point R) (rho theta0 : R) (k : nat) :
  ring_points center rho theta0 k
  = map (fun i => (fst center + rho * Rtrigo_def.cos (theta0 + INR i * (2 * PI / INR k)),
                   snd center + rho * Rtrigo_def.sin (theta0 + INR i * (2 * PI / INR k))))
        (seq 0 k).
Proof.
  unfold ring_points, linspace_open. rewrite !map_map.
  apply map_ext. intros i. rewrite !of_nat_R. cbn.
  replace (theta0 + (INR i * ((2 * PI - 0) / INR k) + 0))
    with (theta0 + INR i * (2 * PI / INR k)) by (unfold Rdiv; ring).
  reflexivity.
Qed.

Lemma py_max_R (x y : R) : py_max x y = Rmax x y.
Proof.
  unfold py_max. cbn. unfold Rltb, Rmax.
  destruct (Rlt_dec x y), (Rle_dec x y); try reflexivity; lra.
Qed.

Lemma py_min_R (x y : R) : py_min x y = Rmin x y.
Proof.
  unfold py_min. cbn. unfold Rltb, Rmin.
  destruct (Rlt_dec y x), (Rle_dec x y); try reflexivity; lra.
Qed.

Lemma ring_radius_R (cell_radius item_radius : R) :
  ring_radius cell_radius item_radius = ring_radius_spec cell_radius item_radius.
Proof.
  unfold ring_radius, ring_radius_spec, ring_radius_clamped.
  rewrite py_max_R, py_min_R.
  unfold outer_limit, inner_limit, LIVING_RADIUS, lit. cbn.
  replace (95 / 100 * (cell_radius - item_radius - 1 / 100))
    with ((cell_radius - item_radius - 1 / 100) * (95 / 100)) by ring.
  unfold Rleb.
  destruct (Rle_dec _ 0); [|reflexivity].
  unfold Rdiv. f_equal. lra.
Qed.

Lemma norm_diff_ring (center : Point R) (rho a : R) :
  norm_diff (fst center + rho * Rtrigo_def.cos a,
             snd center + rho * Rtrigo_def.sin a) center = Rabs rho.
Proof.
  unfold norm_diff, dot, vsub. cbn.
  replace ((fst center + rho * Rtrigo_def.cos a - fst center)
           * (fst center + rho * Rtrigo_def.cos a - fst center)
           + (snd center + rho * Rtrigo_def.sin a - snd center)
             * (snd center + rho * Rtrigo_def.sin a - snd center))
    with (Rsqr rho * (Rsqr (Rtrigo_def.sin a) + Rsqr (Rtrigo_def.cos a)))
    by (unfold Rsqr; ring).
  rewrite sin2_cos2, Rmult_1_r. apply sqrt_Rsqr_abs.
Qed.

Lemma ring_points_evenly_spaced (center : Point R) (rho theta0 : R) (k : nat) :
  (1 <= k)%nat ->
  evenly_spaced_ring center rho theta0 k (ring_points center rho theta0 k).
Proof.
  intros Hk. rewrite ring_points_R.
  set (P := fun i : nat =>
              (fst center + rho * Rtrigo_def.cos (theta0 + INR i * (2 * PI / INR k)),
               snd center + rho * Rtrigo_def.sin (theta0 + INR i * (2 * PI / INR k)))).
  assert (Hnth : forall i, (i < k)%nat -> nth i (map P (seq 0 k)) center = P i).
  { intros i Hi.
    rewrite nth_indep with (d' := P 0%nat) by (rewrite length_map, length_seq; exact Hi).
    change (P 0%nat) with (P 0%nat) at 1.
    rewrite (map_nth P (seq 0 k) 0%nat i), seq_nth by exact Hi. reflexivity. }
  assert (Hrot : forall a d, 
             rotate_about center d
               (fst center + rho * Rtrigo_def.cos a, snd center + rho * Rtrigo_def.sin a)
             = (fst center + rho * Rtrigo_def.cos (a + d),
                snd center + rho * Rtrigo_def.sin (a + d))).
  { intros a d. unfold rotate_about. cbn [fst snd].
    rewrite cos_plus, sin_plus. f_equal; ring. }
  assert (HkR : INR k <> 0) by (apply not_0_INR; lia).
  unfold evenly_spaced_ring. repeat split.
  - rewrite length_map, length_seq. reflexivity.
  - intros q Hq. apply in_map_iff in Hq. destruct Hq as [i [Hq _]]. subst q.
    apply norm_diff_ring.
  - intros i Hi. rewrite Hnth by exact Hi. reflexivity.
  - intros i Hi. rewrite !Hnth by lia. unfold P. rewrite Hrot.
    rewrite S_INR.
    replace (theta0 + INR i * (2 * PI / INR k) + 2 * PI / INR k)
      with (theta0 + (INR i + 1) * (2 * PI / INR k)) by ring.
    reflexivity.
  - rewrite !Hnth by lia. unfold P. rewrite Hrot.
    replace (theta0 + INR (k - 1) * (2 * PI / INR k) + 2 * PI / INR k)
      with (theta0 + 2 * PI).
    + rewrite (cos_plus theta0 (2 * PI)), (sin_plus theta0 (2 * PI)).
      rewrite cos_2PI, sin_2PI. cbn [INR].
      replace (theta0 + 0 * (2 * PI / INR k)) with theta0 by ring.
      f_equal; f_equal; ring.
    + rewrite minus_INR by lia. cbn [INR]. field. exact HkR.
Qed.

End RealRing.

(** C7. For a count [k >= 1], [ring_positions_inside_cell] returns exactly
    [k] points, all at the same distance from the centre (the absolute value
    of the ring radius), the [i]-th at the angle [start_angle + i * (2 pi / k)]:
    consecutive points, the last and the first included, are a turn of
    exactly [2 pi / k] apart, from the one start angle drawn for the call. *)
Theorem ring_positions_evenly_spaced :
  forall (center : Point R) (cell_radius item_radius : R) (k : nat) (w : World R),
    (1 <= k)%nat ->
    evenly_spaced_ring center
      (ring_radius cell_radius item_radius)
      (fst (uniform 0%R (2 * PI)%R w)) k
      (fst (ring_positions_inside_cell center cell_radius k item_radius w))
    /\ snd (ring_positions_inside_cell center cell_radius k item_radius w)
       = snd (uniform 0%R (2 * PI)%R w)
    /\ fst (uniform 0%R (2 * PI)%R w) = (2 * PI * rng w (rng_pos w))%R.
Proof.
  intros center cell_radius item_radius k w Hk.
  unfold ring_positions_inside_cell.
  change (of_Z 0) with 0%R. change (of_Z 2 * pi)%num with (2 * PI)%R.
  destruct (uniform 0%R (2 * PI)%R w) as [start_angle w'] eqn:Eu.
  cbn [fst snd]. split; [|split].
  - apply ring_points_evenly_spaced. exact Hk.
  - reflexivity.
  - unfold uniform in Eu. inversion Eu. cbn. ring.
Qed.

Lemma ring_positions_evenly_spaced_witness :
  let w := {| rng := fun _ => 0%R; rng_pos := 0; stdout := []; canvas := [] |} in
  length (fst (ring_positions_inside_cell
                 (1 / 2, 1 / 2)%R (22 / 100)%R 9 (5 / 100)%R w)) = 9%nat.
Proof.
  intros w.
  refine (proj1 (proj1 (ring_positions_evenly_spaced
                          (1 / 2, 1 / 2)%R (22 / 100)%R (5 / 100)%R 9 w _))).
  lia.
Defined.

(** C8. The ring radius is the larger of the inner bound and 95% of the
    outer bound, clamped to the outer bound, and half the cell radius when
    that value is not positive; it is the radius at which the points are
    placed.  With the default sizes it is 0.152; a cell of radius 0.05 with
    items of radius 0.1 falls back to 0.025. *)
Theorem ring_radius_clamped_with_fallback :
  forall (center : Point R) (cell_radius item_radius : R) (k : nat) (w : World R),
    ring_radius cell_radius item_radius
    = ring_radius_spec cell_radius item_radius
    /\ fst (ring_positions_inside_cell center cell_radius k item_radius w)
       = ring_points center (ring_radius_spec cell_radius item_radius)
                     (fst (uniform 0%R (2 * PI)%R w)) k
    /\ Forall (fun q => norm_diff q center
                        = Rabs (ring_radius_spec cell_radius item_radius))
              (fst (ring_positions_inside_cell center cell_radius k item_radius w))
    /\ ring_radius (22 / 100)%R (5 / 100)%R = (152 / 1000)%R
    /\ ring_radius_clamped (5 / 100)%R (10 / 100)%R = (- 6 / 100)%R
    /\ ring_radius (5 / 100)%R (10 / 100)%R = (25 / 1000)%R.
Proof.
  intros center cell_radius item_radius k w.
  assert (Hpts : fst (ring_positions_inside_cell center cell_radius k item_radius w)
                 = ring_points center (ring_radius_spec cell_radius item_radius)
                               (fst (uniform 0%R (2 * PI)%R w)) k).
  { unfold ring_positions_inside_cell.
    change (of_Z 0) with 0%R. change (of_Z 2 * pi)%num with (2 * PI)%R.
    destruct (uniform 0%R (2 * PI)%R w) as [start_angle w'].
    cbn [fst]. rewrite ring_radius_R. reflexivity. }
  assert (Hc : ring_radius_clamped (5 / 100)%R (10 / 100)%R = (- 6 / 100)%R).
  { unfold ring_radius_clamped. cbv zeta.
    rewrite Rmin_right.
    - lra.
    - apply Rle_trans with (10 / 100 + 10 / 100 + 2 / 1000)%R; [lra | apply Rmax_l]. }
  split; [apply ring_radius_R | split; [exact Hpts | split; [|split; [|split]]]].
  - rewrite Hpts, ring_points_R. apply Forall_forall.
    intros q Hq. apply in_map_iff in Hq. destruct Hq as [i [Hq _]]. subst q.
    apply norm_diff_ring.
  - rewrite ring_radius_R. unfold ring_radius_spec, ring_radius_clamped. cbv zeta.
    rewrite Rmax_left by lra. rewrite Rmin_left by lra.
    destruct (Rle_dec _ 0); lra.
  - exact Hc.
  - rewrite ring_radius_R. unfold ring_radius_spec. cbv zeta. rewrite Hc.
    destruct (Rle_dec _ 0); lra.
Qed.

(** ** [segment_circle_intersection] on a zero-length segment, in binary64 *)

Section ZeroLength.
Local Open Scope num_scope.

Local Abbreviation zn := B64.zero_or_nan.

Lemma sub_self_zn (x : B64.t) : zn (x - x) = true.
Proof.
  destruct x as [s | s | | s m e]; cbn.
  - destruct s; reflexivity.
  - destruct s; reflexivity.
  - reflexivity.
  - unfold SFsub. cbv zeta. rewrite Z.sub_diag. reflexivity.
Qed.

Lemma mul_zn_r (x y : B64.t) : zn y = true -> zn (x * y) = true.
Proof.
  destruct y as [sy | sy | | sy my ey]; try discriminate; intros _;
    destruct x as [sx | sx | | sx mx ex]; reflexivity.
Qed.

Lemma mul_zn_l (x y : B64.t) : zn x = true -> zn (x * y) = true.
Proof.
  destruct x as [sx | sx | | sx mx ex]; try discriminate; intros _;
    destruct y as [sy | sy | | sy my ey]; reflexivity.
Qed.

Lemma add_zn (x y : B64.t) : zn x = true -> zn y = true -> zn (x + y) = true.
Proof.
  destruct x as [sx | sx | | sx mx ex]; try discriminate; intros _;
    destruct y as [sy | sy | | sy my ey]; try discriminate; intros _;
    try reflexivity.
  destruct sx, sy; reflexivity.
Qed.

Lemma sub_zn (x y : B64.t) : zn x = true -> zn y = true -> zn (x - y) = true.
Proof.
  destruct x as [sx | sx | | sx mx ex]; try discriminate; intros _;
    destruct y as [sy | sy | | sy my ey]; try discriminate; intros _;
    try reflexivity.
  destruct sx, sy; reflexivity.
Qed.

Lemma neg_zn (x : B64.t) : zn x = true -> zn (- x) = true.
Proof. destruct x; try discriminate; reflexivity. Qed.

Lemma sqrt_zn (x : B64.t) : zn x = true -> zn (sqrt x) = true.
Proof. destruct x; try discriminate; reflexivity. Qed.

Lemma div_zn (x y : B64.t) : zn x = true -> zn y = true -> x / y = B64.nan.
Proof.
  destruct x as [sx | sx | | sx mx ex]; try discriminate; intros _;
    destruct y as [sy | sy | | sy my ey]; try discriminate; intros _;
    reflexivity.
Qed.

Lemma ltb_zn_zero (x : B64.t) : zn x = true -> (x <? of_Z 0) = false.
Proof. destruct x; try discriminate; reflexivity. Qed.

Lemma zero_length_none (p c : Point B64.t) (r : B64.t) :
  segment_circle_intersection p p c r = None.
Proof.
  unfold segment_circle_intersection. cbv zeta.
  set (d := vsub p p). set (f := vsub p c).
  assert (Hd0 : zn (fst d) = true) by apply sub_self_zn.
  assert (Hd1 : zn (snd d) = true) by apply sub_self_zn.
  assert (Ha : zn (dot d d) = true).
  { unfold dot. apply add_zn; apply mul_zn_l; assumption. }
  assert (Hb : zn (of_Z 2 * dot f d) = true).
  { apply mul_zn_r. unfold dot. apply add_zn; apply mul_zn_r; assumption. }
  set (a := dot d d) in *. set (b := of_Z 2 * dot f d) in *.
  set (c_val := dot f f - r * r).
  assert (Hdisc : zn (b * b - of_Z 4 * a * c_val) = true).
  { apply sub_zn; [apply mul_zn_l; exact Hb |].
    apply mul_zn_l, mul_zn_r. exact Ha. }
  set (disc := b * b - of_Z 4 * a * c_val) in *.
  rewrite (ltb_zn_zero _ Hdisc).
  assert (H2a : zn (of_Z 2 * a) = true) by (apply mul_zn_r; exact Ha).
  assert (Hm : zn (- b - sqrt disc) = true)
    by (apply sub_zn; [apply neg_zn | apply sqrt_zn]; assumption).
  assert (Hp : zn (- b + sqrt disc) = true)
    by (apply add_zn; [apply neg_zn | apply sqrt_zn]; assumption).
  rewrite (div_zn _ _ Hm H2a), (div_zn _ _ Hp H2a).
  reflexivity.
Qed.

End ZeroLength.

(** C4. The call on a segment of length zero ([p1 = p2], so [a = 0]), in
    binary64, for every point, centre and radius.  When [radius**2] is
    out of range the call raises [OverflowError], as it does for a segment
    of any length.  Otherwise both roots are the quotient of a zero by a
    zero, NaN; NaN fails both range tests, no point is kept and the call
    returns [None], the value for no intersection, also for a centre or a
    radius that is infinite or NaN; [draw_smart_line] then keeps such a
    piece unchanged.  The power returns for a radius up to 2^511, and so
    for the three radii of the scripts, and raises from 2^512 on. *)
Theorem zero_length_segment_none_unless_overflow :
  (forall (p center : Point B64.t) (radius : B64.t),
      segment_circle_intersection_call p p center radius
      = (if square_raises radius then Raises OverflowError else Returns None)
      /\
      (square_raises radius = false ->
       forall outside : bool,
         cut_segment center radius (p, p, outside) = [(p, p, outside)]))
  /\
  square_raises LIVING_RADIUS = false /\
  square_raises FUNCTION_RADIUS = false /\
  square_raises CELL_RADIUS = false /\
  square_raises (f64 (2 ^ 511)) = false /\
  square_raises (f64 (2 ^ 512)) = true.
Proof.
  split; [|repeat split; vm_compute; reflexivity].
  intros p center radius.
  pose proof (zero_length_none p center radius) as H.
  split.
  - unfold segment_circle_intersection_call, float_square.
    destruct (square_raises radius); [reflexivity|]. rewrite H. reflexivity.
  - intros _ outside. unfold cut_segment. rewrite H. reflexivity.
Qed.

(** At the radius 1e200 the call on a segment of length zero raises. *)
Lemma zero_length_segment_raises_at_huge_radius :
  segment_circle_intersection_call (f64 0, f64 0) (f64 0, f64 0) (f64 0, f64 0)
                                   (f64 (10 ^ 200))
  = Raises OverflowError.
Proof. vm_compute. reflexivity. Qed.

(** ** The loop of [random_cell_positions] *)

Section PlaceFacts.
Context {A : Type} `{NumA : Num A}.
Variable max_attempts : Z.
Variable relax_factor : A.

Local Abbreviation run := (place_run max_attempts relax_factor).
Local Abbreviation step := (place_step max_attempts relax_factor).

Lemma place_run_S (k : nat) (sw : PlaceState A * World A) :
  run (S k) sw = place_iter max_attempts relax_factor (run k sw).
Proof. reflexivity. Qed.

Lemma place_run_shift (k : nat) (sw : PlaceState A * World A) :
  run (S k) sw = run k (place_iter max_attempts relax_factor sw).
Proof. unfold place_run. apply Nat.iter_succ_r. Qed.

(** The three outcomes of one step. *)
Lemma place_step_accept (p : Point A) (st : PlaceState A) (w : World A) :
  far_enough p st = true ->
  step p (st, w)
  = ({| centres := centres st ++ [p]; attempts := 0; min_dist := min_dist st |}, w).
Proof. intros H. unfold place_step. rewrite H. reflexivity. Qed.

Lemma place_step_relax (p : Point A) (st : PlaceState A) (w : World A) :
  far_enough p st = false ->
  (max_attempts <= attempts st + 1)%Z ->
  step p (st, w)
  = ({| centres := centres st; attempts := 0;
        min_dist := (min_dist st * relax_factor)%num |},
     stdout_write (Relaxing (min_dist st * relax_factor)%num) w).
Proof.
  intros H Hm. unfold place_step. rewrite H.
  rewrite (proj2 (Z.leb_le _ _) Hm). reflexivity.
Qed.

Lemma place_step_reject (p : Point A) (st : PlaceState A) (w : World A) :
  far_enough p st = false ->
  (attempts st + 1 < max_attempts)%Z ->
  step p (st, w)
  = ({| centres := centres st; attempts := attempts st + 1;
        min_dist := min_dist st |}, w).
Proof.
  intros H Hm. unfold place_step. rewrite H.
  rewrite (proj2 (Z.leb_gt _ _) Hm). reflexivity.
Qed.

Lemma place_iter_step (sw : PlaceState A * World A) :
  place_iter max_attempts relax_factor sw
  = step (iter_candidate sw) (fst sw, snd (draw_candidate (snd sw))).
Proof.
  unfold place_iter, iter_candidate.
  destruct (draw_candidate (snd sw)) as [p w']. reflexivity.
Qed.

(** A step never touches the random stream; an iteration takes two draws. *)
Lemma place_step_rng (p : Point A) (sw : PlaceState A * World A) :
  rng (snd (step p sw)) = rng (snd sw) /\
  rng_pos (snd (step p sw)) = rng_pos (snd sw).
Proof.
  destruct sw as [st w]. unfold place_step.
  destruct (far_enough p st); [split; reflexivity|].
  destruct (max_attempts <=? attempts st + 1)%Z; split; reflexivity.
Qed.

Lemma place_run_rng (k : nat) (sw : PlaceState A * World A) :
  rng (snd (run k sw)) = rng (snd sw) /\
  rng_pos (snd (run k sw)) = (rng_pos (snd sw) + 2 * k)%nat.
Proof.
  induction k as [|k [IHr IHp]].
  - simpl. split; [reflexivity | lia].
  - rewrite place_run_S, place_iter_step.
    destruct (place_step_rng (iter_candidate (run k sw))
                (fst (run k sw), snd (draw_candidate (snd (run k sw))))) as [Hr Hp].
    rewrite Hr, Hp. cbn [snd]. unfold draw_candidate, uniform. cbn [snd rng rng_pos].
    rewrite IHr, IHp. split; [reflexivity | lia].
Qed.

Lemma iter_candidate_run (k : nat) (sw : PlaceState A * World A) :
  iter_candidate (run k sw) = candidate_at (snd sw) k.
Proof.
  destruct (place_run_rng k sw) as [Hr Hp].
  unfold iter_candidate, candidate_at, draw_candidate, uniform.
  cbn [fst snd rng rng_pos]. rewrite Hr, Hp.
  replace (S (rng_pos (snd sw) + 2 * k)) with (rng_pos (snd sw) + 2 * k + 1)%nat by lia.
  reflexivity.
Qed.

(** The state after one more iteration, by cases on the test of line 74. *)
Lemma place_run_next (k : nat) (sw : PlaceState A * World A) :
  let st := fst (run k sw) in
  let p := candidate_at (snd sw) k in
  (accepted_at max_attempts relax_factor sw k = true /\
   fst (run (S k) sw)
   = {| centres := centres st ++ [p]; attempts := 0; min_dist := min_dist st |})
  \/
  (accepted_at max_attempts relax_factor sw k = false /\
   (max_attempts <= attempts st + 1)%Z /\
   fst (run (S k) sw)
   = {| centres := centres st; attempts := 0;
        min_dist := (min_dist st * relax_factor)%num |} /\
   stdout (snd (run (S k) sw))
   = stdout (snd (run k sw)) ++ [Relaxing (min_dist st * relax_factor)%num])
  \/
  (accepted_at max_attempts relax_factor sw k = false /\
   (attempts st + 1 < max_attempts)%Z /\
   fst (run (S k) sw)
   = {| centres := centres st; attempts := attempts st + 1;
        min_dist := min_dist st |} /\
   stdout (snd (run (S k) sw)) = stdout (snd (run k sw))).
Proof.
  intros st p. unfold accepted_at.
  rewrite place_run_S, place_iter_step.
  rewrite (iter_candidate_run k sw). fold p. fold st.
  destruct (far_enough p st) eqn:Ef.
  - left. rewrite place_step_accept by exact Ef. auto.
  - right. destruct (Z_le_gt_dec max_attempts (attempts st + 1)) as [Hm | Hm].
    + left. rewrite place_step_relax by assumption.
      cbn [fst snd]. repeat split; try reflexivity; lia.
    + right. rewrite place_step_reject by (assumption || lia).
      cbn [fst snd]. repeat split; try reflexivity; lia.
Qed.


(** The centres after [k] iterations: the accepted candidates, in the
    order of their acceptance, after the centres the run started with. *)
Lemma centres_run (k : nat) (sw : PlaceState A * World A) :
  centres (fst (run k sw))
  = centres (fst sw)
    ++ map (candidate_at (snd sw))
           (filter (accepted_at max_attempts relax_factor sw) (seq 0 k)).
Proof.
  induction k as [|k IH].
  - simpl. rewrite app_nil_r. reflexivity.
  - rewrite seq_S, filter_app, map_app, app_assoc, <- IH.
    change (0 + k)%nat with k. cbn [filter].
    destruct (place_run_next k sw) as [[Ha Hs] | [(Ha & _ & Hs & _) | (Ha & _ & Hs & _)]];
      rewrite Hs, Ha; cbn [centres map]; [reflexivity | |];
      rewrite app_nil_r; reflexivity.
Qed.

(** Accepted centres are never removed: the list only grows at its end. *)
Lemma centres_prefix (i j : nat) (sw : PlaceState A * World A) :
  (i <= j)%nat ->
  exists l, centres (fst (run j sw)) = centres (fst (run i sw)) ++ l.
Proof.
  intros Hij. rewrite (centres_run j), (centres_run i).
  assert (Hs : seq 0 j = seq 0 i ++ seq i (j - i)).
  { rewrite <- seq_app. f_equal. lia. }
  rewrite Hs, filter_app, map_app, app_assoc.
  eexists. reflexivity.
Qed.

Lemma centres_length_mono (i j : nat) (sw : PlaceState A * World A) :
  (i <= j)%nat ->
  (length (centres (fst (run i sw))) <= length (centres (fst (run j sw))))%nat.
Proof.
  intros Hij. destruct (centres_prefix i j sw Hij) as [l Hl].
  rewrite Hl, length_app. lia.
Qed.

Lemma centres_length_S (k : nat) (sw : PlaceState A * World A) :
  (length (centres (fst (run (S k) sw))) <= S (length (centres (fst (run k sw)))))%nat.
Proof.
  destruct (place_run_next k sw) as [[_ Hs] | [(_ & _ & Hs & _) | (_ & _ & Hs & _)]];
    rewrite Hs; cbn [centres]; [rewrite length_app; simpl |  | ]; lia.
Qed.

(** The loop on fuel against the run: it returns at the first iteration
    count at which the loop condition fails. *)
Lemma place_loop_run (n : Z) (fuel : nat) :
  forall (sw : PlaceState A * World A) res,
    place_loop fuel n max_attempts relax_factor sw = Some res ->
    exists K, (K <= fuel)%nat /\
              (forall i, (i < K)%nat -> placing n (fst (run i sw)) = true) /\
              placing n (fst (run K sw)) = false /\
              res = (centres (fst (run K sw)), snd (run K sw)).
Proof.
  induction fuel as [|fuel IH]; intros sw res H; simpl in H.
  - destruct (placing n (fst sw)) eqn:Ep; [discriminate|].
    inversion H; subst res. exists 0%nat. repeat split; auto. intros i Hi. lia.
  - destruct (placing n (fst sw)) eqn:Ep.
    + apply IH in H. destruct H as (K & HK & Hlt & HKf & Hres).
      exists (S K). rewrite !place_run_shift. repeat split; auto; [lia|].
      intros [|i] Hi; [exact Ep|]. rewrite place_run_shift. apply Hlt. lia.
    + inversion H; subst res. exists 0%nat. repeat split; auto; [lia|].
      intros i Hi. lia.
Qed.

Lemma place_loop_terminates (n : Z) (K : nat) :
  forall (sw : PlaceState A * World A),
    placing n (fst (run K sw)) = false ->
    exists res, place_loop K n max_attempts relax_factor sw = Some res.
Proof.
  induction K as [|K IH]; intros sw H; simpl.
  - simpl in H. rewrite H. eexists. reflexivity.
  - destruct (placing n (fst sw)) eqn:Ep; [|eexists; reflexivity].
    apply IH. rewrite <- place_run_shift. exact H.
Qed.

(** What the loop returns: as many centres as asked for. *)
Lemma place_loop_length (n : Z) (fuel : nat) (sw : PlaceState A * World A) res :
  (Z.of_nat (length (centres (fst sw))) <= n)%Z ->
  place_loop fuel n max_attempts relax_factor sw = Some res ->
  Z.of_nat (length (fst res)) = n.
Proof.
  intros Hle H. apply place_loop_run in H.
  destruct H as (K & _ & Hlt & HK & Hres). subst res. cbn [fst].
  unfold placing in *. apply Z.ltb_ge in HK.
  destruct K as [|K].
  - simpl in *. lia.
  - specialize (Hlt K (Nat.lt_succ_diag_r K)). apply Z.ltb_lt in Hlt.
    pose proof (centres_length_S K sw). lia.
Qed.


(** From the initial state, [attempts] is the number of iterations since
    the counter was last zero, all of them rejections with no relaxation
    among them, and it stays below the threshold. *)
Lemma attempts_counts_rejections (md : A) (w : World A) (k : nat) :
  (1 <= max_attempts)%Z ->
  let sw0 := (initial_state md, w) in
  exists j,
    (j <= k)%nat /\
    attempts (fst (run k sw0)) = Z.of_nat (k - j) /\
    (Z.of_nat (k - j) < max_attempts)%Z /\
    attempts (fst (run j sw0)) = 0%Z /\
    forall i, (j <= i < k)%nat ->
      accepted_at max_attempts relax_factor sw0 i = false /\
      min_dist (fst (run i sw0)) = min_dist (fst (run k sw0)) /\
      centres (fst (run i sw0)) = centres (fst (run k sw0)).
Proof.
  intros HM sw0. induction k as [|k IH].
  - exists 0%nat. simpl. repeat split; lia.
  - destruct IH as (j & Hj & Ha & Hlt & Hz & Hrej).
    destruct (place_run_next k sw0)
      as [[Hacc Hs] | [(Hacc & Hm & Hs & _) | (Hacc & Hm & Hs & _)]].
    + exists (S k). rewrite Hs. cbn [attempts].
      replace (S k - S k)%nat with 0%nat by lia.
      repeat split; lia.
    + exists (S k). rewrite Hs. cbn [attempts].
      replace (S k - S k)%nat with 0%nat by lia.
      repeat split; lia.
    + exists j. rewrite Hs. cbn [attempts min_dist centres].
      split; [lia | split; [lia | split; [lia | split; [exact Hz|]]]].
      intros i Hi.
      destruct (Nat.eq_dec i k) as [-> | Hne]; [repeat split; exact Hacc|].
      apply Hrej. lia.
Qed.

End PlaceFacts.

(** *** The run of a call, iteration by iteration *)

Section CallFacts.
Context {A : Type} `{NumA : Num A}.
Variable max_attempts : Z.
Variable relax_factor : A.
Hypothesis threshold_positive : (1 <= max_attempts)%Z.

Local Abbreviation run := (place_run max_attempts relax_factor).

Lemma accept_keeps_stdout (k : nat) (sw : PlaceState A * World A) :
  accepted_at max_attempts relax_factor sw k = true ->
  stdout (snd (run (S k) sw)) = stdout (snd (run k sw)).
Proof.
  unfold accepted_at. intros Ha.
  rewrite place_run_S, place_iter_step, place_step_accept by exact Ha.
  reflexivity.
Qed.

Lemma accepted_at_candidate (k : nat) (sw : PlaceState A * World A) :
  accepted_at max_attempts relax_factor sw k
  = far_enough (candidate_at (snd sw) k) (fst (run k sw)).
Proof. unfold accepted_at. rewrite iter_candidate_run. reflexivity. Qed.

(** While the centres stand still the loop goes on. *)
Lemma loop_goes_on (n : Z) (K i : nat) (sw : PlaceState A * World A) :
  (forall j, (j < K)%nat -> placing n (fst (run j sw)) = true) ->
  placing n (fst (run K sw)) = false ->
  (i < K)%nat ->
  centres (fst (run (S i) sw)) = centres (fst (run i sw)) ->
  (S i < K)%nat.
Proof.
  intros Hlt HK Hi Hc.
  destruct (Nat.eq_dec (S i) K) as [E | E]; [|lia].
  exfalso. specialize (Hlt i Hi). subst K.
  unfold placing in *. rewrite Hc in HK. congruence.
Qed.

(** Every iteration of a call that returns: the counter is the number of
    rejections in a row behind it, below the threshold, and the iteration
    accepts its candidate, or rejects it and relaxes, or only rejects
    it. *)
Lemma call_iterations (fuel : nat) (n : Z) (md : A) (w w' : World A)
    (cs : list (Point A)) :
  random_cell_positions fuel n md max_attempts relax_factor w = Some (cs, w') ->
  exists K : nat,
    (K <= fuel)%nat /\
    cs = centres (fst (run K (initial_state md, w))) /\
    w' = snd (run K (initial_state md, w)) /\
    forall i, (i < K)%nat ->
      let sw := run i (initial_state md, w) in
      let sw' := run (S i) (initial_state md, w) in
      let p := candidate_at w i in
      (0 <= attempts (fst sw) < max_attempts)%Z /\
      (exists j, (j <= i)%nat /\
                 attempts (fst sw) = Z.of_nat (i - j) /\
                 attempts (fst (run j (initial_state md, w))) = 0%Z /\
                 forall i', (j <= i' < i)%nat ->
                   far_enough (candidate_at w i')
                              (fst (run i' (initial_state md, w))) = false /\
                   min_dist (fst (run i' (initial_state md, w)))
                   = min_dist (fst sw)) /\
      ((far_enough p (fst sw) = true /\
        fst sw' = {| centres := centres (fst sw) ++ [p]; attempts := 0;
                     min_dist := min_dist (fst sw) |} /\
        stdout (snd sw') = stdout (snd sw))
       \/
       (far_enough p (fst sw) = false /\
        (attempts (fst sw) + 1 = max_attempts)%Z /\
        fst sw' = {| centres := centres (fst sw); attempts := 0;
                     min_dist := mul (min_dist (fst sw)) relax_factor |} /\
        stdout (snd sw')
        = stdout (snd sw) ++ [Relaxing (mul (min_dist (fst sw)) relax_factor)] /\
        (S i < K)%nat)
       \/
       (far_enough p (fst sw) = false /\
        (attempts (fst sw) + 1 < max_attempts)%Z /\
        fst sw' = {| centres := centres (fst sw);
                     attempts := attempts (fst sw) + 1;
                     min_dist := min_dist (fst sw) |} /\
        stdout (snd sw') = stdout (snd sw) /\
        (S i < K)%nat)).
Proof.
  intros Hret. unfold random_cell_positions in Hret.
  change ({| centres := []; attempts := 0; min_dist := md |})
    with (initial_state md) in Hret.
  apply place_loop_run in Hret.
  destruct Hret as (K & HK & Hlt & HKf & Hres). inversion Hres; subst cs w'.
  exists K. split; [exact HK | split; [reflexivity | split; [reflexivity|]]].
  intros i Hi sw sw' p.
  destruct (attempts_counts_rejections max_attempts relax_factor md w i
              threshold_positive) as (j & Hj & Ha & Hbound & Hz & Hrej).
  fold sw in Ha, Hrej.
  split; [rewrite Ha; lia|].
  split.
  { exists j. split; [exact Hj | split; [exact Ha | split; [exact Hz|]]].
    intros i' Hi'. destruct (Hrej i' Hi') as (Hacc & Hmd & _).
    rewrite accepted_at_candidate in Hacc. cbn [snd] in Hacc.
    split; [exact Hacc | exact Hmd]. }
  pose proof (place_run_next max_attempts relax_factor i (initial_state md, w)) as Hnext.
  cbv zeta in Hnext. rewrite accepted_at_candidate in Hnext. cbn [snd] in Hnext.
  fold sw sw' p in Hnext.
  destruct Hnext as [[Hacc Hs] | [(Hacc & Hm & Hs & Ho) | (Hacc & Hm & Hs & Ho)]].
  - left. split; [exact Hacc | split; [exact Hs|]].
    apply accept_keeps_stdout. rewrite accepted_at_candidate. exact Hacc.
  - right. left. split; [exact Hacc|].
    split; [rewrite Ha in *; lia|].
    split; [exact Hs | split; [exact Ho|]].
    apply (loop_goes_on n K i _ Hlt HKf Hi). fold sw sw'. rewrite Hs. reflexivity.
  - right. right. split; [exact Hacc | split; [exact Hm|]].
    split; [exact Hs | split; [exact Ho|]].
    apply (loop_goes_on n K i _ Hlt HKf Hi). fold sw sw'. rewrite Hs. reflexivity.
Qed.

(** A stretch of rejections below the threshold: the counter counts them,
    nothing else changes and nothing is written. *)
Lemma steady_rejections (sw0 : PlaceState A * World A) (k0 m : nat)
    (cs : list (Point A)) (d : A) :
  fst (run k0 sw0) = {| centres := cs; attempts := 0; min_dist := d |} ->
  (forall i, (k0 <= i < k0 + m)%nat ->
     far_enough (candidate_at (snd sw0) i)
                {| centres := cs; attempts := 0; min_dist := d |} = false) ->
  (Z.of_nat m < max_attempts)%Z ->
  fst (run (k0 + m) sw0)
  = {| centres := cs; attempts := Z.of_nat m; min_dist := d |} /\
  stdout (snd (run (k0 + m) sw0)) = stdout (snd (run k0 sw0)).
Proof.
  intros H0 Hrej. induction m as [|m IH]; intros Hm.
  - rewrite Nat.add_0_r. split; [exact H0 | reflexivity].
  - destruct IH as [Hst Hout]; [intros i Hi; apply Hrej; lia | lia |].
    replace (k0 + S m)%nat with (S (k0 + m)) by lia.
    pose proof (place_run_next max_attempts relax_factor (k0 + m) sw0) as Hnext.
    cbv zeta in Hnext. rewrite accepted_at_candidate, Hst in Hnext.
    cbn [centres attempts min_dist] in Hnext.
    assert (Hf : far_enough (candidate_at (snd sw0) (k0 + m))
                   {| centres := cs; attempts := Z.of_nat m; min_dist := d |}
                 = false).
    { rewrite <- (Hrej (k0 + m)%nat) by lia. reflexivity. }
    rewrite Hf in Hnext.
    destruct Hnext as [[Hacc _] | [(_ & Hge & _) | (_ & _ & Hs & Ho)]];
      [discriminate Hacc | lia |].
    rewrite Hs, Ho, Hout. split; [|reflexivity].
    f_equal. lia.
Qed.

End CallFacts.

(** *** A call that relaxes once, in binary64 *)

Section RelaxingCall.

Local Abbreviation w_alt :=
  ({| rng := fun i => if Nat.even (Nat.div2 i) then f64 0 else lit 55 100;
      rng_pos := 0; stdout := []; canvas := [] |} : World B64.t).
Local Abbreviation sw_alt := (initial_state (lit 55 100 : B64.t), w_alt).
Local Abbreviation run_alt i :=
  (place_run max_attempts_default relax_factor_default i sw_alt).

Lemma alternating_candidates (i : nat) :
  candidate_at w_alt i
  = if Nat.even i then candidate_at w_alt 0 else candidate_at w_alt 1.
Proof.
  unfold candidate_at. cbn [rng rng_pos].
  replace (0 + 2 * i)%nat with (2 * i)%nat by lia.
  replace (2 * i + 1)%nat with (S (2 * i)) by lia.
  rewrite Nat.div2_double, Nat.div2_succ_double.
  destruct (Nat.even i); reflexivity.
Qed.

Lemma relaxing_run_start :
  fst (run_alt 1%nat)
  = {| centres := [candidate_at w_alt 0]; attempts := 0; min_dist := lit 55 100 |}
  /\ stdout (snd (run_alt 1%nat)) = [].
Proof. split; vm_compute; reflexivity. Qed.

Lemma relaxing_run_rejects (i : nat) :
  far_enough (candidate_at w_alt i)
             {| centres := [candidate_at w_alt 0]; attempts := 0;
                min_dist := lit 55 100 |} = false.
Proof.
  rewrite alternating_candidates.
  destruct (Nat.even i); vm_compute; reflexivity.
Qed.

Lemma relaxing_run_before :
  fst (run_alt (Z.to_nat 6000))
  = {| centres := [candidate_at w_alt 0]; attempts := 5999;
       min_dist := lit 55 100 |}
  /\ stdout (snd (run_alt (Z.to_nat 6000))) = [].
Proof.
  destruct relaxing_run_start as [H1 Ho1].
  destruct (steady_rejections max_attempts_default relax_factor_default sw_alt
              1 (Z.to_nat 5999) [candidate_at w_alt 0] (lit 55 100) H1)
    as [Hst Hout].
  - intros i _. apply relaxing_run_rejects.
  - unfold max_attempts_default. lia.
  - replace (Z.to_nat 6000) with (1 + Z.to_nat 5999)%nat by lia.
    rewrite Hst, Hout, Ho1. split; [|reflexivity]. f_equal; lia.
Qed.

Lemma relaxing_run_relaxes :
  fst (run_alt (S (Z.to_nat 6000)))
  = {| centres := [candidate_at w_alt 0]; attempts := 0;
       min_dist := mul (lit 55 100) (lit 9 10) |}
  /\ stdout (snd (run_alt (S (Z.to_nat 6000))))
     = [Relaxing (mul (lit 55 100) (lit 9 10))].
Proof.
  destruct relaxing_run_before as [Hst Hout].
  pose proof (place_run_next max_attempts_default relax_factor_default
                (Z.to_nat 6000) sw_alt) as Hnext.
  cbv zeta in Hnext. rewrite accepted_at_candidate, Hst, Hout in Hnext.
  cbn [centres attempts min_dist snd] in Hnext.
  assert (Hf : far_enough (candidate_at w_alt (Z.to_nat 6000))
                 {| centres := [candidate_at w_alt 0]; attempts := 5999;
                    min_dist := lit 55 100 |} = false).
  { rewrite <- (relaxing_run_rejects (Z.to_nat 6000)). reflexivity. }
  rewrite Hf in Hnext.
  destruct Hnext as [[Hacc _] | [(_ & _ & Hs & Ho) | (_ & Hlt & _)]];
    [discriminate Hacc | | unfold max_attempts_default in Hlt; lia].
  split; [exact Hs | exact Ho].
Qed.

Lemma relaxing_run_accepts :
  fst (run_alt (S (S (Z.to_nat 6000))))
  = {| centres := [candidate_at w_alt 0; candidate_at w_alt 1]; attempts := 0;
       min_dist := mul (lit 55 100) (lit 9 10) |}
  /\ stdout (snd (run_alt (S (S (Z.to_nat 6000)))))
     = [Relaxing (mul (lit 55 100) (lit 9 10))].
Proof.
  destruct relaxing_run_relaxes as [Hst Hout].
  pose proof (place_run_next max_attempts_default relax_factor_default
                (S (Z.to_nat 6000)) sw_alt) as Hnext.
  cbv zeta in Hnext. rewrite accepted_at_candidate, Hst in Hnext.
  cbn [centres attempts min_dist snd] in Hnext.
  assert (Hc : candidate_at w_alt (S (Z.to_nat 6000)) = candidate_at w_alt 1).
  { rewrite alternating_candidates.
    replace (S (Z.to_nat 6000)) with (S (2 * Z.to_nat 3000)) by lia.
    rewrite Nat.even_succ, Nat.odd_mul. reflexivity. }
  rewrite Hc in Hnext.
  assert (Hf : far_enough (candidate_at w_alt 1)
                 {| centres := [candidate_at w_alt 0]; attempts := 0;
                    min_dist := mul (lit 55 100) (lit 9 10) |} = true)
    by (vm_compute; reflexivity).
  rewrite Hf in Hnext.
  destruct Hnext as [[_ Hs] | [(Hacc & _) | (Hacc & _)]];
    [| discriminate Hacc | discriminate Hacc].
  split; [exact Hs|].
  rewrite <- Hout. apply accept_keeps_stdout.
  rewrite accepted_at_candidate, Hst. cbn [snd]. rewrite Hc. exact Hf.
Qed.

Lemma relaxing_call_returns :
  random_cell_positions (Z.to_nat 6002) 2 (lit 55 100)
    max_attempts_default relax_factor_default w_alt
  = Some ([candidate_at w_alt 0; candidate_at w_alt 1],
          snd (run_alt (S (S (Z.to_nat 6000))))).
Proof.
  destruct relaxing_run_accepts as [Hst _].
  destruct relaxing_run_relaxes as [Hst1 _].
  unfold random_cell_positions.
  change ({| centres := []; attempts := 0; min_dist := lit 55 100 |})
    with (initial_state (lit 55 100 : B64.t)).
  replace (Z.to_nat 6002) with (S (S (Z.to_nat 6000))) by lia.
  destruct (place_loop_terminates max_attempts_default relax_factor_default
              2 (S (S (Z.to_nat 6000))) sw_alt) as [res Hres].
  { unfold placing. rewrite Hst. reflexivity. }
  rewrite Hres. f_equal.
  apply place_loop_run in Hres. destruct Hres as (K & HK & _ & HKf & ->).
  assert (K = S (S (Z.to_nat 6000))) as ->.
  { destruct (Nat.eq_dec K (S (S (Z.to_nat 6000)))) as [E | E]; [exact E|].
    exfalso.
    pose proof (centres_length_mono max_attempts_default relax_factor_default
                  K (S (Z.to_nat 6000)) sw_alt ltac:(lia)) as Hmono.
    rewrite Hst1 in Hmono. cbn [centres length] in Hmono.
    unfold placing in HKf. apply Z.ltb_ge in HKf. lia. }
  rewrite Hst. reflexivity.
Qed.

Lemma relaxing_call_summary :
  (fst (run_alt (Z.to_nat 6000))
   = {| centres := [candidate_at w_alt 0]; attempts := 5999;
        min_dist := lit 55 100 |} /\
   stdout (snd (run_alt (Z.to_nat 6000))) = []) /\
  (fst (run_alt (Z.to_nat 6001))
   = {| centres := [candidate_at w_alt 0]; attempts := 0;
        min_dist := mul (lit 55 100) (lit 9 10) |} /\
   stdout (snd (run_alt (Z.to_nat 6001)))
   = [Relaxing (mul (lit 55 100) (lit 9 10))]) /\
  exists w' : World B64.t,
    random_cell_positions (Z.to_nat 6002) 2 (lit 55 100)
      max_attempts_default relax_factor_default w_alt
    = Some ([candidate_at w_alt 0; candidate_at w_alt 1], w') /\
    stdout w' = [Relaxing (mul (lit 55 100) (lit 9 10))] /\
    rng_pos w' = Z.to_nat 12004.
Proof.
  split; [exact relaxing_run_before|].
  split.
  { replace (Z.to_nat 6001) with (S (Z.to_nat 6000)) by lia.
    exact relaxing_run_relaxes. }
  exists (snd (run_alt (S (S (Z.to_nat 6000))))).
  split; [exact relaxing_call_returns|].
  split; [exact (proj2 relaxing_run_accepts)|].
  rewrite (proj2 (place_run_rng max_attempts_default relax_factor_default
                    (S (S (Z.to_nat 6000))) sw_alt)).
  cbn [snd rng_pos]. lia.
Qed.

End RelaxingCall.

(** C6. Every iteration of a call of [random_cell_positions] that returns,
    with the default threshold 6000 and factor 0.9, in every arithmetic:
    the counter is the number of rejections in a row behind the iteration
    and is below 6000; a rejection that brings it to 6000 multiplies the
    minimum distance by 0.9, resets the counter, writes the relaxation
    message with the new distance, and the loop goes on, the next candidate
    being tested against the relaxed distance; a rejection below the
    threshold only counts; an acceptance appends the candidate and resets
    the counter.  In binary64, for two cells at the distance 0.55 and a
    random stream that alternates between (0.15, 0.15) and a point 0.5445
    away from it: the first candidate is accepted and the next 5999
    are rejected, the counter standing at 5999 with nothing written after
    6000 iterations; the iteration after, the 6000th rejection in a row,
    relaxes to 0.55 * 0.9, resets the counter and writes the message; the
    next candidate passes the relaxed test and the call returns the two
    points after 6002 iterations, with the one message written. *)
Theorem relaxation_after_threshold_rejections :
  (forall (A : Type) (NumA : Num A) (fuel : nat) (n : Z) (md : A)
          (w w' : World A) (cs : list (Point A)),
      random_cell_positions fuel n md max_attempts_default relax_factor_default w
      = Some (cs, w') ->
      let run := fun i => place_run max_attempts_default relax_factor_default i
                                    (initial_state md, w) in
      exists K : nat,
        (K <= fuel)%nat /\
        cs = centres (fst (run K)) /\
        w' = snd (run K) /\
        forall i, (i < K)%nat ->
          let st := fst (run i) in
          let st' := fst (run (S i)) in
          let p := candidate_at w i in
          (0 <= attempts st < 6000)%Z /\
          (exists j, (j <= i)%nat /\
                     attempts st = Z.of_nat (i - j) /\
                     attempts (fst (run j)) = 0%Z /\
                     forall i', (j <= i' < i)%nat ->
                       far_enough (candidate_at w i') (fst (run i')) = false /\
                       min_dist (fst (run i')) = min_dist st) /\
          ((far_enough p st = true /\
            st' = {| centres := centres st ++ [p]; attempts := 0;
                     min_dist := min_dist st |} /\
            stdout (snd (run (S i))) = stdout (snd (run i)))
           \/
           (far_enough p st = false /\
            (attempts st + 1 = 6000)%Z /\
            st' = {| centres := centres st; attempts := 0;
                     min_dist := mul (min_dist st) (lit 9 10) |} /\
            stdout (snd (run (S i)))
            = stdout (snd (run i)) ++ [Relaxing (mul (min_dist st) (lit 9 10))] /\
            (S i < K)%nat)
           \/
           (far_enough p st = false /\
            (attempts st + 1 < 6000)%Z /\
            st' = {| centres := centres st; attempts := attempts st + 1;
                     min_dist := min_dist st |} /\
            stdout (snd (run (S i))) = stdout (snd (run i)) /\
            (S i < K)%nat)))
  /\
  (let w : World B64.t :=
     {| rng := fun i => if Nat.even (Nat.div2 i) then f64 0 else lit 55 100;
        rng_pos := 0; stdout := []; canvas := [] |} in
   (fst (place_run max_attempts_default relax_factor_default (Z.to_nat 6000)
                   (initial_state (lit 55 100), w))
    = {| centres := [candidate_at w 0]; attempts := 5999;
         min_dist := lit 55 100 |} /\
    stdout (snd (place_run max_attempts_default relax_factor_default
                           (Z.to_nat 6000) (initial_state (lit 55 100), w)))
    = []) /\
   (fst (place_run max_attempts_default relax_factor_default (Z.to_nat 6001)
                   (initial_state (lit 55 100), w))
    = {| centres := [candidate_at w 0]; attempts := 0;
         min_dist := mul (lit 55 100) (lit 9 10) |} /\
    stdout (snd (place_run max_attempts_default relax_factor_default
                           (Z.to_nat 6001) (initial_state (lit 55 100), w)))
    = [Relaxing (mul (lit 55 100) (lit 9 10))]) /\
   exists w' : World B64.t,
     random_cell_positions (Z.to_nat 6002) 2 (lit 55 100)
       max_attempts_default relax_factor_default w
     = Some ([candidate_at w 0; candidate_at w 1], w') /\
     stdout w' = [Relaxing (mul (lit 55 100) (lit 9 10))] /\
     rng_pos w' = Z.to_nat 12004).
Proof.
  split.
  - intros A NumA fuel n md w w' cs Hret run.
    apply (call_iterations max_attempts_default relax_factor_default
             ltac:(unfold max_attempts_default; lia) fuel n md w w' cs Hret).
  - exact relaxing_call_summary.
Qed.

Lemma relaxation_after_threshold_rejections_witness :
  exists (K : nat) (w' : World B64.t),
    random_cell_positions (Z.to_nat 6002) 2 (lit 55 100)
      max_attempts_default relax_factor_default
      {| rng := fun i => if Nat.even (Nat.div2 i) then f64 0 else lit 55 100;
         rng_pos := 0; stdout := []; canvas := [] |}
    = Some ([candidate_at
               {| rng := fun i => if Nat.even (Nat.div2 i) then f64 0 else lit 55 100;
                  rng_pos := 0; stdout := []; canvas := [] |} 0;
             candidate_at
               {| rng := fun i => if Nat.even (Nat.div2 i) then f64 0 else lit 55 100;
                  rng_pos := 0; stdout := []; canvas := [] |} 1], w') /\
    (K <= Z.to_nat 6002)%nat /\
    w' = snd (place_run max_attempts_default relax_factor_default K
                (initial_state (lit 55 100),
                 {| rng := fun i => if Nat.even (Nat.div2 i) then f64 0 else lit 55 100;
                    rng_pos := 0; stdout := []; canvas := [] |})).
Proof.
  destruct (proj2 (proj2 relaxing_call_summary)) as (w' & Hret & _).
  destruct (proj1 relaxation_after_threshold_rejections B64.t _ _ _ _ _ _ _ Hret)
    as (K & HK & _ & Hw & _).
  exists K, w'. split; [exact Hret | split; [exact HK | exact Hw]].
Defined.


(** ** [random_cell_positions] in exact arithmetic: the loop ends *)

Section RealPlacement.
Local Open Scope R_scope.

Variable M : Z.
Variable r : R.
Hypothesis M_pos : (1 <= M)%Z.
Hypothesis r_range : 0 <= r < 1.

Local Abbreviation run := (place_run M r).

Lemma far_enough_R (p : Point R) (st : PlaceState R) :
  far_enough p st = true <->
  forall c, In c (centres st) -> min_dist st < norm_diff p c.
Proof.
  unfold far_enough. rewrite forallb_forall.
  split; intros H c Hc; specialize (H c Hc).
  - apply Rltb_true. exact H.
  - apply Rltb_true. exact H.
Qed.

Lemma norm_diff_pos (q c : Point R) : q <> c -> 0 < norm_diff q c.
Proof.
  intros Hne. unfold norm_diff, dot, vsub. cbn.
  apply sqrt_lt_R0.
  pose proof (quad_a_pos c q (fun H => Hne (eq_sym H))) as Ha.
  unfold quad_a in Ha. exact Ha.
Qed.

Lemma positive_lower_bound (f : Point R -> R) (C : list (Point R)) :
  (forall c, In c C -> 0 < f c) ->
  exists eps, 0 < eps /\ forall c, In c C -> eps <= f c.
Proof.
  induction C as [|c C IH]; intros H.
  - exists 1. split; [lra | intros c []].
  - destruct IH as (eps & Heps & Hall).
    { intros c' Hc'. apply H. right. exact Hc'. }
    exists (Rmin (f c) eps). split.
    + apply Rmin_glb_lt; [apply H; left; reflexivity | exact Heps].
    + intros c' [<- | Hc'].
      * apply Rmin_l.
      * apply Rle_trans with eps; [apply Rmin_r | apply Hall; exact Hc'].
Qed.

Lemma fresh_point (Q C : list (Point R)) :
  NoDup Q -> (length C < length Q)%nat ->
  exists q, In q Q /\ ~ In q C.
Proof.
  intros Hnd Hlen.
  destruct (classic (exists q, In q Q /\ ~ In q C)) as [H | H]; [exact H|].
  exfalso.
  assert (Hincl : incl Q C).
  { intros q Hq. apply NNPP. intros Hn. apply H. exists q. auto. }
  pose proof (NoDup_incl_length Hnd Hincl). lia.
Qed.

Lemma pow_le_of_ge (J e : nat) : (J <= e)%nat -> r ^ e <= r ^ J.
Proof.
  intros Hle. replace e with (J + (e - J))%nat by lia.
  rewrite pow_add.
  assert (H0 : 0 <= r ^ J) by (apply pow_le; lra).
  assert (H1 : r ^ (e - J) <= 1).
  { rewrite <- (pow1 (e - J)). apply pow_incr. lra. }
  assert (H2 : 0 <= r ^ (e - J)) by (apply pow_le; lra).
  nra.
Qed.

Lemma small_power (x eps : R) : 0 < eps -> exists J, Rabs x * r ^ J < eps.
Proof.
  intros Heps.
  assert (Hr : Rabs r < 1) by (rewrite Rabs_pos_eq; lra).
  assert (Hy : 0 < eps / (Rabs x + 1)).
  { apply Rdiv_lt_0_compat; [exact Heps|]. pose proof (Rabs_pos x). lra. }
  destruct (pow_lt_1_zero r Hr _ Hy) as [J HJ].
  exists J. specialize (HJ J (Nat.le_refl J)).
  rewrite Rabs_pos_eq in HJ by (apply pow_le; lra).
  pose proof (Rabs_pos x) as Hx.
  assert (H0 : 0 <= r ^ J) by (apply pow_le; lra).
  apply Rle_lt_trans with ((Rabs x + 1) * r ^ J); [nra|].
  replace eps with ((Rabs x + 1) * (eps / (Rabs x + 1))) by (field; lra).
  apply Rmult_lt_compat_l; lra.
Qed.


Lemma attempts_bounds (md : R) (w : World R) (k : nat) :
  (0 <= attempts (fst (run k (initial_state md, w))) < M)%Z.
Proof.
  destruct (attempts_counts_rejections M r md w k M_pos)
    as (j & _ & Ha & Hlt & _).
  rewrite Ha. lia.
Qed.

(** While no candidate is accepted, the centres stand still and each
    [M] rejections multiply the minimum distance by [r] once more. *)
Lemma stalled_run (md : R) (w : World R) (k : nat) :
  let sw0 := (initial_state md, w) in
  (forall k', length (centres (fst (run k' sw0)))
              <= length (centres (fst (run k sw0))))%nat ->
  forall N,
    centres (fst (run (k + N) sw0)) = centres (fst (run k sw0)) /\
    exists e : nat,
      min_dist (fst (run (k + N) sw0)) = min_dist (fst (run k sw0)) * r ^ e /\
      (Z.of_nat N + attempts (fst (run k sw0))
       = Z.of_nat e * M + attempts (fst (run (k + N) sw0)))%Z.
Proof.
  intros sw0 Hstall. induction N as [|N [IHc (e & IHm & IHa)]].
  - rewrite Nat.add_0_r. split; [reflexivity|].
    exists 0%nat. split; [simpl; ring | lia].
  - replace (k + S N)%nat with (S (k + N)) by lia.
    pose proof (attempts_bounds md w (k + N)) as Hb. fold sw0 in Hb.
    destruct (place_run_next M r (k + N) sw0)
      as [[_ Hs] | [(_ & Hm & Hs & _) | (_ & Hm & Hs & _)]]; rewrite Hs.
    + exfalso. specialize (Hstall (S (k + N))).
      rewrite Hs in Hstall. cbn [centres] in Hstall.
      rewrite length_app, IHc in Hstall. simpl in Hstall. lia.
    + cbn [centres min_dist attempts]. split; [exact IHc|].
      exists (S e). split.
      * rewrite IHm. simpl. ring.
      * lia.
    + cbn [centres min_dist attempts]. split; [exact IHc|].
      exists e. split; [exact IHm | lia].
Qed.

(** A point that is not among the centres and keeps being drawn is
    accepted in the end, unless another candidate is accepted before. *)
Lemma next_acceptance (md : R) (w : World R) (k : nat) (q : Point R) :
  let sw0 := (initial_state md, w) in
  ~ In q (centres (fst (run k sw0))) ->
  (forall i, exists j, (i <= j)%nat /\ candidate_at w j = q) ->
  exists k', (length (centres (fst (run k sw0)))
              < length (centres (fst (run k' sw0))))%nat.
Proof.
  intros sw0 Hfresh Hrec.
  destruct (classic (exists k', (length (centres (fst (run k sw0)))
                                 < length (centres (fst (run k' sw0))))%nat))
    as [H | H]; [exact H | exfalso].
  assert (Hstall : forall k', (length (centres (fst (run k' sw0)))
                               <= length (centres (fst (run k sw0))))%nat).
  { intros k'. apply Nat.nlt_ge. intros Hlt. apply H. exists k'. exact Hlt. }
  destruct (positive_lower_bound (norm_diff q) (centres (fst (run k sw0))))
    as (eps & Heps & Hfar).
  { intros c Hc. apply norm_diff_pos. intros ->. exact (Hfresh Hc). }
  destruct (small_power (min_dist (fst (run k sw0))) eps Heps) as [J HJ].
  destruct (Hrec (k + (J + 1) * Z.to_nat M)%nat) as (j & Hj & Hq).
  destruct (stalled_run md w k Hstall (j - k)) as (Hc & e & Hm & Ha).
  replace (k + (j - k))%nat with j in * by lia. fold sw0 in Hc, Hm, Ha.
  pose proof (attempts_bounds md w k) as Hbk. fold sw0 in Hbk.
  pose proof (attempts_bounds md w j) as Hbj. fold sw0 in Hbj.
  assert (He : (J <= e)%nat).
  { assert (Z.of_nat (j - k) >= (Z.of_nat J + 1) * M)%Z.
    { assert (Hn : ((J + 1) * Z.to_nat M <= j - k)%nat) by lia.
      apply Nat2Z.inj_le in Hn.
      rewrite Nat2Z.inj_mul, Nat2Z.inj_add, Z2Nat.id in Hn by lia.
      simpl in Hn. lia. }
    nia. }
  assert (Hacc : accepted_at M r sw0 j = true).
  { unfold accepted_at. rewrite iter_candidate_run.
    change (snd sw0) with w. rewrite Hq.
    apply far_enough_R. rewrite Hc, Hm. intros c Hin.
    specialize (Hfar c Hin).
    pose proof (pow_le_of_ge J e He) as Hp.
    assert (H0 : 0 <= r ^ e) by (apply pow_le; lra).
    pose proof (Rabs_pos (min_dist (fst (run k sw0)))) as Hx.
    pose proof (Rle_abs (min_dist (fst (run k sw0)))) as Hx'.
    apply Rle_lt_trans with (Rabs (min_dist (fst (run k sw0))) * r ^ J); [nra | lra]. }
  destruct (place_run_next M r j sw0)
    as [[_ Hs] | [(Hrej & _) | (Hrej & _)]]; try congruence.
  specialize (Hstall (S j)). rewrite Hs in Hstall. cbn [centres] in Hstall.
  rewrite length_app, Hc in Hstall. simpl in Hstall. lia.
Qed.

(** With a fair sampler the run reaches any number of centres up to the
    number of points that keep coming back. *)
Lemma reaches_count (md : R) (w : World R) (Q : list (Point R)) :
  NoDup Q ->
  (forall q, In q Q -> forall i, exists j, (i <= j)%nat /\ candidate_at w j = q) ->
  forall m, (m <= length Q)%nat ->
    exists k, (m <= length (centres (fst (run k (initial_state md, w)))))%nat.
Proof.
  intros Hnd Hrec. induction m as [|m IH]; intros Hm.
  - exists 0%nat. lia.
  - destruct IH as [k Hk]; [lia|].
    destruct (le_lt_dec (S m) (length (centres (fst (run k (initial_state md, w))))))
      as [Hdone | Hnot].
    + exists k. exact Hdone.
    + destruct (fresh_point Q (centres (fst (run k (initial_state md, w)))) Hnd)
        as (q & HqQ & HqC); [lia|].
      destruct (next_acceptance md w k q HqC (Hrec q HqQ)) as [k' Hk'].
      exists k'. lia.
Qed.

Lemma fair_sampler_terminates (n : Z) (md : R) (w : World R) :
  fair_sampler n w ->
  exists fuel res, random_cell_positions fuel n md M r w = Some res.
Proof.
  intros (Q & Hnd & Hn & Hrec).
  destruct (reaches_count md w Q Hnd Hrec (Z.to_nat n)) as [k Hk]; [lia|].
  destruct (place_loop_terminates M r n k (initial_state md, w)) as [res Hres].
  - unfold placing. apply Z.ltb_ge. lia.
  - exists k, res. exact Hres.
Qed.

End RealPlacement.

(** C5. For [n >= 1] and any minimum distance, in exact arithmetic and with
    the default threshold and factor: whenever [random_cell_positions]
    returns, it returns exactly [n] points; they are the accepted
    candidates in the order of their acceptance; a candidate is accepted
    exactly when its distance to every centre accepted before it exceeds
    the minimum distance current at that iteration; and the centres of
    every earlier iteration are a prefix of the result, none removed.  It
    does return when the sampler is fair, that is when at least [n]
    distinct points keep coming back among the candidates. *)
Theorem place_cells_returns_n_accepted_points :
  forall (n : Z) (min_dist0 : R) (w : World R),
    (1 <= n)%Z ->
    let M := max_attempts_default in
    let r : R := relax_factor_default in
    let sw0 := (initial_state min_dist0, w) in
    (forall fuel cs w',
        random_cell_positions fuel n min_dist0 M r w = Some (cs, w') ->
        Z.of_nat (length cs) = n /\
        exists K,
          (K <= fuel)%nat /\
          cs = centres (fst (place_run M r K sw0)) /\
          w' = snd (place_run M r K sw0) /\
          cs = map (candidate_at w) (filter (accepted_at M r sw0) (seq 0 K)) /\
          (forall i, (i < K)%nat ->
             (accepted_at M r sw0 i = true <->
              forall c, In c (centres (fst (place_run M r i sw0))) ->
                (min_dist (fst (place_run M r i sw0))
                 < norm_diff (candidate_at w i) c)%R)) /\
          (forall i, (i <= K)%nat ->
             exists l, cs = centres (fst (place_run M r i sw0)) ++ l))
    /\
    (fair_sampler n w ->
     exists fuel cs w',
       random_cell_positions fuel n min_dist0 M r w = Some (cs, w')).
Proof.
  intros n min_dist0 w Hn M r sw0. split.
  - intros fuel cs w' Hret. unfold random_cell_positions in Hret.
    fold (initial_state min_dist0) in Hret. fold sw0 in Hret.
    split.
    + apply (place_loop_length M r n fuel sw0 (cs, w')); [simpl; lia | exact Hret].
    + apply place_loop_run in Hret.
      destruct Hret as (K & HK & _ & _ & Hres). inversion Hres; subst cs w'.
      exists K. split; [exact HK | split; [reflexivity | split; [reflexivity|]]].
      split; [|split].
      * rewrite centres_run. reflexivity.
      * intros i Hi. unfold accepted_at. rewrite iter_candidate_run.
        apply far_enough_R.
      * intros i Hi. apply centres_prefix. exact Hi.
  - intros Hfair.
    destruct (fair_sampler_terminates M r) with (n := n) (md := min_dist0) (w := w)
      as (fuel & [cs w'] & Hres).
    + unfold M, max_attempts_default. lia.
    + unfold r, relax_factor_default, lit. cbn. lra.
    + exact Hfair.
    + exists fuel, cs, w'. exact Hres.
Qed.

Lemma place_cells_returns_n_accepted_points_witness :
  let w := {| rng := fun i => if Nat.even (Nat.div2 i) then 0%R else 1%R;
              rng_pos := 0; stdout := []; canvas := [] |} in
  exists fuel cs w',
    random_cell_positions fuel 2 (55 / 100)%R
                          max_attempts_default relax_factor_default w
    = Some (cs, w').
Proof.
  intros w.
  refine (proj2 (place_cells_returns_n_accepted_points 2 (55 / 100)%R w _) _).
  - lia.
  - exists [candidate_at w 0; candidate_at w 1]. split; [|split].
    + constructor; [|constructor; [intros [] | constructor]].
      intros [H | []]. unfold candidate_at, lit in H. cbn in H.
      inversion H. lra.
    + simpl. lia.
    + assert (Hc : forall j, candidate_at w j
                             = if Nat.even j then candidate_at w 0 else candidate_at w 1).
      { intros j. unfold candidate_at. cbn [rng rng_pos w].
        replace (0 + 2 * j)%nat with (2 * j)%nat by lia.
        replace (2 * j + 1)%nat with (S (2 * j)) by lia.
        rewrite Nat.div2_double, Nat.div2_succ_double.
        destruct (Nat.even j); reflexivity. }
      intros q [<- | [<- | []]] i.
      * exists (2 * i)%nat. split; [lia|]. rewrite Hc.
        rewrite Nat.even_mul. reflexivity.
      * exists (S (2 * i)). split; [lia|]. rewrite Hc.
        rewrite Nat.even_succ, Nat.odd_mul. reflexivity.
Defined.

(** * Further properties of the drawing code *)

(** ** The chain of pieces *)

Section ChainFacts.
Context {A : Type} `{NumA : Num A}.

Lemma chained_app (a m b : Point A) (s1 s2 : list (Segment A)) :
  chained a s1 m -> chained m s2 b -> chained a (s1 ++ s2) b.
Proof.
  revert a. induction s1 as [|seg rest IH]; intros a H1 H2; [destruct H1|].
  destruct H1 as [Hs Hr]. simpl. split; [exact Hs|].
  destruct rest as [|seg' rest'].
  - simpl. rewrite Hr. destruct s2 as [|x s2]; [destruct H2 | exact H2].
  - change ((seg' :: rest') ++ s2) with (seg' :: (rest' ++ s2)).
    change (chained (snd (fst seg)) ((seg' :: rest') ++ s2) b).
    apply IH; assumption.
Qed.

Lemma chained_consecutive (f : Point A * Point A -> bool) (x : Point A)
    (l : list (Point A)) :
  l <> [] ->
  chained x (map (fun se => (fst se, snd se, f se)) (consecutive (x :: l)))
          (last l x).
Proof.
  revert x. induction l as [|y l IH]; intros x Hne; [contradiction|].
  destruct l as [|z l].
  - simpl. auto.
  - specialize (IH y (fun H => ltac:(discriminate H))).
    unfold consecutive in *.
    change (removelast (x :: y :: z :: l)) with (x :: removelast (y :: z :: l)).
    change (tl (x :: y :: z :: l)) with (y :: z :: l).
    change (tl (y :: z :: l)) with (z :: l) in IH.
    change (removelast (y :: z :: l)) with (y :: removelast (z :: l)) in *.
    change (last (y :: z :: l) x) with (last (z :: l) x).
    change (last (z :: l) y) with (last (z :: l) y) in IH.
    simpl combine. simpl map. simpl combine in IH. simpl map in IH.
    split; [reflexivity|].
    replace (last (z :: l) x) with (last (z :: l) y).
    + exact IH.
    + clear. revert z. induction l as [|u l IHl]; intros z; [reflexivity|].
      change (last (z :: u :: l) y) with (last (u :: l) y).
      change (last (z :: u :: l) x) with (last (u :: l) x). apply IHl.
Qed.

Lemma cut_segment_chained (c : Point A) (r : A) (a b : Point A) (o : bool) :
  chained a (cut_segment c r (a, b, o)) b.
Proof.
  unfold cut_segment.
  destruct (segment_circle_intersection a b c r) as [[|q l]|];
    try (simpl; auto; fail).
  set (inter := sorted (q :: l)).
  pose proof (chained_consecutive
                (fun se => negb (inside_circle c r (midpoint (fst se) (snd se))))
                a (inter ++ [b])) as H.
  rewrite last_last in H.
  assert (Hmap : map (fun se : Point A * Point A =>
                        let (s, e) := se in
                        (s, e, negb (inside_circle c r (midpoint s e))))
                     (consecutive ([a] ++ inter ++ [b]))
                 = map (fun se => (fst se, snd se,
                                   negb (inside_circle c r (midpoint (fst se) (snd se)))))
                       (consecutive (a :: inter ++ [b]))).
  { apply map_ext. intros [s e]. reflexivity. }
  rewrite Hmap. apply H. destruct inter; discriminate.
Qed.

Lemma cut_all_chained (circle : Point A * A) (segs : list (Segment A))
    (a b : Point A) :
  chained a segs b -> chained a (cut_all segs circle) b.
Proof.
  revert a. induction segs as [|[[s e] o] rest IH]; intros a H; [destruct H|].
  destruct H as [Hs Hr]. cbn [fst snd] in Hs, Hr. subst s.
  unfold cut_all. cbn [flat_map].
  destruct rest as [|seg' rest'].
  - subst e. cbn [flat_map]. rewrite app_nil_r. apply cut_segment_chained.
  - apply chained_app with (m := e); [apply cut_segment_chained|].
    apply IH. exact Hr.
Qed.

End ChainFacts.

(** X1. Whatever the circles, the pieces [draw_smart_line] ends with lead
    from [p1] to [p2]: there is at least one piece, the first starts at
    [p1], every piece starts where the one before it ends, and the last
    ends at [p2]. *)
Theorem smart_line_pieces_chained :
  forall (A : Type) (NumA : Num A) (p1 p2 : Point A)
         (circle_centers : list (Point A)) (circle_radii : list A),
    chained p1 (smart_line_segments p1 p2 circle_centers circle_radii) p2.
Proof.
  intros A NumA p1 p2 cs rs. unfold smart_line_segments.
  assert (H : forall circles segs,
             chained p1 segs p2 -> chained p1 (fold_left cut_all circles segs) p2).
  { induction circles as [|c circles IH]; intros segs Hc; [exact Hc|].
    simpl. apply IH. apply cut_all_chained. exact Hc. }
  apply H. simpl. auto.
Qed.

(** ** Lines that no circle cuts *)

Lemma uncut_line_kept {A : Type} `{NumA : Num A} (p1 p2 : Point A) (o : bool)
    (circles : list (Point A * A)) :
  Forall (fun c => circle_intersects c p1 p2 = false) circles ->
  fold_left cut_all circles [(p1, p2, o)] = [(p1, p2, o)].
Proof.
  induction circles as [|[c r] circles IH]; intros H; [reflexivity|].
  inversion H as [|x l Hc Hrest]; subst.
  cbn [fold_left].
  replace (cut_all [(p1, p2, o)] (c, r)) with [(p1, p2, o)].
  - apply IH. exact Hrest.
  - unfold cut_all. cbn [flat_map fst snd].
    rewrite (cut_segment_keep c r p1 p2 o Hc). reflexivity.
Qed.

Section RealUncut.
Local Open Scope R_scope.

Lemma no_border_point_no_cut (p1 p2 c : Point R) (r : R) :
  p1 <> p2 ->
  (forall t, in_unit t -> ~ on_circle c r (param_point p1 p2 t)) ->
  circle_intersects (c, r) p1 p2 = false.
Proof.
  intros Hne Hno. unfold circle_intersects. cbn [fst snd].
  destruct (sci_R_points p1 p2 c r Hne) as [Hnone _].
  rewrite (proj2 Hnone); [reflexivity|].
  right. intros (t & Hu & Hr). apply (Hno t Hu).
  apply is_root_on_circle. exact Hr.
Qed.

Lemma inside_ends_no_border_point (p1 p2 c : Point R) (r t : R) :
  strictly_inside c r p1 -> strictly_inside c r p2 -> in_unit t ->
  ~ on_circle c r (param_point p1 p2 t).
Proof.
  unfold strictly_inside, on_circle, param_point, in_unit.
  destruct p1 as [x1 y1], p2 as [x2 y2], c as [cx cy]; cbn [fst snd].
  intros H1 H2 [Ht0 Ht1] Hon.
  assert (Hid : (x1 + t * (x2 - x1) - cx) * (x1 + t * (x2 - x1) - cx)
                + (y1 + t * (y2 - y1) - cy) * (y1 + t * (y2 - y1) - cy)
                = (1 - t) * ((x1 - cx) * (x1 - cx) + (y1 - cy) * (y1 - cy))
                  + t * ((x2 - cx) * (x2 - cx) + (y2 - cy) * (y2 - cy))
                  - t * (1 - t) * ((x2 - x1) * (x2 - x1) + (y2 - y1) * (y2 - y1)))
    by ring.
  rewrite Hid in Hon.
  pose proof (Rle_0_sqr (x2 - x1)) as Hx. pose proof (Rle_0_sqr (y2 - y1)) as Hy.
  unfold Rsqr in Hx, Hy.
  assert (0 <= t * (1 - t) * ((x2 - x1) * (x2 - x1) + (y2 - y1) * (y2 - y1))).
  { apply Rmult_le_pos; [apply Rmult_le_pos; lra | lra]. }
  destruct (Rle_lt_or_eq_dec 0 t Ht0) as [Hpos | Hz].
  - assert (t * ((x2 - cx) * (x2 - cx) + (y2 - cy) * (y2 - cy)) < t * (r * r))
      by (apply Rmult_lt_compat_l; lra).
    assert ((1 - t) * ((x1 - cx) * (x1 - cx) + (y1 - cy) * (y1 - cy))
            <= (1 - t) * (r * r))
      by (apply Rmult_le_compat_l; lra).
    lra.
  - subst t. lra.
Qed.

End RealUncut.

(** X2. In exact arithmetic, a line with distinct ends that has no point on
    the border of any of the circles keeps its single piece, from [p1] to
    [p2], tagged outside. *)
Theorem line_meeting_no_border_stays_whole :
  forall (p1 p2 : Point R) (circle_centers : list (Point R)) (circle_radii : list R),
    p1 <> p2 ->
    (forall c r t, In (c, r) (combine circle_centers circle_radii) ->
                   in_unit t -> ~ on_circle c r (param_point p1 p2 t)) ->
    smart_line_segments p1 p2 circle_centers circle_radii = [(p1, p2, true)].
Proof.
  intros p1 p2 cs rs Hne Hno. unfold smart_line_segments.
  apply uncut_line_kept. apply Forall_forall. intros [c r] Hin.
  apply no_border_point_no_cut; [exact Hne|].
  intros t Hu. exact (Hno c r t Hin Hu).
Qed.

Lemma line_meeting_no_border_stays_whole_witness :
  smart_line_segments (0, 0)%R (1, 0)%R [(5, 5)%R] [1%R]
  = [((0, 0)%R, (1, 0)%R, true)].
Proof.
  apply line_meeting_no_border_stays_whole.
  - intros H. inversion H. lra.
  - intros c r t [Heq | []] Hu. inversion Heq; subst c r.
    unfold on_circle, param_point. cbn [fst snd]. intros Hon.
    pose proof (Rle_0_sqr (0 + t * (1 - 0) - 5)) as Hq. unfold Rsqr in Hq. lra.
Defined.

(** X3. In exact arithmetic, a line whose two distinct ends are strictly
    inside a circle is not cut by that circle: against this one circle it
    stays one piece tagged outside and is plotted once, with the outside
    width and opacity 1, although it lies inside the circle. *)
Theorem line_inside_one_circle_drawn_as_outside :
  forall (p1 p2 c : Point R) (r : R) (color : String.string)
         (lw_out lw_in : R) (zorder_base : Z) (w : World R),
    p1 <> p2 ->
    strictly_inside c r p1 ->
    strictly_inside c r p2 ->
    segment_circle_intersection p1 p2 c r = None /\
    smart_line_segments p1 p2 [c] [r] = [(p1, p2, true)] /\
    canvas (draw_smart_line p1 p2 [c] [r] color lw_out lw_in zorder_base w)
    = canvas w ++ [{| line_from := p1; line_to := p2; color := color;
                      linewidth := lw_out; alpha := (100 / 100)%R;
                      zorder := zorder_base |}].
Proof.
  intros p1 p2 c r color lo li z w Hne H1 H2.
  assert (Hno : forall t, in_unit t -> ~ on_circle c r (param_point p1 p2 t)).
  { intros t Hu. apply inside_ends_no_border_point; assumption. }
  assert (Hsegs : smart_line_segments p1 p2 [c] [r] = [(p1, p2, true)]).
  { apply line_meeting_no_border_stays_whole; [exact Hne|].
    intros c' r' t [Heq | []] Hu. inversion Heq; subst. apply Hno. exact Hu. }
  split; [|split; [exact Hsegs|]].
  - destruct (sci_R_points p1 p2 c r Hne) as [Hnone _].
    apply Hnone. right. intros (t & Hu & Hr). apply (Hno t Hu).
    apply is_root_on_circle. exact Hr.
  - unfold draw_smart_line. rewrite Hsegs. reflexivity.
Qed.

Lemma line_inside_one_circle_drawn_as_outside_witness :
  smart_line_segments (-1, 0)%R (1, 0)%R [(0, 0)%R] [2%R]
  = [((-1, 0)%R, (1, 0)%R, true)].
Proof.
  refine (proj1 (proj2 (line_inside_one_circle_drawn_as_outside
                          (-1, 0)%R (1, 0)%R (0, 0)%R 2%R String.EmptyString
                          1%R 1%R 10%Z
                          {| rng := fun _ => 0%R; rng_pos := 0;
                             stdout := []; canvas := [] |} _ _ _))).
  - intros H. inversion H. lra.
  - unfold strictly_inside. cbn [fst snd]. lra.
  - unfold strictly_inside. cbn [fst snd]. lra.
Defined.

(** ** A line that crosses one circle twice, in exact arithmetic *)

Section RealCrossing.
Local Open Scope R_scope.

Lemma lex_lt_neq (u v : Point R) : lex_lt u v -> u <> v.
Proof.
  intros [H | [_ H]] Heq; subst; lra.
Qed.

Lemma tuple_lt_R (u v : Point R) : tuple_lt u v = true <-> lex_lt u v.
Proof.
  unfold tuple_lt, lex_lt. cbn. unfold Reqb.
  destruct (Req_dec_T (fst u) (fst v)) as [Hx | Hx]; cbn [negb].
  - destruct (Req_dec_T (snd u) (snd v)) as [Hy | Hy]; cbn [negb].
    + split; [discriminate | intros [H | [_ H]]; lra].
    + rewrite Rltb_true. split; [intros H; right; auto | intros [H | [_ H]]; lra].
  - rewrite Rltb_true. split; [intros H; left; auto | intros [H | [H _]]; [lra | contradiction]].
Qed.

Lemma sorted_pair (u v : Point R) :
  sorted [u; v] = if tuple_lt v u then [v; u] else [u; v].
Proof. unfold sorted. cbn. destruct (tuple_lt v u); reflexivity. Qed.

Lemma lex_lt_param (p1 p2 : Point R) (u v : R) :
  lex_lt p1 p2 -> u < v -> lex_lt (param_point p1 p2 u) (param_point p1 p2 v).
Proof.
  unfold lex_lt, param_point. cbn [fst snd].
  intros [H | [Hx Hy]] Huv.
  - left. nra.
  - right. rewrite Hx. split; [ring | nra].
Qed.

Lemma lex_gt_param (p1 p2 : Point R) (u v : R) :
  lex_lt p2 p1 -> u < v -> lex_lt (param_point p1 p2 v) (param_point p1 p2 u).
Proof.
  unfold lex_lt, param_point. cbn [fst snd].
  intros [H | [Hx Hy]] Huv.
  - left. nra.
  - right. rewrite Hx. split; [ring | nra].
Qed.

Lemma lex_lt_asym (u v : Point R) : lex_lt u v -> ~ lex_lt v u.
Proof. unfold lex_lt. intros [H | [H1 H2]] [H' | [H1' H2']]; lra. Qed.

(** The two roots, in their order, are the two values of the formula. *)
Lemma two_roots_kept (p1 p2 c : Point R) (r t1 t2 : R) :
  p1 <> p2 ->
  is_root p1 p2 c r t1 -> is_root p1 p2 c r t2 ->
  0 <= t1 -> t1 < t2 -> t2 <= 1 ->
  segment_circle_intersection p1 p2 c r
  = Some [param_point p1 p2 t1; param_point p1 p2 t2].
Proof.
  intros Hne Hr1 Hr2 H0 H12 H1.
  pose proof (quad_a_pos _ _ Hne) as Ha.
  assert (Hd : 0 <= discriminant p1 p2 c r).
  { destruct (Rle_lt_dec 0 (discriminant p1 p2 c r)) as [H | H]; [exact H|].
    exfalso. exact (no_root_when_disc_negative p1 p2 c r t1 H Hr1). }
  rewrite sci_R_kept by exact Hd.
  apply roots_when_disc_nonneg in Hr1; [|exact Ha | exact Hd].
  apply roots_when_disc_nonneg in Hr2; [|exact Ha | exact Hd].
  pose proof (sqrt_pos (discriminant p1 p2 c r)) as Hs.
  set (s := R_sqrt.sqrt (discriminant p1 p2 c r)) in *.
  set (T1 := (- quad_b p1 p2 c - s) / (2 * quad_a p1 p2)) in *.
  set (T2 := (- quad_b p1 p2 c + s) / (2 * quad_a p1 p2)) in *.
  assert (HT : T1 <= T2).
  { unfold T1, T2, Rdiv. apply Rmult_le_compat_r.
    - left. apply Rinv_0_lt_compat. lra.
    - lra. }
  assert (E1 : t1 = T1) by (destruct Hr1, Hr2; lra).
  assert (E2 : t2 = T2) by (destruct Hr1, Hr2; lra).
  rewrite <- E1, <- E2. unfold kept_points.
  rewrite (proj2 (in_unit_test t1)) by (unfold in_unit; lra).
  rewrite (proj2 (in_unit_test t2)) by (unfold in_unit; lra).
  reflexivity.
Qed.

(** The quadratic through its two roots. *)
Lemma quadratic_factored (p1 p2 c : Point R) (r t1 t2 tau : R) :
  is_root p1 p2 c r t1 -> is_root p1 p2 c r t2 -> t1 < t2 ->
  quad_a p1 p2 * (tau * tau) + quad_b p1 p2 c * tau + quad_c p1 c r
  = quad_a p1 p2 * ((tau - t1) * (tau - t2)).
Proof.
  unfold is_root.
  generalize (quad_a p1 p2) (quad_b p1 p2 c) (quad_c p1 c r).
  intros a b cv H1 H2 Hlt.
  assert (Hb : b = - a * (t1 + t2)).
  { assert (H : (t1 - t2) * (a * (t1 + t2) + b) = 0) by lra.
    apply Rmult_integral in H. destruct H; lra. }
  subst b. assert (Hc : cv = a * (t1 * t2)) by lra.
  subst cv. ring.
Qed.

Lemma inside_circle_R (c : Point R) (r : R) (m : Point R) :
  0 < r ->
  (inside_circle c r m = true <-> strictly_inside c r m).
Proof.
  intros Hr. unfold inside_circle, strictly_inside, hypot. cbn.
  rewrite Rltb_true.
  set (X := (fst m - fst c) * (fst m - fst c) + (snd m - snd c) * (snd m - snd c)).
  assert (HX : 0 <= X).
  { unfold X. pose proof (Rle_0_sqr (fst m - fst c)) as H1.
    pose proof (Rle_0_sqr (snd m - snd c)) as H2. unfold Rsqr in *. lra. }
  split; intros H.
  - pose proof (sqrt_pos X) as Hp. pose proof (sqrt_sqrt X HX) as Hq. nra.
  - rewrite <- (sqrt_square r) by lra. apply sqrt_lt_1_alt. lra.
Qed.

(** Whether the middle of the stretch between the parameters [u] and [v]
    is strictly inside: the sign of the quadratic at [(u + v) / 2]. *)
Lemma inside_midpoint_param (p1 p2 c : Point R) (r t1 t2 u v : R) :
  0 < r -> p1 <> p2 ->
  is_root p1 p2 c r t1 -> is_root p1 p2 c r t2 -> t1 < t2 ->
  (inside_circle c r (midpoint (param_point p1 p2 u) (param_point p1 p2 v)) = true
   <-> ((u + v) / 2 - t1) * ((u + v) / 2 - t2) < 0).
Proof.
  intros Hr Hne Hr1 Hr2 H12.
  rewrite inside_circle_R by exact Hr.
  pose proof (quadratic_factored p1 p2 c r t1 t2 ((u + v) / 2) Hr1 Hr2 H12) as Hf.
  pose proof (quad_a_pos _ _ Hne) as Ha.
  assert (Hs : strictly_inside c r (midpoint (param_point p1 p2 u) (param_point p1 p2 v))
               <-> quad_a p1 p2 * (((u + v) / 2) * ((u + v) / 2))
                   + quad_b p1 p2 c * ((u + v) / 2) + quad_c p1 c r < 0).
  { unfold strictly_inside, midpoint, param_point, quad_a, quad_b, quad_c.
    destruct p1 as [x1 y1], p2 as [x2 y2], c as [cx cy]. cbn.
    split; intros H; nra. }
  rewrite Hs, Hf. split; intros H; nra.
Qed.

Lemma param_point_0 (p1 p2 : Point R) : param_point p1 p2 0 = p1.
Proof. destruct p1; unfold param_point; cbn; f_equal; ring. Qed.

Lemma param_point_1 (p1 p2 : Point R) : param_point p1 p2 1 = p2.
Proof. destruct p1, p2; unfold param_point; cbn; f_equal; ring. Qed.

Lemma segment_length_param (p1 p2 : Point R) (u v : R) (o : bool) :
  segment_length (param_point p1 p2 u, param_point p1 p2 v, o)
  = Rabs (v - u) * R_sqrt.sqrt (quad_a p1 p2).
Proof.
  unfold segment_length, hypot, param_point, quad_a. cbn.
  replace ((fst p1 + v * (fst p2 - fst p1) - (fst p1 + u * (fst p2 - fst p1)))
           * (fst p1 + v * (fst p2 - fst p1) - (fst p1 + u * (fst p2 - fst p1)))
           + (snd p1 + v * (snd p2 - snd p1) - (snd p1 + u * (snd p2 - snd p1)))
             * (snd p1 + v * (snd p2 - snd p1) - (snd p1 + u * (snd p2 - snd p1))))
    with (Rsqr (v - u) * ((fst p2 - fst p1) * (fst p2 - fst p1)
                          + (snd p2 - snd p1) * (snd p2 - snd p1)))
    by (unfold Rsqr; ring).
  rewrite sqrt_mult_alt by apply Rle_0_sqr.
  rewrite sqrt_Rsqr_abs. reflexivity.
Qed.


Lemma inside_midpoint_between (p1 p2 c s e : Point R) (r t1 t2 u v : R) :
  0 < r -> p1 <> p2 ->
  is_root p1 p2 c r t1 -> is_root p1 p2 c r t2 -> t1 < t2 ->
  s = param_point p1 p2 u -> e = param_point p1 p2 v ->
  (inside_circle c r (midpoint s e) = true
   <-> ((u + v) / 2 - t1) * ((u + v) / 2 - t2) < 0).
Proof. intros Hr Hne Hr1 Hr2 H12 -> ->. apply inside_midpoint_param; assumption. Qed.

Lemma segment_length_between (p1 p2 s e : Point R) (u v : R) (o : bool) :
  s = param_point p1 p2 u -> e = param_point p1 p2 v ->
  segment_length (s, e, o) = Rabs (v - u) * R_sqrt.sqrt (quad_a p1 p2).
Proof. intros -> ->. apply segment_length_param. Qed.

(** The pass of one circle over the whole line, once the two crossings
    are known. *)
Lemma one_circle_pass (p1 p2 c : Point R) (r t1 t2 : R) :
  p1 <> p2 ->
  is_root p1 p2 c r t1 -> is_root p1 p2 c r t2 ->
  0 <= t1 -> t1 < t2 -> t2 <= 1 ->
  smart_line_segments p1 p2 [c] [r]
  = map (fun se : Point R * Point R =>
           (fst se, snd se, negb (inside_circle c r (midpoint (fst se) (snd se)))))
        (consecutive
           (p1 :: (if tuple_lt (param_point p1 p2 t2) (param_point p1 p2 t1)
                   then [param_point p1 p2 t2; param_point p1 p2 t1]
                   else [param_point p1 p2 t1; param_point p1 p2 t2]) ++ [p2])).
Proof.
  intros Hne Hr1 Hr2 H0 H12 H1.
  unfold smart_line_segments. cbn [combine fold_left].
  unfold cut_all. cbn [flat_map fst snd]. rewrite app_nil_r.
  unfold cut_segment.
  rewrite (two_roots_kept p1 p2 c r t1 t2 Hne Hr1 Hr2 H0 H12 H1).
  rewrite sorted_pair. apply map_ext. intros [s e]. reflexivity.
Qed.

End RealCrossing.

(** X4. In exact arithmetic, take a line whose start is before its end in
    the order of tuples (left to right, or straight up) and a circle of
    positive radius that it crosses at the parameters [t1 < t2] of [0, 1].
    The line is cut into three pieces, outside, inside, outside, at the
    two crossings in their order along the line, and the lengths of the
    pieces add up to the length of the line. *)
Theorem forward_line_through_circle_partitioned :
  forall (p1 p2 c : Point R) (r t1 t2 : R),
    lex_lt p1 p2 ->
    (0 < r)%R ->
    is_root p1 p2 c r t1 -> is_root p1 p2 c r t2 ->
    (0 <= t1)%R -> (t1 < t2)%R -> (t2 <= 1)%R ->
    smart_line_segments p1 p2 [c] [r]
    = [(p1, param_point p1 p2 t1, true);
       (param_point p1 p2 t1, param_point p1 p2 t2, false);
       (param_point p1 p2 t2, p2, true)]
    /\ path_length (smart_line_segments p1 p2 [c] [r])
       = segment_length (p1, p2, true).
Proof.
  intros p1 p2 c r t1 t2 Hlex Hr Hr1 Hr2 H0 H12 H1.
  pose proof (lex_lt_neq _ _ Hlex) as Hne.
  assert (Hsegs : smart_line_segments p1 p2 [c] [r]
                  = [(p1, param_point p1 p2 t1, true);
                     (param_point p1 p2 t1, param_point p1 p2 t2, false);
                     (param_point p1 p2 t2, p2, true)]).
  { rewrite (one_circle_pass p1 p2 c r t1 t2 Hne Hr1 Hr2 H0 H12 H1).
    assert (Hord : tuple_lt (param_point p1 p2 t2) (param_point p1 p2 t1) = false).
    { destruct (tuple_lt _ _) eqn:E; [|reflexivity]. exfalso.
      apply tuple_lt_R in E.
      exact (lex_lt_asym _ _ (lex_lt_param p1 p2 t1 t2 Hlex H12) E). }
    rewrite Hord. cbn [app consecutive removelast tl combine map fst snd].
    assert (T1 : inside_circle c r (midpoint p1 (param_point p1 p2 t1)) = false).
    { destruct (inside_circle c r (midpoint p1 (param_point p1 p2 t1))) eqn:E;
        [|reflexivity]. exfalso.
      apply (inside_midpoint_between p1 p2 c _ _ r t1 t2 0 t1 Hr Hne Hr1 Hr2 H12
               (eq_sym (param_point_0 p1 p2)) eq_refl) in E.
      nra. }
    assert (T2 : inside_circle c r (midpoint (param_point p1 p2 t1)
                                             (param_point p1 p2 t2)) = true).
    { apply (inside_midpoint_between p1 p2 c _ _ r t1 t2 t1 t2 Hr Hne Hr1 Hr2 H12
               eq_refl eq_refl).
      nra. }
    assert (T3 : inside_circle c r (midpoint (param_point p1 p2 t2) p2) = false).
    { destruct (inside_circle c r (midpoint (param_point p1 p2 t2) p2)) eqn:E;
        [|reflexivity]. exfalso.
      apply (inside_midpoint_between p1 p2 c _ _ r t1 t2 t2 1 Hr Hne Hr1 Hr2 H12
               eq_refl (eq_sym (param_point_1 p1 p2))) in E.
      nra. }
    rewrite T1, T2, T3. reflexivity. }
  split; [exact Hsegs|].
  rewrite Hsegs. unfold path_length. cbn [fold_left].
  rewrite (segment_length_between p1 p2 _ _ 0 t1 true
             (eq_sym (param_point_0 p1 p2)) eq_refl).
  rewrite (segment_length_between p1 p2 _ _ t1 t2 false eq_refl eq_refl).
  rewrite (segment_length_between p1 p2 _ _ t2 1 true
             eq_refl (eq_sym (param_point_1 p1 p2))).
  rewrite (segment_length_between p1 p2 p1 p2 0 1 true
             (eq_sym (param_point_0 p1 p2)) (eq_sym (param_point_1 p1 p2))).
  rewrite !Rabs_pos_eq by lra. cbn. ring.
Qed.

Lemma forward_line_through_circle_partitioned_witness :
  smart_line_segments (-2, 0)%R (2, 0)%R [(0, 0)%R] [1%R]
  = [((-2, 0)%R, param_point (-2, 0)%R (2, 0)%R (1 / 4)%R, true);
     (param_point (-2, 0)%R (2, 0)%R (1 / 4)%R,
      param_point (-2, 0)%R (2, 0)%R (3 / 4)%R, false);
     (param_point (-2, 0)%R (2, 0)%R (3 / 4)%R, (2, 0)%R, true)].
Proof.
  refine (proj1 (forward_line_through_circle_partitioned
                   (-2, 0)%R (2, 0)%R (0, 0)%R 1%R (1 / 4)%R (3 / 4)%R
                   _ _ _ _ _ _ _)).
  - left. cbn. lra.
  - lra.
  - unfold is_root, quad_a, quad_b, quad_c. cbn [fst snd]. lra.
  - unfold is_root, quad_a, quad_b, quad_c. cbn [fst snd]. lra.
  - lra.
  - lra.
  - lra.
Defined.

(** X5. In exact arithmetic, take a line whose end is before its start in
    the order of tuples (right to left, or straight down) and a circle it
    crosses at the parameters [t1 < t2] of [0, 1].  [sorted] puts the
    second crossing first: the pieces run from [p1] to the far crossing,
    back to the near crossing, and on to [p2], and their lengths add up to
    the length of the line plus twice the chord between the crossings. *)
Theorem backward_line_through_circle_overdrawn :
  forall (p1 p2 c : Point R) (r t1 t2 : R),
    lex_lt p2 p1 ->
    is_root p1 p2 c r t1 -> is_root p1 p2 c r t2 ->
    (0 <= t1)%R -> (t1 < t2)%R -> (t2 <= 1)%R ->
    map fst (smart_line_segments p1 p2 [c] [r])
    = [(p1, param_point p1 p2 t2);
       (param_point p1 p2 t2, param_point p1 p2 t1);
       (param_point p1 p2 t1, p2)]
    /\ path_length (smart_line_segments p1 p2 [c] [r])
       = (segment_length (p1, p2, true)
          + 2 * segment_length (param_point p1 p2 t1, param_point p1 p2 t2, false))%R.
Proof.
  intros p1 p2 c r t1 t2 Hlex Hr1 Hr2 H0 H12 H1.
  assert (Hne : p1 <> p2).
  { intros Heq. exact (lex_lt_neq _ _ Hlex (eq_sym Heq)). }
  rewrite (one_circle_pass p1 p2 c r t1 t2 Hne Hr1 Hr2 H0 H12 H1).
  rewrite (proj2 (tuple_lt_R _ _) (lex_gt_param p1 p2 t1 t2 Hlex H12)).
  cbn [app consecutive removelast tl combine map fst snd].
  split; [reflexivity|].
  unfold path_length. cbn [fold_left].
  rewrite (segment_length_between p1 p2 _ _ 0 t2 _
             (eq_sym (param_point_0 p1 p2)) eq_refl).
  rewrite (segment_length_between p1 p2 _ _ t2 t1 _ eq_refl eq_refl).
  rewrite (segment_length_between p1 p2 _ _ t1 1 _
             eq_refl (eq_sym (param_point_1 p1 p2))).
  rewrite (segment_length_between p1 p2 p1 p2 0 1 true
             (eq_sym (param_point_0 p1 p2)) (eq_sym (param_point_1 p1 p2))).
  rewrite (segment_length_between p1 p2 _ _ t1 t2 false eq_refl eq_refl).
  rewrite (Rabs_left (t1 - t2)) by lra.
  rewrite !Rabs_pos_eq by lra. cbn. ring.
Qed.

Lemma backward_line_through_circle_overdrawn_witness :
  map fst (smart_line_segments (2, 0)%R (-2, 0)%R [(0, 0)%R] [1%R])
  = [((2, 0)%R, param_point (2, 0)%R (-2, 0)%R (3 / 4)%R);
     (param_point (2, 0)%R (-2, 0)%R (3 / 4)%R,
      param_point (2, 0)%R (-2, 0)%R (1 / 4)%R);
     (param_point (2, 0)%R (-2, 0)%R (1 / 4)%R, (-2, 0)%R)].
Proof.
  refine (proj1 (backward_line_through_circle_overdrawn
                   (2, 0)%R (-2, 0)%R (0, 0)%R 1%R (1 / 4)%R (3 / 4)%R
                   _ _ _ _ _ _)).
  - left. cbn. lra.
  - unfold is_root, quad_a, quad_b, quad_c. cbn [fst snd]. lra.
  - unfold is_root, quad_a, quad_b, quad_c. cbn [fst snd]. lra.
  - lra.
  - lra.
  - lra.
Defined.

(** ** The ring of function nodes: clearances *)

Section RealRingClearance.
Local Open Scope R_scope.

Lemma ring_points_distance (center : Point R) (cell_radius item_radius : R)
    (k : nat) (w : World R) (q : Point R) :
  In q (fst (ring_positions_inside_cell center cell_radius k item_radius w)) ->
  norm_diff q center = Rabs (ring_radius_spec cell_radius item_radius).
Proof.
  unfold ring_positions_inside_cell.
  destruct (uniform (of_Z 0) (of_Z 2 * pi)%num w) as [start_angle w'].
  cbn [fst]. rewrite ring_radius_R, ring_points_R.
  intros Hq. apply in_map_iff in Hq. destruct Hq as [i [Hq _]]. subst q.
  apply norm_diff_ring.
Qed.

Lemma ring_radius_feasible (cell_radius item_radius : R) :
  0 <= item_radius ->
  10 / 100 + item_radius + 2 / 1000 <= cell_radius - item_radius - 1 / 100 ->
  10 / 100 + item_radius + 2 / 1000 <= ring_radius_spec cell_radius item_radius
  <= cell_radius - item_radius - 1 / 100.
Proof.
  intros Hi Hf. unfold ring_radius_spec, ring_radius_clamped. cbv zeta.
  set (outer := cell_radius - item_radius - 1 / 100) in *.
  set (inner := 10 / 100 + item_radius + 2 / 1000) in *.
  pose proof (Rmax_l inner (95 / 100 * outer)) as Hl.
  assert (Hu : Rmax inner (95 / 100 * outer) <= outer).
  { apply Rmax_lub; unfold inner in *; lra. }
  rewrite Rmin_left by exact Hu.
  destruct (Rle_dec (Rmax inner (95 / 100 * outer)) 0); unfold inner in *; lra.
Qed.

Lemma ring_radius_squeezed (cell_radius item_radius : R) :
  0 < cell_radius - item_radius - 1 / 100 < 10 / 100 + item_radius + 2 / 1000 ->
  ring_radius_spec cell_radius item_radius = cell_radius - item_radius - 1 / 100.
Proof.
  intros Hf. unfold ring_radius_spec, ring_radius_clamped. cbv zeta.
  set (outer := cell_radius - item_radius - 1 / 100) in *.
  set (inner := 10 / 100 + item_radius + 2 / 1000) in *.
  pose proof (Rmax_l inner (95 / 100 * outer)) as Hl.
  rewrite Rmin_right by lra.
  destruct (Rle_dec outer 0); lra.
Qed.

Lemma ring_radius_fallback (cell_radius item_radius : R) :
  0 <= item_radius ->
  cell_radius - item_radius - 1 / 100 <= 0 ->
  ring_radius_spec cell_radius item_radius = cell_radius / 2.
Proof.
  intros Hi Hf. unfold ring_radius_spec, ring_radius_clamped. cbv zeta.
  set (outer := cell_radius - item_radius - 1 / 100) in *.
  set (inner := 10 / 100 + item_radius + 2 / 1000) in *.
  pose proof (Rmax_l inner (95 / 100 * outer)) as Hl.
  rewrite Rmin_right by (unfold inner in *; lra).
  destruct (Rle_dec outer 0); [reflexivity | lra].
Qed.

End RealRingClearance.

(** X6. In exact arithmetic and for a non-negative item radius, the points
    [ring_positions_inside_cell] returns keep the gaps the source asks for
    whenever there is room: if the inner limit (living radius + item radius
    + 0.002) does not exceed the outer limit (cell radius - item radius -
    0.01), every point lies between the two limits from the centre.  If the
    outer limit is positive but below the inner limit, every point is at
    the outer limit exactly, inside the inner one; only when the outer
    limit is not positive are the points put at half the cell radius. *)
Theorem ring_points_keep_clearances :
  forall (center : Point R) (cell_radius item_radius : R) (k : nat) (w : World R),
    (0 <= item_radius)%R ->
    let outer := (cell_radius - item_radius - 1 / 100)%R in
    let inner := (10 / 100 + item_radius + 2 / 1000)%R in
    let pts := fst (ring_positions_inside_cell center cell_radius k item_radius w) in
    ((inner <= outer)%R ->
     forall q, In q pts -> (inner <= norm_diff q center <= outer)%R)
    /\
    ((0 < outer < inner)%R ->
     forall q, In q pts -> norm_diff q center = outer)
    /\
    ((outer <= 0)%R ->
     forall q, In q pts -> norm_diff q center = Rabs (cell_radius / 2)).
Proof.
  intros center cell_radius item_radius k w Hi outer inner pts.
  split; [|split]; intros Hcase q Hq;
    rewrite (ring_points_distance center cell_radius item_radius k w q Hq).
  - pose proof (ring_radius_feasible cell_radius item_radius Hi Hcase) as H.
    fold inner outer in H. rewrite Rabs_pos_eq by (unfold inner in H; lra).
    exact H.
  - rewrite (ring_radius_squeezed cell_radius item_radius Hcase).
    fold outer. apply Rabs_pos_eq. lra.
  - rewrite (ring_radius_fallback cell_radius item_radius Hi Hcase). reflexivity.
Qed.

Lemma ring_points_keep_clearances_witness :
  let w := {| rng := fun _ => 0%R; rng_pos := 0; stdout := []; canvas := [] |} in
  forall_points_between
    (fst (ring_positions_inside_cell (1 / 2, 1 / 2)%R (22 / 100)%R 9 (5 / 100)%R w))
    (1 / 2, 1 / 2)%R (152 / 1000)%R (16 / 100)%R.
Proof.
  intros w. unfold forall_points_between. apply Forall_forall. intros q Hq.
  pose proof (proj1 (ring_points_keep_clearances
                       (1 / 2, 1 / 2)%R (22 / 100)%R (5 / 100)%R 9 w
                       ltac:(lra)) ltac:(lra) q Hq) as H.
  lra.
Defined.

(** ** The ring of function nodes: the circles do not overlap *)

Section RealRingChords.
Local Open Scope R_scope.





End RealRingChords.



(** ** Colour text *)

Section ColourFacts.
Variable isspace : Text.char -> bool.
Variable lower : Text.str -> Text.str.

Lemma text_eqb_eq (s t : Text.str) : Text.eqb s t = true <-> s = t.
Proof.
  unfold Text.eqb. destruct (list_eq_dec N.eq_dec s t); split; congruence.
Qed.

Lemma text_eqb_refl (s : Text.str) : Text.eqb s s = true.
Proof. apply text_eqb_eq. reflexivity. Qed.

Lemma auto_shaped : colour_shaped Text.auto.
Proof. split; [discriminate | intros H; discriminate H]. Qed.

(** The three ways [_clean_color] can answer. *)
Lemma clean_color_cases (text fallback : Text.str) (allow_auto : bool) :
  let t := Text.strip isspace text in
  let r := _clean_color isspace lower text fallback allow_auto in
  (allow_auto = true /\ lower t = Text.auto /\ r = Text.auto)
  \/ ((allow_auto = false \/ lower t <> Text.auto) /\
      r = t /\ t <> [] /\
      (Text.startswith_hash t = true -> length t = 4%nat \/ length t = 7%nat))
  \/ ((allow_auto = false \/ lower t <> Text.auto) /\
      r = fallback /\
      (t = [] \/ (Text.startswith_hash t = true /\
                  length t <> 4%nat /\ length t <> 7%nat))).
Proof.
  intros t r. unfold r, _clean_color. fold t.
  assert (Hauto : (allow_auto && Text.eqb (lower t) Text.auto = true
                   /\ allow_auto = true /\ lower t = Text.auto)
                  \/ (allow_auto && Text.eqb (lower t) Text.auto = false
                      /\ (allow_auto = false \/ lower t <> Text.auto))).
  { destruct allow_auto; cbn [andb]; [|right; auto].
    destruct (Text.eqb (lower t) Text.auto) eqn:E.
    - left. apply text_eqb_eq in E. auto.
    - right. split; [reflexivity|]. right. intros H.
      apply text_eqb_eq in H. congruence. }
  destruct Hauto as [(-> & Ha & Hl) | (-> & Hn)]; [left; auto | right].
  destruct t as [|c t'] eqn:Et; [right; auto|].
  destruct (Text.startswith_hash (c :: t')) eqn:Eh.
  - destruct ((length (c :: t') =? 4)%nat || (length (c :: t') =? 7)%nat) eqn:El.
    + left. repeat split; auto; try discriminate.
      intros _. apply orb_true_iff in El.
      destruct El as [E | E]; apply Nat.eqb_eq in E; auto.
    + right. apply orb_false_iff in El. destruct El as [E4 E7].
      apply Nat.eqb_neq in E4, E7. repeat split; auto.
  - left. repeat split; auto; try discriminate.
Qed.

Lemma clean_color_shaped (text fallback : Text.str) (allow_auto : bool) :
  colour_shaped fallback ->
  colour_shaped (_clean_color isspace lower text fallback allow_auto).
Proof.
  intros Hf.
  destruct (clean_color_cases text fallback allow_auto)
    as [(_ & _ & ->) | [(_ & -> & Hne & Hlen) | (_ & -> & _)]].
  - apply auto_shaped.
  - split; assumption.
  - exact Hf.
Qed.

(** Whether a text is taken does not depend on the value it replaces. *)
Lemma clean_color_twice (text fallback : Text.str) (allow_auto : bool) :
  _clean_color isspace lower text
    (_clean_color isspace lower text fallback allow_auto) allow_auto
  = _clean_color isspace lower text fallback allow_auto.
Proof.
  unfold _clean_color.
  destruct (allow_auto && Text.eqb (lower (Text.strip isspace text)) Text.auto);
    [reflexivity|].
  destruct (Text.strip isspace text) as [|c t']; [reflexivity|].
  destruct (Text.startswith_hash (c :: t')); [|reflexivity].
  destruct ((length (c :: t') =? 4)%nat || (length (c :: t') =? 7)%nat);
    reflexivity.
Qed.

Lemma dict_get_set_same (d : Dict) (key value default : Text.str) :
  dict_get (dict_set d key value) key default = value.
Proof.
  induction d as [|[k v] d IH]; simpl.
  - rewrite text_eqb_refl. reflexivity.
  - destruct (Text.eqb k key) eqn:E; simpl; rewrite E; [reflexivity | exact IH].
Qed.

Lemma dict_get_set_other (d : Dict) (key value other default : Text.str) :
  other <> key ->
  dict_get (dict_set d key value) other default = dict_get d other default.
Proof.
  intros Hne. induction d as [|[k v] d IH]; simpl.
  - destruct (Text.eqb key other) eqn:E; [|reflexivity].
    apply text_eqb_eq in E. congruence.
  - destruct (Text.eqb k key) eqn:E; simpl.
    + apply text_eqb_eq in E. subst k.
      destruct (Text.eqb key other) eqn:E'; [|reflexivity].
      apply text_eqb_eq in E'. congruence.
    + destruct (Text.eqb k other); [reflexivity | exact IH].
Qed.

Lemma dict_set_keys (d : Dict) (key value : Text.str) :
  map fst (dict_set d key value)
  = if existsb (Text.eqb key) (map fst d) then map fst d else map fst d ++ [key].
Proof.
  induction d as [|[k v] d IH]; simpl; [reflexivity|].
  assert (Hsym : Text.eqb key k = Text.eqb k key).
  { unfold Text.eqb.
    destruct (list_eq_dec N.eq_dec key k), (list_eq_dec N.eq_dec k key);
      congruence. }
  rewrite Hsym. destruct (Text.eqb k key); simpl; [reflexivity|].
  rewrite IH. destruct (existsb (Text.eqb key) (map fst d)); reflexivity.
Qed.

Lemma dict_set_twice (d : Dict) (key value : Text.str) :
  dict_set (dict_set d key value) key value = dict_set d key value.
Proof.
  induction d as [|[k v] d IH]; simpl.
  - rewrite text_eqb_refl. reflexivity.
  - destruct (Text.eqb k key) eqn:E; simpl; rewrite E; [reflexivity|].
    rewrite IH. reflexivity.
Qed.

Lemma dict_values_shaped (d : Dict) (key value : Text.str) :
  colour_shaped value ->
  Forall colour_shaped (map snd d) ->
  Forall colour_shaped (map snd (dict_set d key value)).
Proof.
  intros Hv. induction d as [|[k v] d IH]; simpl; intros H.
  - constructor; [exact Hv | constructor].
  - inversion H; subst. destruct (Text.eqb k key); simpl; constructor; auto.
Qed.

Lemma dict_get_shaped (d : Dict) (key default : Text.str) :
  colour_shaped default ->
  Forall colour_shaped (map snd d) ->
  colour_shaped (dict_get d key default).
Proof.
  intros Hd. induction d as [|[k v] d IH]; simpl; intros H; [exact Hd|].
  inversion H; subst. destruct (Text.eqb k key); auto.
Qed.

End ColourFacts.

(** X8. Whatever the whitespace and lowering tables: if the value a colour
    text replaces is colour-shaped (not empty, of length 4 or 7 when it
    starts with the hash sign), so is what [_clean_color] returns; and what
    it returns is "auto" (only when that is allowed), or the text without
    its surrounding whitespace, or the value it would replace, the last
    exactly when the stripped text is empty or starts with the hash sign
    with a length other than 4 and 7. *)
Theorem clean_color_keeps_colour_shaped :
  forall (isspace : Text.char -> bool) (lower : Text.str -> Text.str)
         (text fallback : Text.str) (allow_auto : bool),
    colour_shaped fallback ->
    let t := Text.strip isspace text in
    let r := _clean_color isspace lower text fallback allow_auto in
    colour_shaped r /\
    ((allow_auto = true /\ lower t = Text.auto /\ r = Text.auto)
     \/ ((allow_auto = false \/ lower t <> Text.auto) /\
         r = t /\ t <> [] /\
         (Text.startswith_hash t = true -> length t = 4%nat \/ length t = 7%nat))
     \/ ((allow_auto = false \/ lower t <> Text.auto) /\
         r = fallback /\
         (t = [] \/ (Text.startswith_hash t = true /\
                     length t <> 4%nat /\ length t <> 7%nat)))).
Proof.
  intros isspace lower text fallback allow_auto Hf t r. split.
  - apply clean_color_shaped. exact Hf.
  - apply clean_color_cases.
Qed.

Lemma clean_color_keeps_colour_shaped_witness :
  _clean_color ascii_isspace ascii_lower
               [32; 35; 102; 102; 102; 32]%N Text.black false
  = [35; 102; 102; 102]%N
  /\ colour_shaped (_clean_color ascii_isspace ascii_lower
                                 [32; 35; 102; 102; 102; 32]%N Text.black false).
Proof.
  split; [vm_compute; reflexivity|].
  refine (proj1 (clean_color_keeps_colour_shaped
                   ascii_isspace ascii_lower
                   [32; 35; 102; 102; 102; 32]%N Text.black false _)).
  split; [discriminate | intros _; right; reflexivity].
Defined.

(** ** Grabbing and dragging a cell *)

Lemma list_set_nth_error {T : Type} (l : list T) (i : nat) (v : T) :
  (i < length l)%nat ->
  exists l', list_set l i v = Some l' /\
             length l' = length l /\
             nth_error l' i = Some v /\
             forall k, k <> i -> nth_error l' k = nth_error l k.
Proof.
  revert i. induction l as [|x l IH]; intros i Hi; [simpl in Hi; lia|].
  destruct i as [|i].
  - exists (v :: l). repeat split; auto. intros [|k] Hk; [contradiction | reflexivity].
  - destruct (IH i) as (l' & Hs & Hlen & Hn & Ho); [simpl in Hi; lia|].
    exists (x :: l'). simpl. rewrite Hs. repeat split; simpl; auto.
    intros [|k] Hk; [reflexivity|]. apply Ho. lia.
Qed.

Section PressFacts.
Context {A : Type} `{NumA : Num A}.

Lemma first_in_reach_spec (click : Point A) (centres : list (Point A)) (base : nat) :
  match first_in_reach click centres base with
  | Some idx =>
      exists k centre,
        idx = (base + k)%nat /\
        nth_error centres k = Some centre /\
        in_reach click centre = true /\
        forall j c, (j < k)%nat -> nth_error centres j = Some c ->
                    in_reach click c = false
  | None => forall c, In c centres -> in_reach click c = false
  end.
Proof.
  revert base. induction centres as [|c0 rest IH]; intros base; simpl.
  - intros c [].
  - destruct (in_reach click c0) eqn:E.
    + exists 0%nat, c0.
      split; [lia | split; [reflexivity | split; [exact E|]]].
      intros j c Hj. lia.
    + specialize (IH (S base)).
      destruct (first_in_reach click rest (S base)) as [idx|].
      * destruct IH as (k & centre & Hidx & Hn & Hr & Hbefore).
        exists (S k), centre.
        split; [lia | split; [exact Hn | split; [exact Hr|]]].
        intros [|j] c Hj Hc; simpl in Hc.
        -- inversion Hc; subst. exact E.
        -- apply (Hbefore j c); [lia | exact Hc].
      * intros c [<- | Hin]; [exact E | apply IH; exact Hin].
Qed.

End PressFacts.

(** X11. A press over the main axes with data coordinates grabs the first
    living centre, in list order, that lies within 1.4 living radii of the
    click, and remembers the click; no centre is moved.  When no centre is
    in reach, and when the press is off the axes or has no coordinates,
    the state is left as it was. *)
Theorem press_grabs_first_centre_in_reach :
  forall (A : Type) (NumA : Num A) (event : MouseEvent A) (st : Layout A),
    let st' := _on_press event st in
    cell_centres st' = cell_centres st /\
    living_centres st' = living_centres st /\
    function_centres st' = function_centres st /\
    (forall x y,
        in_main_axes event = true ->
        xdata event = Some x -> ydata event = Some y ->
        (exists idx centre,
            dragging_idx st' = Some idx /\
            last_xy st' = Some (x, y) /\
            nth_error (living_centres st) idx = Some centre /\
            in_reach (x, y) centre = true /\
            forall j c, (j < idx)%nat ->
                        nth_error (living_centres st) j = Some c ->
                        in_reach (x, y) c = false)
        \/
        (st' = st /\
         forall c, In c (living_centres st) -> in_reach (x, y) c = false))
    /\
    (in_main_axes event = false \/ xdata event = None \/ ydata event = None ->
     st' = st).
Proof.
  intros A NumA event st st'. unfold st', _on_press.
  destruct (in_main_axes event) eqn:Eax; cbn [negb];
    [|split; [reflexivity | split; [reflexivity | split; [reflexivity | split]]];
      [intros x y H; discriminate | reflexivity]].
  destruct (xdata event) as [x|] eqn:Ex; destruct (ydata event) as [y|] eqn:Ey;
    try (split; [reflexivity | split; [reflexivity | split; [reflexivity | split]]];
         [intros x' y' _ Hx Hy; discriminate | reflexivity]).
  pose proof (first_in_reach_spec (x, y) (living_centres st) 0) as Hspec.
  destruct (first_in_reach (x, y) (living_centres st) 0) as [idx|] eqn:Ef;
    (split; [reflexivity | split; [reflexivity | split; [reflexivity | split]]]);
    try (intros [H | [H | H]]; discriminate).
  - intros x' y' _ Hx Hy. inversion Hx; inversion Hy; subst x' y'.
    left. destruct Hspec as (k & centre & Hidx & Hn & Hr & Hb).
    simpl in Hidx. subst k. exists idx, centre. cbn. auto.
  - intros x' y' _ Hx Hy. inversion Hx; inversion Hy; subst x' y'.
    right. auto.
Qed.

(** X12. A motion while the cell [ci] is grabbed, over the main axes, with
    [ci] a valid index of the three lists: the living centre and the cell
    centre of [ci] become the old living centre plus the mouse step (the
    new position minus the remembered one), every function point of [ci]
    is moved by the same step, no other cell changes, the lists keep
    their lengths, and the new position is remembered. *)
Theorem motion_moves_only_the_grabbed_cell :
  forall (A : Type) (NumA : Num A) (st : Layout A) (ci : nat)
         (last new_xy old : Point A) (ring : list (Point A)),
    dragging_idx st = Some ci ->
    last_xy st = Some last ->
    nth_error (living_centres st) ci = Some old ->
    (ci < length (cell_centres st))%nat ->
    nth_error (function_centres st) ci = Some ring ->
    let delta := vsub new_xy last in
    exists st',
      _on_motion (motion_at new_xy) st = Some st' /\
      nth_error (living_centres st') ci = Some (vadd old delta) /\
      nth_error (cell_centres st') ci = Some (vadd old delta) /\
      nth_error (function_centres st') ci
      = Some (map (fun p => vadd p delta) ring) /\
      (forall k, k <> ci ->
         nth_error (living_centres st') k = nth_error (living_centres st) k /\
         nth_error (cell_centres st') k = nth_error (cell_centres st) k /\
         nth_error (function_centres st') k = nth_error (function_centres st) k) /\
      length (living_centres st') = length (living_centres st) /\
      length (cell_centres st') = length (cell_centres st) /\
      length (function_centres st') = length (function_centres st) /\
      dragging_idx st' = Some ci /\
      last_xy st' = Some new_xy.
Proof.
  intros A NumA st ci last new_xy old ring Hd Hl Hold Hcell Hring delta.
  assert (Hci : (ci < length (living_centres st))%nat).
  { apply nth_error_Some. rewrite Hold. discriminate. }
  assert (Hcf : (ci < length (function_centres st))%nat).
  { apply nth_error_Some. rewrite Hring. discriminate. }
  destruct (list_set_nth_error (living_centres st) ci (vadd old delta) Hci)
    as (living' & Hs1 & Hlen1 & Hn1 & Ho1).
  destruct (list_set_nth_error (cell_centres st) ci (vadd old delta) Hcell)
    as (cells' & Hs2 & Hlen2 & Hn2 & Ho2).
  destruct (list_set_nth_error (function_centres st) ci
              (map (fun p => vadd p delta) ring) Hcf)
    as (functions' & Hs3 & Hlen3 & Hn3 & Ho3).
  exists {| cell_centres := cells'; living_centres := living';
            function_centres := functions';
            dragging_idx := Some ci; last_xy := Some new_xy |}.
  split.
  - unfold _on_motion. rewrite Hd. cbn [motion_at in_main_axes xdata ydata negb].
    rewrite Hl, Hold.
    replace (fst new_xy, snd new_xy) with new_xy by (destruct new_xy; reflexivity).
    fold delta. rewrite Hs1, Hs2, Hring, Hs3. reflexivity.
  - cbn. repeat split; auto.
Qed.

Lemma motion_moves_only_the_grabbed_cell_witness :
  let st : Layout B64.t :=
    {| cell_centres := [(f64 0, f64 0); (f64 4, f64 4)];
       living_centres := [(f64 0, f64 0); (f64 4, f64 4)];
       function_centres := [[(f64 1, f64 0)]; [(f64 5, f64 4)]];
       dragging_idx := Some 1%nat;
       last_xy := Some (f64 4, f64 4) |} in
  exists st',
    _on_motion (motion_at (f64 6, f64 5)) st = Some st' /\
    nth_error (living_centres st') 1
    = Some (vadd (f64 4, f64 4) (vsub (f64 6, f64 5) (f64 4, f64 4))).
Proof.
  intros st.
  destruct (motion_moves_only_the_grabbed_cell
              B64.t _ st 1 (f64 4, f64 4) (f64 6, f64 5) (f64 4, f64 4)
              [(f64 5, f64 4)] eq_refl eq_refl eq_refl
              (le_n 2) eq_refl)
    as (st' & Hm & Hl & _).
  exists st'. split; [exact Hm | exact Hl].
Defined.

(** ** A drag in exact arithmetic *)

Section RealDrag.
Local Open Scope R_scope.

Lemma vadd_vsub_chain (old x0 p q : Point R) :
  vadd (vadd old (vsub p x0)) (vsub q p) = vadd old (vsub q x0).
Proof. unfold vadd, vsub. cbn. f_equal; ring. Qed.

Lemma vadd_vsub_self (old x0 : Point R) : vadd old (vsub x0 x0) = old.
Proof. destruct old. unfold vadd, vsub. cbn. f_equal; ring. Qed.

Lemma last_cons_default {T : Type} (p : T) (rest : list T) (d : T) :
  last (p :: rest) d = last rest p.
Proof.
  revert p d. induction rest as [|q rest IH]; intros p d; [reflexivity|].
  change (last (p :: q :: rest) d) with (last (q :: rest) d).
  rewrite (IH q d), (IH q p). reflexivity.
Qed.

(** A ring moved as a whole is the same ring about the moved centre. *)
Lemma evenly_spaced_ring_moved (center delta : Point R) (rho theta0 : R) (k : nat)
    (pts : list (Point R)) :
  evenly_spaced_ring center rho theta0 k pts ->
  evenly_spaced_ring (vadd center delta) rho theta0 k
                     (map (fun p => vadd p delta) pts).
Proof.
  intros (Hlen & Hdist & Hang & Hrot & Hwrap).
  assert (Hnth : forall i, nth i (map (fun p => vadd p delta) pts) (vadd center delta)
                           = vadd (nth i pts center) delta).
  { intros i. apply (map_nth (fun p => vadd p delta)). }
  assert (Hrot' : forall d q, rotate_about (vadd center delta) d (vadd q delta)
                              = vadd (rotate_about center d q) delta).
  { intros d q. unfold rotate_about, vadd. cbn. f_equal; ring. }
  unfold evenly_spaced_ring. repeat split.
  - rewrite length_map. exact Hlen.
  - intros q Hq. apply in_map_iff in Hq. destruct Hq as (q0 & <- & Hq0).
    rewrite <- (Hdist q0 Hq0). unfold norm_diff, dot, vsub, vadd. cbn.
    f_equal. ring.
  - intros i Hi. rewrite Hnth, (Hang i Hi). unfold vadd. cbn. f_equal; ring.
  - intros i Hi. rewrite !Hnth, (Hrot i Hi), Hrot'. reflexivity.
  - rewrite !Hnth, Hwrap, Hrot'. reflexivity.
Qed.

Lemma motion_step_R (st : Layout R) (ci : nat) (last new_xy old : Point R)
    (ring : list (Point R)) :
  dragging_idx st = Some ci ->
  last_xy st = Some last ->
  nth_error (living_centres st) ci = Some old ->
  (ci < length (cell_centres st))%nat ->
  nth_error (function_centres st) ci = Some ring ->
  exists st',
    _on_motion (motion_at new_xy) st = Some st' /\
    dragging_idx st' = Some ci /\
    last_xy st' = Some new_xy /\
    nth_error (living_centres st') ci = Some (vadd old (vsub new_xy last)) /\
    nth_error (cell_centres st') ci = Some (vadd old (vsub new_xy last)) /\
    nth_error (function_centres st') ci
    = Some (map (fun p => vadd p (vsub new_xy last)) ring) /\
    (length (cell_centres st') = length (cell_centres st)) /\
    (forall k, k <> ci ->
       nth_error (living_centres st') k = nth_error (living_centres st) k /\
       nth_error (cell_centres st') k = nth_error (cell_centres st) k /\
       nth_error (function_centres st') k = nth_error (function_centres st) k).
Proof.
  intros Hd Hl Hold Hcell Hring.
  assert (Hci : (ci < length (living_centres st))%nat).
  { apply nth_error_Some. rewrite Hold. discriminate. }
  assert (Hcf : (ci < length (function_centres st))%nat).
  { apply nth_error_Some. rewrite Hring. discriminate. }
  set (delta := vsub new_xy last).
  destruct (list_set_nth_error (living_centres st) ci (vadd old delta) Hci)
    as (living' & Hs1 & _ & Hn1 & Ho1).
  destruct (list_set_nth_error (cell_centres st) ci (vadd old delta) Hcell)
    as (cells' & Hs2 & Hlen2 & Hn2 & Ho2).
  destruct (list_set_nth_error (function_centres st) ci
              (map (fun p => vadd p delta) ring) Hcf)
    as (functions' & Hs3 & _ & Hn3 & Ho3).
  exists {| cell_centres := cells'; living_centres := living';
            function_centres := functions';
            dragging_idx := Some ci; last_xy := Some new_xy |}.
  split.
  - unfold _on_motion. rewrite Hd. cbn [motion_at in_main_axes xdata ydata negb].
    rewrite Hl, Hold.
    replace (fst new_xy, snd new_xy) with new_xy by (destruct new_xy; reflexivity).
    fold delta. rewrite Hs1, Hs2, Hring, Hs3. reflexivity.
  - cbn. repeat split; auto.
Qed.

Lemma drag_along_total (path : list (Point R)) :
  forall (st : Layout R) (ci : nat) (x0 old : Point R) (ring : list (Point R)),
    dragging_idx st = Some ci ->
    last_xy st = Some x0 ->
    nth_error (living_centres st) ci = Some old ->
    nth_error (cell_centres st) ci = Some old ->
    nth_error (function_centres st) ci = Some ring ->
    exists st',
      drag_along path st = Some st' /\
      nth_error (living_centres st') ci = Some (vadd old (vsub (last path x0) x0)) /\
      nth_error (cell_centres st') ci = Some (vadd old (vsub (last path x0) x0)) /\
      nth_error (function_centres st') ci
      = Some (map (fun p => vadd p (vsub (last path x0) x0)) ring) /\
      (forall k, k <> ci ->
         nth_error (living_centres st') k = nth_error (living_centres st) k /\
         nth_error (cell_centres st') k = nth_error (cell_centres st) k /\
         nth_error (function_centres st') k = nth_error (function_centres st) k).
Proof.
  induction path as [|p rest IH]; intros st ci x0 old ring Hd Hl Hold Hcell Hring.
  - exists st. cbn [drag_along last]. rewrite vadd_vsub_self.
    split; [reflexivity | split; [exact Hold | split; [exact Hcell|]]].
    split; [|intros k _; auto].
    rewrite Hring. f_equal. rewrite <- (map_id ring) at 1.
    apply map_ext. intros q. symmetry. apply vadd_vsub_self.
  - assert (Hc : (ci < length (cell_centres st))%nat).
    { apply nth_error_Some. rewrite Hcell. discriminate. }
    destruct (motion_step_R st ci x0 p old ring Hd Hl Hold Hc Hring)
      as (st1 & Hm & Hd1 & Hl1 & Hliv1 & Hcell1 & Hring1 & _ & Hother1).
    destruct (IH st1 ci p _ _ Hd1 Hl1 Hliv1 Hcell1 Hring1)
      as (st' & Hdrag & Hliv & Hcel & Hfun & Hother).
    exists st'. cbn [drag_along]. rewrite Hm, last_cons_default.
    split; [exact Hdrag|].
    rewrite vadd_vsub_chain in Hliv, Hcel.
    split; [exact Hliv | split; [exact Hcel | split]].
    + rewrite Hfun, map_map. f_equal. apply map_ext. intros q.
      apply vadd_vsub_chain.
    + intros k Hk. destruct (Hother k Hk) as (H1 & H2 & H3).
      destruct (Hother1 k Hk) as (H1' & H2' & H3').
      rewrite H1, H2, H3. auto.
Qed.

End RealDrag.

(** X13. In exact arithmetic, a grabbed cell follows the mouse: after any
    run of motion events over the main axes, the living centre and the
    cell centre of the grabbed cell are where they were at the press plus
    the whole displacement of the mouse (its last position minus the
    position of the press), every function point of the cell has moved by
    that same displacement, the other cells are where they were, and a
    ring of function points evenly spaced about the old centre is evenly
    spaced, with the same radius and start angle, about the new one. *)
Theorem dragged_cell_follows_the_mouse :
  forall (st : Layout R) (ci : nat) (x0 old : Point R) (ring : list (Point R))
         (path : list (Point R)),
    dragging_idx st = Some ci ->
    last_xy st = Some x0 ->
    nth_error (living_centres st) ci = Some old ->
    nth_error (cell_centres st) ci = Some old ->
    nth_error (function_centres st) ci = Some ring ->
    let total := vsub (last path x0) x0 in
    exists st',
      drag_along path st = Some st' /\
      nth_error (living_centres st') ci = Some (vadd old total) /\
      nth_error (cell_centres st') ci = Some (vadd old total) /\
      nth_error (function_centres st') ci
      = Some (map (fun p => vadd p total) ring) /\
      (forall k, k <> ci ->
         nth_error (living_centres st') k = nth_error (living_centres st) k /\
         nth_error (cell_centres st') k = nth_error (cell_centres st) k /\
         nth_error (function_centres st') k = nth_error (function_centres st) k) /\
      (forall rho theta0 n,
          evenly_spaced_ring old rho theta0 n ring ->
          evenly_spaced_ring (vadd old total) rho theta0 n
                             (map (fun p => vadd p total) ring)).
Proof.
  intros st ci x0 old ring path Hd Hl Hold Hcell Hring total.
  destruct (drag_along_total path st ci x0 old ring Hd Hl Hold Hcell Hring)
    as (st' & Hdrag & Hliv & Hcel & Hfun & Hother).
  exists st'. fold total in Hliv, Hcel, Hfun.
  split; [exact Hdrag | split; [exact Hliv | split; [exact Hcel|]]].
  split; [exact Hfun | split; [exact Hother|]].
  intros rho theta0 n Hev. apply evenly_spaced_ring_moved. exact Hev.
Qed.

Lemma dragged_cell_follows_the_mouse_witness :
  let st : Layout R :=
    {| cell_centres := [(0, 0); (4, 4)]%R;
       living_centres := [(0, 0); (4, 4)]%R;
       function_centres := [[(1, 0)%R]; [(5, 4)%R]];
       dragging_idx := Some 1%nat;
       last_xy := Some (4, 4)%R |} in
  exists st',
    drag_along [(5, 5); (3, 6); (6, 5)]%R st = Some st' /\
    nth_error (living_centres st') 1
    = Some (vadd (4, 4)%R (vsub (6, 5)%R (4, 4)%R)).
Proof.
  intros st.
  destruct (dragged_cell_follows_the_mouse
              st 1 (4, 4)%R (4, 4)%R [(5, 4)%R] [(5, 5); (3, 6); (6, 5)]%R
              eq_refl eq_refl eq_refl eq_refl eq_refl)
    as (st' & Hm & Hl & _).
  exists st'. split; [exact Hm | exact Hl].
Defined.

(** ** The list of occluding circles *)

Lemma skipn_nth_error {T : Type} (l : list T) (i : nat) (x : T) :
  nth_error l i = Some x -> skipn i l = x :: skipn (S i) l.
Proof.
  revert i. induction l as [|y l IH]; intros [|i] H; try discriminate.
  - inversion H. reflexivity.
  - simpl in H. change (skipn i l = x :: skipn (S i) l). apply IH. exact H.
Qed.

Section CircleFacts.
Context {A : Type} `{NumA : Num A}.

Lemma all_circles_from_some (cells : list (Point A)) :
  forall (i : nat) (functions : list (list (Point A))),
    (i + length cells <= length functions)%nat ->
    exists centres radii,
      all_circles_from i cells functions = Some (centres, radii) /\
      length centres = length radii /\
      combine centres radii
      = concat (map cell_circles (combine cells (skipn i functions))).
Proof.
  induction cells as [|c rest IH]; intros i functions Hlen.
  - exists [], []. repeat split; reflexivity.
  - simpl in Hlen.
    destruct (nth_error functions i) as [ring|] eqn:En;
      [|apply nth_error_None in En; lia].
    destruct (IH (S i) functions) as (centres & radii & Hs & Hl & Hc); [lia|].
    exists (c :: ring ++ centres),
           (LIVING_RADIUS :: map (fun _ => FUNCTION_RADIUS) ring ++ radii).
    cbn [all_circles_from]. rewrite En, Hs. split; [reflexivity|]. split.
    + simpl. rewrite !length_app, length_map, Hl. reflexivity.
    + rewrite (skipn_nth_error functions i ring En).
      cbn [combine map concat cell_circles fst snd app]. f_equal.
      rewrite <- Hc. clear. induction ring as [|p ring IHr]; [reflexivity|].
      simpl. f_equal. exact IHr.
Qed.

Lemma all_circles_from_none (cells : list (Point A)) :
  forall (i : nat) (functions : list (list (Point A))),
    (length functions < i + length cells)%nat ->
    cells <> [] ->
    all_circles_from i cells functions = None.
Proof.
  induction cells as [|c rest IH]; intros i functions Hlen Hne; [contradiction|].
  cbn [all_circles_from].
  destruct (nth_error functions i) as [ring|] eqn:En; [|reflexivity].
  assert (Hi : (i < length functions)%nat).
  { apply nth_error_Some. rewrite En. discriminate. }
  rewrite IH; [reflexivity | simpl in Hlen; lia |].
  destruct rest; [simpl in Hlen; lia | discriminate].
Qed.

End CircleFacts.

(** X14. The two lists of the occluding circles are aligned: when every
    cell has its entry in [function_centres], the loop gives as many radii
    as centres, and zipping them pairs each cell centre with the living
    radius and each function point with the function radius, cell after
    cell; when [function_centres] is shorter than [cell_centres] the loop
    raises. *)
Theorem all_circles_pairs_each_centre_with_its_radius :
  forall (A : Type) (NumA : Num A)
         (cell_centres : list (Point A)) (function_centres : list (list (Point A))),
    ((length cell_centres <= length function_centres)%nat ->
     exists centres radii,
       all_circles cell_centres function_centres = Some (centres, radii) /\
       length centres = length radii /\
       combine centres radii
       = concat (map cell_circles (combine cell_centres function_centres)))
    /\
    ((length function_centres < length cell_centres)%nat ->
     all_circles cell_centres function_centres = None).
Proof.
  intros A NumA cells functions. split; intros Hlen.
  - destruct (all_circles_from_some cells 0 functions Hlen)
      as (centres & radii & Hs & Hl & Hc).
    exists centres, radii. auto.
  - apply all_circles_from_none; [simpl; lia|].
    destruct cells; [simpl in Hlen; lia | discriminate].
Qed.

(** ** The connection loops *)

Lemma map_seq_from {T : Type} (m : nat) :
  forall (f : nat -> T) n,
    map f (seq n m) = map (fun k => f (n + k)%nat) (seq 0 m).
Proof.
  induction m as [|m IH]; intros f n; [reflexivity|].
  cbn [seq map]. rewrite Nat.add_0_r. f_equal.
  rewrite (IH f (S n)), (IH (fun k => f (n + k)%nat) 1%nat).
  apply map_ext. intros k. f_equal. lia.
Qed.

Section ConnectionFacts.
Context {A : Type} `{NumA : Num A}.

Lemma counters_from_app (c : Z) (n m : nat) :
  counters_from c (n + m)
  = counters_from c n ++ counters_from (c + Z.of_nat n) m.
Proof.
  unfold counters_from. rewrite seq_app, map_app. f_equal.
  cbn [Nat.add]. rewrite map_seq_from. apply map_ext. intros k. lia.
Qed.

Lemma counters_from_S (c : Z) (n : nat) :
  counters_from c (S n) = (c + 1)%Z :: counters_from (c + 1) n.
Proof.
  unfold counters_from. cbn [seq map].
  replace (c + 1 + Z.of_nat 0)%Z with (c + 1)%Z by lia. f_equal.
  rewrite map_seq_from. apply map_ext. intros k. lia.
Qed.

Lemma connect_to_spec (liv : Point A) (targets : list (Point A * String.string)) :
  forall c,
    let calls := fst (connect_to liv targets c) in
    snd (connect_to liv targets c) = (c + Z.of_nat (length targets))%Z /\
    map conn_to calls = targets /\
    Forall (fun x => conn_from x = liv) calls /\
    map conn_counter calls = counters_from c (length targets).
Proof.
  induction targets as [|[p fname] rest IH]; intros c.
  - cbn. split; [lia | split; [reflexivity | split; [constructor | reflexivity]]].
  - cbn [connect_to]. specialize (IH (c + 1)%Z).
    destruct (connect_to liv rest (c + 1)) as [calls c'] eqn:E.
    cbn [fst snd] in *. destruct IH as (Hc & Ht & Hf & Hk).
    split; [cbn [length]; lia|]. split; [cbn [map conn_to fst snd]; rewrite Ht; reflexivity|].
    split; [constructor; [reflexivity | exact Hf]|].
    cbn [map length]. rewrite Hk, counters_from_S. reflexivity.
Qed.

Lemma connect_external_spec (liv : Point A) (i : nat)
    (functions : list (list (Point A))) :
  forall j c,
    let calls := fst (connect_external liv i j functions c) in
    snd (connect_external liv i j functions c) = (c + Z.of_nat (length calls))%Z /\
    map conn_to calls = other_targets i j functions /\
    Forall (fun x => conn_from x = liv) calls /\
    map conn_counter calls = counters_from c (length calls).
Proof.
  induction functions as [|funcs rest IH]; intros j c.
  - cbn. split; [lia | split; [reflexivity | split; [constructor | reflexivity]]].
  - cbn [connect_external other_targets].
    destruct (Nat.eqb i j); [apply IH|].
    pose proof (connect_to_spec liv (combine funcs Config.FUNCTIONS) c) as H1.
    destruct (connect_to liv (combine funcs Config.FUNCTIONS) c) as [calls1 c1].
    cbn [fst snd] in H1. destruct H1 as (Hc1 & Ht1 & Hf1 & Hk1).
    specialize (IH (S j) c1).
    destruct (connect_external liv i (S j) rest c1) as [calls2 c2].
    cbn [fst snd] in *. destruct IH as (Hc2 & Ht2 & Hf2 & Hk2).
    assert (Hl1 : length calls1 = length (combine funcs Config.FUNCTIONS)).
    { rewrite <- Ht1, length_map. reflexivity. }
    repeat split.
    + rewrite length_app. lia.
    + rewrite map_app, Ht1, Ht2. reflexivity.
    + apply Forall_app. split; assumption.
    + rewrite map_app, Hk1, Hk2, length_app, counters_from_app, Hl1.
      f_equal. f_equal. lia.
Qed.

(** The targets of one living node: its own cell's, then the others'. *)
Lemma other_targets_past (i j : nat) (functions : list (list (Point A))) :
  (i < j)%nat -> other_targets i j functions = all_targets functions.
Proof.
  revert j. induction functions as [|funcs rest IH]; intros j Hij; [reflexivity|].
  cbn [other_targets]. rewrite (proj2 (Nat.eqb_neq i j)) by lia.
  rewrite IH by lia. reflexivity.
Qed.

Lemma own_and_other_targets (i : nat) (functions : list (list (Point A))) :
  forall j ring,
    (j <= i)%nat ->
    nth_error functions (i - j) = Some ring ->
    Permutation (combine ring Config.FUNCTIONS ++ other_targets i j functions)
                (all_targets functions).
Proof.
  induction functions as [|funcs rest IH]; intros j ring Hji Hn.
  - destruct (i - j)%nat; discriminate.
  - cbn [other_targets]. destruct (Nat.eqb i j) eqn:E.
    + apply Nat.eqb_eq in E. subst j. rewrite Nat.sub_diag in Hn.
      inversion Hn; subst funcs. rewrite other_targets_past by lia.
      apply Permutation_refl.
    + apply Nat.eqb_neq in E.
      assert (Hs : (i - j = S (i - S j))%nat) by lia.
      rewrite Hs in Hn. cbn [nth_error] in Hn.
      unfold all_targets. cbn [map concat]. fold (all_targets rest).
      rewrite app_assoc.
      eapply Permutation_trans.
      * apply Permutation_app_tail. apply Permutation_app_comm.
      * rewrite <- app_assoc. apply Permutation_app_head.
        apply IH; [lia | exact Hn].
Qed.

Lemma connect_from_spec (living : list (Point A)) :
  forall (i : nat) (functions : list (list (Point A))) (c : Z),
    (i + length living <= length functions)%nat ->
    exists groups c',
      connect_from i living functions c = Some (concat groups, c') /\
      Forall2 (fun liv g =>
                 Forall (fun x => conn_from x = liv) g /\
                 Permutation (map conn_to g) (all_targets functions))
              living groups /\
      c' = (c + Z.of_nat (length (concat groups)))%Z /\
      map conn_counter (concat groups)
      = counters_from c (length (concat groups)).
Proof.
  induction living as [|liv rest IH]; intros i functions c Hlen.
  - exists [], c. cbn.
    split; [reflexivity | split; [constructor | split; [lia | reflexivity]]].
  - cbn [length] in Hlen. cbn [connect_from].
    destruct (nth_error functions i) as [ring|] eqn:En;
      [|apply nth_error_None in En; lia].
    pose proof (connect_to_spec liv (combine ring Config.FUNCTIONS) c) as H1.
    destruct (connect_to liv (combine ring Config.FUNCTIONS) c) as [internal c1].
    cbn [fst snd] in H1. destruct H1 as (Hc1 & Ht1 & Hf1 & Hk1).
    pose proof (connect_external_spec liv i functions 0 c1) as H2.
    destruct (connect_external liv i 0 functions c1) as [external c2].
    cbn [fst snd] in H2. destruct H2 as (Hc2 & Ht2 & Hf2 & Hk2).
    destruct (IH (S i) functions c2) as (groups & c3 & Hs & Hg & Hc3 & Hk3); [lia|].
    exists ((internal ++ external) :: groups), c3.
    rewrite Hs. cbn [concat]. rewrite <- app_assoc.
    split; [reflexivity|].
    assert (Hl1 : length internal = length (combine ring Config.FUNCTIONS)).
    { rewrite <- Ht1, length_map. reflexivity. }
    split; [|split].
    + constructor; [|exact Hg]. split.
      * apply Forall_app. split; assumption.
      * rewrite map_app, Ht1, Ht2.
        apply own_and_other_targets; [lia|].
        rewrite Nat.sub_0_r. exact En.
    + rewrite !length_app. lia.
    + rewrite !map_app, Hk1, Hk2, Hk3, !length_app, !counters_from_app, Hl1.
      rewrite Hc2, Hc1. repeat f_equal; lia.
Qed.

Lemma groups_length (living : list (Point A)) (groups : list (list Connection))
    (targets : list (Point A * String.string)) :
  Forall2 (fun liv g =>
             Forall (fun x => conn_from x = liv) g /\
             Permutation (map conn_to g) targets)
          living groups ->
  length (concat groups) = (length living * length targets)%nat.
Proof.
  intros Hg. induction Hg as [|liv g living' groups' [_ Hp] _ IH].
  - reflexivity.
  - cbn [concat length]. rewrite length_app, IH.
    rewrite <- (Permutation_length Hp), length_map. lia.
Qed.

Lemma all_targets_length (functions : list (list (Point A))) :
  (forall ring, In ring functions -> length ring = length Config.FUNCTIONS) ->
  length (all_targets functions)
  = (length Config.FUNCTIONS * length functions)%nat.
Proof.
  intros Hnine. unfold all_targets.
  induction functions as [|ring rest IH]; [simpl; lia|].
  cbn [map concat]. rewrite length_app, length_combine.
  rewrite (Hnine ring (or_introl eq_refl)), Nat.min_id.
  rewrite IH by (intros r Hr; apply Hnine; right; exact Hr).
  cbn [length]. lia.
Qed.

End ConnectionFacts.

(** X15. The connection loops, when every living node has its entry in
    [function_centres]: the lines come in one group per living node, in
    order; the lines of a group all start at that living node and reach
    every function point of every cell exactly once (its own cell's first,
    then the others'); [counter] goes 1, 2, 3, ... with the lines and ends at
    their number, the number of living nodes times the number of function
    points.  With nine points in every ring and as many rings as living
    nodes, that is [total_connections]: the progress bar is complete on the
    last line and not before. *)
Theorem connections_join_every_living_node_to_every_function_point :
  forall (A : Type) (NumA : Num A)
         (living_centres : list (Point A)) (function_centres : list (list (Point A))),
    (length living_centres <= length function_centres)%nat ->
    exists groups counter,
      connections living_centres function_centres = Some (concat groups, counter) /\
      Forall2 (fun liv g =>
                 Forall (fun x => conn_from x = liv) g /\
                 Permutation (map conn_to g) (all_targets function_centres))
              living_centres groups /\
      counter = Z.of_nat (length (concat groups)) /\
      map conn_counter (concat groups)
      = counters_from 0 (length (concat groups)) /\
      length (concat groups)
      = (length living_centres * length (all_targets function_centres))%nat /\
      ((forall ring, In ring function_centres ->
                     length ring = length Config.FUNCTIONS) ->
       length function_centres = length living_centres ->
       counter = total_connections (Z.of_nat (length living_centres))).
Proof.
  intros A NumA living functions Hlen.
  destruct (connect_from_spec living 0 functions 0%Z Hlen)
    as (groups & counter & Hs & Hg & Hc & Hk).
  exists groups, counter.
  pose proof (groups_length living groups (all_targets functions) Hg) as Hcount.
  split; [exact Hs | split; [exact Hg | split; [lia | split; [exact Hk|]]]].
  split; [exact Hcount|].
  intros Hnine Hsame. rewrite Hc, Hcount. unfold total_connections.
  rewrite (all_targets_length functions Hnine), Hsame. lia.
Qed.

Lemma connections_join_every_living_node_to_every_function_point_witness :
  exists groups counter,
    connections [(f64 0, f64 0); (f64 4, f64 4)]
                [[(f64 1, f64 0)]; [(f64 5, f64 4); (f64 3, f64 4)]]
    = Some (concat groups, counter)
    /\ counter = 6%Z.
Proof.
  destruct (connections_join_every_living_node_to_every_function_point
              B64.t _ [(f64 0, f64 0); (f64 4, f64 4)]
              [[(f64 1, f64 0)]; [(f64 5, f64 4); (f64 3, f64 4)]]
              (le_n 2))
    as (groups & counter & Hs & _ & Hc & _ & Hl & _).
  exists groups, counter. split; [exact Hs|].
  rewrite Hc, Hl. reflexivity.
Defined.

(** ** Line widths of the interactive variant *)

Lemma draw_smart_line_canvas {A : Type} `{NumA : Num A}
    (p1 p2 : Point A) (cs : list (Point A)) (rs : list A)
    (color : String.string) (lw_out lw_in : A) (z : Z) (w : World A) :
  let w' := draw_smart_line p1 p2 cs rs color lw_out lw_in z w in
  canvas w' = canvas w ++ map (plot_segment color lw_out lw_in z)
                              (smart_line_segments p1 p2 cs rs) /\
  rng w' = rng w /\ rng_pos w' = rng_pos w /\ stdout w' = stdout w.
Proof.
  unfold draw_smart_line.
  generalize (smart_line_segments p1 p2 cs rs) as segs. intros segs. revert w.
  induction segs as [|seg segs IH]; intros w; cbn [fold_left map].
  - rewrite app_nil_r. auto.
  - destruct (IH (ax_plot (plot_segment color lw_out lw_in z seg) w))
      as (Hc & Hr & Hp & Ho).
    rewrite Hc, Hr, Hp, Ho. cbn [ax_plot canvas rng rng_pos stdout].
    rewrite <- app_assoc. auto.
Qed.

(** X16. In exact arithmetic, [_draw_line_with_jitter] takes one random
    number, draws the pieces of the line with the outside width
    [lw_out = max(0.2, base * (1 + jitter))], never below 0.2, and the
    inside width three quarters of it: the floor 0.15 of the inside width
    never applies, and inside pieces are always thinner than outside ones.
    With the random number in [0, 1), a jitter setting in [0, 1] and a
    non-negative base width, the outside width is at most the larger of
    0.2 and twice the base width. *)
Theorem jittered_line_widths :
  forall (line_width_base line_width_jitter : R)
         (p1 p2 : Point R) (color : String.string)
         (circle_centres : list (Point R)) (circle_radii : list R)
         (zorder_lines : Z) (w : World R),
    let u := rng w (rng_pos w) in
    let lw_out :=
      Rmax (2 / 10) (line_width_base * (1 + (u - 5 / 10) * 2 * line_width_jitter)) in
    let w' := _draw_line_with_jitter line_width_base line_width_jitter
                                     p1 p2 color circle_centres circle_radii
                                     zorder_lines w in
    canvas w'
    = canvas w
      ++ map (plot_segment color lw_out (lw_out * (75 / 100))%R zorder_lines)
             (smart_line_segments p1 p2 circle_centres circle_radii)
    /\ rng_pos w' = S (rng_pos w)
    /\ (2 / 10 <= lw_out)%R
    /\ (lw_out * (75 / 100) < lw_out)%R
    /\ (15 / 100 <= lw_out * (75 / 100))%R
    /\ ((0 <= u < 1)%R -> (0 <= line_width_jitter <= 1)%R ->
        (0 <= line_width_base)%R ->
        (lw_out <= Rmax (2 / 10) (2 * line_width_base))%R).
Proof.
  intros base jit p1 p2 color cs rs z w u lw_out w'.
  assert (Hout : py_max (lit 2 10) (base * (of_Z 1 + (u - lit 5 10) * of_Z 2 * jit))%num
                 = lw_out).
  { rewrite py_max_R. reflexivity. }
  assert (Hlow : (2 / 10 <= lw_out)%R) by apply Rmax_l.
  assert (Hbound : (0 <= u < 1)%R -> (0 <= jit <= 1)%R -> (0 <= base)%R ->
                   (lw_out <= Rmax (2 / 10) (2 * base))%R).
  { intros Hu Hj Hb. unfold lw_out. apply Rmax_lub; [apply Rmax_l|].
    apply Rle_trans with (2 * base)%R; [|apply Rmax_r].
    assert (Hx : ((u - 5 / 10) * 2 * jit <= 1)%R) by nra.
    apply Rle_trans with (base * (1 + 1))%R; [|lra].
    apply Rmult_le_compat_l; lra. }
  unfold w', _draw_line_with_jitter. cbv zeta. fold u. rewrite Hout.
  clearbody lw_out.
  assert (Hin : py_max (lit 15 100) (lw_out * lit 75 100)%num
                = (lw_out * (75 / 100))%R).
  { rewrite py_max_R. change (lit 15 100) with (15 / 100)%R.
    change (lw_out * lit 75 100)%num with (lw_out * (75 / 100))%R.
    apply Rmax_right. lra. }
  rewrite Hin.
  match goal with |- context [draw_smart_line ?a ?b ?c ?d ?e ?f ?g ?h ?i] =>
    destruct (draw_smart_line_canvas a b c d e f g h i) as (Hc & _ & Hp & _)
  end.
  split; [exact Hc | split; [exact Hp | split; [exact Hlow |]]].
  split; [lra | split; [lra | exact Hbound]].
Qed.

Lemma jittered_line_widths_witness :
  let w := {| rng := fun _ => (1 / 2)%R; rng_pos := 0; stdout := []; canvas := [] |} in
  (Rmax (2 / 10) (18 / 10 * (1 + (1 / 2 - 5 / 10) * 2 * (35 / 100)))
   <= Rmax (2 / 10) (2 * (18 / 10)))%R.
Proof.
  intros w.
  refine (proj2 (proj2 (proj2 (proj2 (proj2
            (jittered_line_widths (18 / 10)%R (35 / 100)%R (0, 0)%R (1, 0)%R
                                  String.EmptyString [] [] 10%Z w))))) _ _ _).
  - cbn. lra.
  - lra.
  - lra.
Defined.

(** ** The colour handlers and the redraw *)

Section RedrawFacts.
Context {A : Type} `{NumA : Num A}.
Variable plot_colour : Text.str -> String.string.

Lemma jitter_line_effect (g : Gui A) (p1 p2 : Point A) (col : String.string)
    (cs : list (Point A)) (rs : list A) (w : World A) :
  let w' := _draw_line_with_jitter (line_width_base g) (line_width_jitter g)
                                   p1 p2 col cs rs (z_lines g) w in
  rng w' = rng w /\ rng_pos w' = S (rng_pos w) /\ stdout w' = stdout w /\
  canvas w'
  = canvas w ++ map (plot_segment col
                       (fst (jitter_widths g (rng w (rng_pos w))))
                       (snd (jitter_widths g (rng w (rng_pos w))))
                       (z_lines g))
                    (smart_line_segments p1 p2 cs rs).
Proof.
  unfold _draw_line_with_jitter. cbv zeta.
  match goal with |- context [draw_smart_line ?a ?b ?c ?d ?e ?f ?g ?h ?i] =>
    destruct (draw_smart_line_canvas a b c d e f g h i) as (Hc & Hr & Hp & Ho)
  end.
  rewrite Hc, Hr, Hp, Ho. cbn [rng rng_pos stdout canvas].
  repeat split; reflexivity.
Qed.

Lemma draw_connections_effect (g : Gui A) (cs : list (Point A)) (rs : list A)
    (conns : list Connection) :
  forall w : World A,
    let w' := draw_connections plot_colour g cs rs conns w in
    rng w' = rng w /\
    rng_pos w' = (rng_pos w + length conns)%nat /\
    stdout w' = stdout w /\
    canvas w' = canvas w ++ drawn_lines plot_colour g cs rs conns (rng w) (rng_pos w).
Proof.
  induction conns as [|c rest IH]; intros w; cbn [draw_connections fold_left].
  - cbn [drawn_lines length]. rewrite app_nil_r, Nat.add_0_r. auto.
  - destruct (jitter_line_effect g (conn_from c) (fst (conn_to c))
                (line_colour plot_colour g (snd (conn_to c))) cs rs w)
      as (Hr & Hp & Ho & Hc).
    specialize (IH (_draw_line_with_jitter (line_width_base g) (line_width_jitter g)
                      (conn_from c) (fst (conn_to c))
                      (line_colour plot_colour g (snd (conn_to c))) cs rs
                      (z_lines g) w)).
    unfold draw_connections in IH. cbv zeta in IH.
    destruct IH as (IHr & IHp & IHo & IHc).
    rewrite IHr, IHp, IHo, IHc, Hr, Hp, Ho, Hc.
    cbn [drawn_lines length]. rewrite <- app_assoc.
    repeat split; try reflexivity. lia.
Qed.

(** Without their widths the lines do not depend on the random stream. *)
Lemma drawn_lines_without_width (g : Gui A) (cs : list (Point A)) (rs : list A)
    (conns : list Connection) :
  forall (random random' : nat -> A) (pos pos' : nat),
    map without_width (drawn_lines plot_colour g cs rs conns random pos)
    = map without_width (drawn_lines plot_colour g cs rs conns random' pos').
Proof.
  induction conns as [|c rest IH]; intros random random' pos pos'; [reflexivity|].
  cbn [drawn_lines]. rewrite !map_app, !map_map.
  rewrite (IH random random' (S pos) (S pos')). f_equal.
  apply map_ext. intros [[s e] o]. reflexivity.
Qed.

Lemma labels_do_not_depend_on_world (ci : nat) (cells : list (Point A))
    (functions : list (list (Point A))) :
  draw_circles_and_labels ci cells functions = None \/
  draw_circles_and_labels ci cells functions = Some tt.
Proof.
  destruct (draw_circles_and_labels ci cells functions) as [[]|]; auto.
Qed.

(** A redraw that returns: what it did. *)
Lemma redraw_returns (g : Gui A) (w w1 : World A) :
  redraw plot_colour g false w = Some w1 ->
  exists centres radii conns n,
    all_circles (cell_centres (layout g)) (function_centres (layout g))
    = Some (centres, radii) /\
    connections (living_centres (layout g)) (function_centres (layout g))
    = Some (conns, n) /\
    rng w1 = rng w /\
    rng_pos w1 = (rng_pos w + length conns)%nat /\
    stdout w1 = stdout w /\
    canvas w1 = drawn_lines plot_colour g centres radii conns (rng w) (rng_pos w).
Proof.
  unfold redraw. cbv zeta.
  destruct (all_circles _ _) as [[centres radii]|]; [|discriminate].
  destruct (connections _ _) as [[conns n]|]; [|discriminate].
  destruct (draw_circles_and_labels _ _ _); [|discriminate].
  intros H. inversion H; subst w1. clear H.
  exists centres, radii, conns, n.
  split; [reflexivity | split; [reflexivity|]].
  match goal with |- context [draw_connections _ _ _ _ _ ?w0] =>
    destruct (draw_connections_effect g centres radii conns w0) as (Hr & Hp & Ho & Hc)
  end.
  rewrite Hr, Hp, Ho, Hc. cbn [rng rng_pos stdout canvas app]. auto.
Qed.

(** Whether a redraw raises depends on the layout alone. *)
Lemma redraw_returns_again (g : Gui A) (w w1 w' : World A) :
  redraw plot_colour g false w = Some w1 ->
  exists w2, redraw plot_colour g false w' = Some w2.
Proof.
  unfold redraw. cbv zeta.
  destruct (all_circles _ _) as [[centres radii]|]; [|discriminate].
  destruct (connections _ _) as [[conns n]|]; [|discriminate].
  destruct (draw_circles_and_labels _ _ _); [|discriminate].
  intros _. eexists. reflexivity.
Qed.

(** Two redraws of one state, from any two worlds: the same lines up to
    their widths, each taking as many random numbers as there are
    connections. *)
Lemma redraw_twice (g : Gui A) (w w1 w' : World A) :
  redraw plot_colour g false w = Some w1 ->
  exists w2,
    redraw plot_colour g false w' = Some w2 /\
    map without_width (canvas w2) = map without_width (canvas w1) /\
    (rng_pos w2 - rng_pos w' = rng_pos w1 - rng_pos w)%nat /\
    rng w2 = rng w' /\ stdout w2 = stdout w'.
Proof.
  intros H1. destruct (redraw_returns_again g w w1 w' H1) as [w2 H2].
  exists w2. split; [exact H2|].
  destruct (redraw_returns g w w1 H1)
    as (cs & rs & conns & n & Hc & Hn & Hr & Hp & Ho & Hl).
  destruct (redraw_returns g w' w2 H2)
    as (cs' & rs' & conns' & n' & Hc' & Hn' & Hr' & Hp' & Ho' & Hl').
  rewrite Hc in Hc'. rewrite Hn in Hn'. inversion Hc'; inversion Hn'; subst.
  rewrite Hl, Hl'. split; [apply drawn_lines_without_width|].
  split; [lia | split; assumption].
Qed.

End RedrawFacts.

(** X9. [_update_font_color] changes the one font colour the target names,
    to the cleaned text, and no other field; it then redraws, and what the
    redraw plots does not depend on the font colours: the world is the one
    a plain [redraw] of the old state gives.  A second submission of the
    same text leaves the state as the first left it, but it is no
    no-op: when the first redraw returned, the second clears the axes and
    plots the same lines again, the same up to their widths, taking as
    many fresh random numbers for the widths as there are connections. *)
Theorem update_font_color_twice :
  forall (A : Type) (NumA : Num A)
         (isspace : Text.char -> bool) (lower : Text.str -> Text.str)
         (plot_colour : Text.str -> String.string)
         (g : Gui A) (text : Text.str) (target_is_living : bool) (w : World A),
    let g1 := fst (_update_font_color isspace lower plot_colour g text
                                      target_is_living w) in
    let r1 := snd (_update_font_color isspace lower plot_colour g text
                                      target_is_living w) in
    (layout g1 = layout g /\ func_color_map g1 = func_color_map g /\
     line_width_base g1 = line_width_base g /\
     line_width_jitter g1 = line_width_jitter g /\
     lines_on_top g1 = lines_on_top g) /\
    (if target_is_living
     then font_color_living g1
          = _clean_color isspace lower text (font_color_living g) false /\
          font_color_function g1 = font_color_function g
     else font_color_function g1
          = _clean_color isspace lower text (font_color_function g) true /\
          font_color_living g1 = font_color_living g) /\
    r1 = redraw plot_colour g false w /\
    (forall w' : World A,
        fst (_update_font_color isspace lower plot_colour g1 text
                                target_is_living w') = g1) /\
    (forall w1 : World A,
        r1 = Some w1 ->
        exists (w2 : World A) (centres : list (Point A)) (radii : list A)
               (conns : list Connection) (n : Z),
          snd (_update_font_color isspace lower plot_colour g1 text
                                  target_is_living w1) = Some w2 /\
          all_circles (cell_centres (layout g)) (function_centres (layout g))
          = Some (centres, radii) /\
          connections (living_centres (layout g)) (function_centres (layout g))
          = Some (conns, n) /\
          canvas w1 = drawn_lines plot_colour g centres radii conns
                                  (rng w) (rng_pos w) /\
          canvas w2 = drawn_lines plot_colour g centres radii conns
                                  (rng w) (rng_pos w + length conns) /\
          map without_width (canvas w2) = map without_width (canvas w1) /\
          rng_pos w1 = (rng_pos w + length conns)%nat /\
          rng_pos w2 = (rng_pos w1 + length conns)%nat).
Proof.
  intros A NumA isspace lower plot_colour g text target w g1 r1.
  assert (Hsame : forall w0, redraw plot_colour g1 false w0
                             = redraw plot_colour g false w0).
  { intros w0. unfold g1, _update_font_color. destruct target; reflexivity. }
  split; [unfold g1, _update_font_color; destruct target; cbn; auto 6|].
  split; [unfold g1, _update_font_color; destruct target; cbn; auto|].
  split; [unfold r1, g1, _update_font_color; destruct target; reflexivity|].
  split.
  { intros w'. unfold g1, _update_font_color.
    destruct target;
      cbn [fst layout func_color_map font_color_living font_color_function
           line_width_base line_width_jitter lines_on_top];
      rewrite clean_color_twice; reflexivity. }
  intros w1 H1.
  assert (Hr : redraw plot_colour g false w = Some w1).
  { rewrite <- H1. unfold r1, _update_font_color. destruct target; reflexivity. }
  assert (H2 : snd (_update_font_color isspace lower plot_colour g1 text target w1)
               = redraw plot_colour g false w1).
  { unfold g1, _update_font_color. destruct target; reflexivity. }
  destruct (redraw_returns_again plot_colour g w w1 w1 Hr) as [w2 Hw2].
  destruct (redraw_returns plot_colour g w w1 Hr)
    as (cs & rs & conns & n & Hc & Hn & Hrng & Hp & Ho & Hl).
  destruct (redraw_returns plot_colour g w1 w2 Hw2)
    as (cs' & rs' & conns' & n' & Hc' & Hn' & Hrng' & Hp' & Ho' & Hl').
  rewrite Hc in Hc'. rewrite Hn in Hn'. inversion Hc'; inversion Hn'; subst cs' rs' conns' n'.
  exists w2, cs, rs, conns, n.
  split; [rewrite H2; exact Hw2|].
  split; [exact Hc | split; [exact Hn | split; [exact Hl|]]].
  split; [rewrite Hl', Hrng, Hp; reflexivity|].
  split; [rewrite Hl, Hl'; apply drawn_lines_without_width|].
  split; [exact Hp | exact Hp'].
Qed.

(** X10. [_update_function_color]: afterwards the function's entry of the
    colour map is the cleaned text (cleaned against the old entry, or
    against "#000000" when the function had none), every other entry reads
    as before, the keys keep their order with the function's name appended
    only if it was missing, colour-shaped values stay colour-shaped, and no
    other field changes.  It then redraws with the new map: the lines to
    the function points of that name take the cleaned colour, the others
    keep theirs.  A second submission of the same text leaves the state as
    the first left it, but it is no no-op: when the first redraw returned,
    the second plots the same lines again, the same up to their widths,
    taking as many fresh random numbers as there are connections. *)
Theorem update_function_color_sets_one_entry :
  forall (A : Type) (NumA : Num A)
         (isspace : Text.char -> bool) (lower : Text.str -> Text.str)
         (plot_colour : Text.str -> String.string)
         (g : Gui A) (fname text : Text.str) (w : World A),
    let cleaned := _clean_color isspace lower text
                     (dict_get (func_color_map g) fname Text.black) false in
    let g1 := fst (_update_function_color isspace lower plot_colour g fname text w) in
    let r1 := snd (_update_function_color isspace lower plot_colour g fname text w) in
    (forall default, dict_get (func_color_map g1) fname default = cleaned) /\
    (forall other default,
        other <> fname ->
        dict_get (func_color_map g1) other default
        = dict_get (func_color_map g) other default) /\
    map fst (func_color_map g1)
    = (if existsb (Text.eqb fname) (map fst (func_color_map g))
       then map fst (func_color_map g)
       else map fst (func_color_map g) ++ [fname]) /\
    (Forall colour_shaped (map snd (func_color_map g)) ->
     Forall colour_shaped (map snd (func_color_map g1))) /\
    (layout g1 = layout g /\
     font_color_living g1 = font_color_living g /\
     font_color_function g1 = font_color_function g /\
     line_width_base g1 = line_width_base g /\
     line_width_jitter g1 = line_width_jitter g /\
     lines_on_top g1 = lines_on_top g) /\
    r1 = redraw plot_colour g1 false w /\
    (forall name : String.string,
        (text_of_string name = fname ->
         line_colour plot_colour g1 name = plot_colour cleaned) /\
        (text_of_string name <> fname ->
         line_colour plot_colour g1 name = line_colour plot_colour g name)) /\
    (forall w' : World A,
        fst (_update_function_color isspace lower plot_colour g1 fname text w')
        = g1) /\
    (forall w1 : World A,
        r1 = Some w1 ->
        exists (w2 : World A) (centres : list (Point A)) (radii : list A)
               (conns : list Connection) (n : Z),
          snd (_update_function_color isspace lower plot_colour g1 fname text w1)
          = Some w2 /\
          all_circles (cell_centres (layout g)) (function_centres (layout g))
          = Some (centres, radii) /\
          connections (living_centres (layout g)) (function_centres (layout g))
          = Some (conns, n) /\
          canvas w1 = drawn_lines plot_colour g1 centres radii conns
                                  (rng w) (rng_pos w) /\
          canvas w2 = drawn_lines plot_colour g1 centres radii conns
                                  (rng w) (rng_pos w + length conns) /\
          map without_width (canvas w2) = map without_width (canvas w1) /\
          rng_pos w1 = (rng_pos w + length conns)%nat /\
          rng_pos w2 = (rng_pos w1 + length conns)%nat).
Proof.
  intros A NumA isspace lower plot_colour g fname text w cleaned g1 r1.
  assert (Hmap : func_color_map g1 = dict_set (func_color_map g) fname cleaned)
    by reflexivity.
  assert (Hlay : layout g1 = layout g) by reflexivity.
  assert (Hfix : forall w', fst (_update_function_color isspace lower plot_colour
                                   g1 fname text w') = g1).
  { intros w'.
    assert (Hc2 : _clean_color isspace lower text
                    (dict_get (func_color_map g1) fname Text.black) false
                  = cleaned).
    { rewrite Hmap, dict_get_set_same. unfold cleaned. apply clean_color_twice. }
    unfold _update_function_color at 1. cbn [fst].
    rewrite Hc2, Hmap, dict_set_twice. reflexivity. }
  split; [intros default; rewrite Hmap; apply dict_get_set_same|].
  split; [intros other default Hne; rewrite Hmap; apply dict_get_set_other; exact Hne|].
  split; [rewrite Hmap; apply dict_set_keys|].
  split.
  { intros Hm. rewrite Hmap. apply dict_values_shaped; [|exact Hm].
    apply clean_color_shaped. apply dict_get_shaped; [|exact Hm].
    split; [discriminate | intros _; right; reflexivity]. }
  split; [unfold g1, _update_function_color; cbn; auto 7|].
  split; [reflexivity|].
  split.
  { intros name. unfold line_colour. rewrite Hmap. split.
    - intros <-. rewrite dict_get_set_same. reflexivity.
    - intros Hne. rewrite dict_get_set_other by exact Hne. reflexivity. }
  split; [exact Hfix|].
  intros w1 H1.
  assert (Hr : redraw plot_colour g1 false w = Some w1) by exact H1.
  assert (H2 : snd (_update_function_color isspace lower plot_colour g1 fname text w1)
               = redraw plot_colour g1 false w1).
  { pose proof (Hfix w1) as Hf. unfold _update_function_color in *.
    cbn [fst snd] in *. rewrite Hf. reflexivity. }
  destruct (redraw_returns_again plot_colour g1 w w1 w1 Hr) as [w2 Hw2].
  destruct (redraw_returns plot_colour g1 w w1 Hr)
    as (cs & rs & conns & n & Hc & Hn & Hrng & Hp & Ho & Hl).
  destruct (redraw_returns plot_colour g1 w1 w2 Hw2)
    as (cs' & rs' & conns' & n' & Hc' & Hn' & Hrng' & Hp' & Ho' & Hl').
  rewrite Hc in Hc'. rewrite Hn in Hn'. inversion Hc'; inversion Hn'; subst cs' rs' conns' n'.
  rewrite Hlay in Hc, Hn.
  exists w2, cs, rs, conns, n.
  split; [rewrite H2; exact Hw2|].
  split; [exact Hc | split; [exact Hn | split; [exact Hl|]]].
  split; [rewrite Hl', Hrng, Hp; reflexivity|].
  split; [rewrite Hl, Hl'; apply drawn_lines_without_width|].
  split; [exact Hp | exact Hp'].
Qed.

(** A figure of one cell with two function points, for running the
    handlers in binary64. *)
Lemma one_cell_figure_redraws :
  exists w1 : World B64.t,
    redraw (fun s => String.string_of_list_ascii (map Ascii.ascii_of_N s))
      {| layout := {| cell_centres := [(lit 1 2, lit 1 2)];
                      living_centres := [(lit 1 2, lit 1 2)];
                      function_centres := [[(lit 6 10, lit 1 2); (lit 1 2, lit 62 100)]];
                      dragging_idx := None; last_xy := None |};
         func_color_map := [];
         font_color_living := Text.black;
         font_color_function := Text.auto;
         line_width_base := lit 18 10;
         line_width_jitter := lit 35 100;
         lines_on_top := false |}
      false
      {| rng := fun i => if Nat.even i then lit 1 4 else lit 3 4;
         rng_pos := 0; stdout := []; canvas := [] |}
    = Some w1.
Proof. eexists. vm_compute. reflexivity. Qed.

Lemma update_font_color_twice_witness :
  exists (w1 w2 : World B64.t),
    let pc := fun s => String.string_of_list_ascii (map Ascii.ascii_of_N s) in
    let g := {| layout := {| cell_centres := [(lit 1 2, lit 1 2)];
                             living_centres := [(lit 1 2, lit 1 2)];
                             function_centres :=
                               [[(lit 6 10, lit 1 2); (lit 1 2, lit 62 100)]];
                             dragging_idx := None; last_xy := None |};
                func_color_map := [];
                font_color_living := Text.black;
                font_color_function := Text.auto;
                line_width_base := lit 18 10;
                line_width_jitter := lit 35 100;
                lines_on_top := false |} in
    let w := {| rng := fun i => if Nat.even i then lit 1 4 else lit 3 4;
                rng_pos := 0; stdout := []; canvas := [] |} in
    let text := [35; 102; 102; 102]%N in
    snd (_update_font_color ascii_isspace ascii_lower pc g text true w) = Some w1 /\
    snd (_update_font_color ascii_isspace ascii_lower pc
           (fst (_update_font_color ascii_isspace ascii_lower pc g text true w))
           text true w1) = Some w2 /\
    map without_width (canvas w2) = map without_width (canvas w1) /\
    rng_pos w1 = 2%nat /\ rng_pos w2 = 4%nat.
Proof.
  destruct one_cell_figure_redraws as [w1 H1].
  match type of H1 with redraw ?pc ?g false ?w = _ =>
    destruct (proj2 (proj2 (proj2 (proj2
                (update_font_color_twice B64.t _ ascii_isspace ascii_lower pc g
                   [35; 102; 102; 102]%N true w)))) w1 H1)
      as (w2 & cs & rs & conns & n & H2 & Hc & Hn & _ & _ & Hsame & Hp1 & Hp2)
  end.
  exists w1, w2. cbv zeta.
  split; [exact H1 | split; [exact H2 | split; [exact Hsame|]]].
  assert (Hlen : length conns = 2%nat).
  { revert Hn. clear. vm_compute. intros Hn. inversion Hn. reflexivity. }
  rewrite Hlen in Hp1, Hp2.
  split; [exact Hp1 | rewrite Hp2, Hp1; reflexivity].
Defined.

Lemma one_cell_figure_recoloured :
  exists w1 : World B64.t,
    snd (_update_function_color ascii_isspace ascii_lower
           (fun s => String.string_of_list_ascii (map Ascii.ascii_of_N s))
           {| layout := {| cell_centres := [(lit 1 2, lit 1 2)];
                           living_centres := [(lit 1 2, lit 1 2)];
                           function_centres :=
                             [[(lit 6 10, lit 1 2); (lit 1 2, lit 62 100)]];
                           dragging_idx := None; last_xy := None |};
              func_color_map := [];
              font_color_living := Text.black;
              font_color_function := Text.auto;
              line_width_base := lit 18 10;
              line_width_jitter := lit 35 100;
              lines_on_top := false |}
           (text_of_string (hd String.EmptyString Config.FUNCTIONS))
           [32; 35; 102; 102; 102]%N
           {| rng := fun i => if Nat.even i then lit 1 4 else lit 3 4;
              rng_pos := 0; stdout := []; canvas := [] |})
    = Some w1.
Proof. eexists. vm_compute. reflexivity. Qed.

Lemma update_function_color_sets_one_entry_witness :
  exists (w1 w2 : World B64.t),
    let pc := fun s => String.string_of_list_ascii (map Ascii.ascii_of_N s) in
    let g := {| layout := {| cell_centres := [(lit 1 2, lit 1 2)];
                             living_centres := [(lit 1 2, lit 1 2)];
                             function_centres :=
                               [[(lit 6 10, lit 1 2); (lit 1 2, lit 62 100)]];
                             dragging_idx := None; last_xy := None |};
                func_color_map := [];
                font_color_living := Text.black;
                font_color_function := Text.auto;
                line_width_base := lit 18 10;
                line_width_jitter := lit 35 100;
                lines_on_top := false |} in
    let w := {| rng := fun i => if Nat.even i then lit 1 4 else lit 3 4;
                rng_pos := 0; stdout := []; canvas := [] |} in
    let fname := text_of_string (hd String.EmptyString Config.FUNCTIONS) in
    let text := [32; 35; 102; 102; 102]%N in
    snd (_update_function_color ascii_isspace ascii_lower pc g fname text w)
    = Some w1 /\
    snd (_update_function_color ascii_isspace ascii_lower pc
           (fst (_update_function_color ascii_isspace ascii_lower pc g fname text w))
           fname text w1) = Some w2 /\
    map without_width (canvas w2) = map without_width (canvas w1) /\
    dict_get (func_color_map
                (fst (_update_function_color ascii_isspace ascii_lower pc g
                        fname text w))) fname Text.black
    = [35; 102; 102; 102]%N.
Proof.
  destruct one_cell_figure_recoloured as [w1 H1].
  match type of H1 with
    snd (_update_function_color _ _ ?pc ?g ?fname ?text ?w) = _ =>
    pose proof (update_function_color_sets_one_entry B64.t _ ascii_isspace
                  ascii_lower pc g fname text w) as T
  end.
  cbv zeta in T.
  destruct T as (Hget & _ & _ & _ & _ & _ & _ & _ & Hsecond).
  destruct (Hsecond w1 H1)
    as (w2 & cs & rs & conns & n & H2 & _ & _ & _ & _ & Hsame & _ & _).
  exists w1, w2. cbv zeta.
  split; [exact H1 | split; [exact H2 | split; [exact Hsame|]]].
  rewrite Hget. vm_compute. reflexivity.
Defined.

(** ** A fresh layout *)

Section RealLayout.
Local Open Scope R_scope.

Lemma default_ring_radius : ring_radius (22 / 100) (5 / 100) = 152 / 1000.
Proof.
  rewrite ring_radius_R. unfold ring_radius_spec, ring_radius_clamped. cbv zeta.
  rewrite Rmax_left by lra. rewrite Rmin_left by lra.
  destruct (Rle_dec _ 0); lra.
Qed.

Lemma rings_for_spec (cells : list (Point R)) :
  forall w : World R,
    Forall2 (fun c ring =>
               exists theta0,
                 evenly_spaced_ring c (152 / 1000) theta0
                                    (length Config.FUNCTIONS) ring)
            cells (fst (rings_for cells w)).
Proof.
  induction cells as [|c rest IH]; intros w; cbn [rings_for].
  - constructor.
  - unfold ring_positions_inside_cell at 1.
    change (@CELL_RADIUS R Num_R) with (22 / 100).
    change (@FUNCTION_RADIUS R Num_R) with (5 / 100).
    rewrite default_ring_radius.
    destruct (uniform (of_Z 0) (of_Z 2 * pi)%num w) as [theta0 w1].
    specialize (IH w1). destruct (rings_for rest w1) as [rings w2].
    cbn [fst] in *. constructor; [|exact IH].
    exists theta0. apply ring_points_evenly_spaced. simpl. lia.
Qed.

End RealLayout.

(** X17. In exact arithmetic, whenever [_init_layout] returns for a cell
    count [n >= 1]: there are [n] cell centres, the living centres are the
    cell centres, there is one ring of function points per cell, each of
    nine points evenly spaced at the distance 0.152 about its cell centre;
    the drag state is left as it was.  On such a layout the loop over the
    occluding circles does not raise, and the connection loops end with
    the counter at [total_connections n], nine lines per living node and
    cell. *)
Theorem init_layout_gives_n_cells_with_full_rings :
  forall (fuel : nat) (n_cells : Z) (cell_spacing : R) (avoid_overlap : bool)
         (st st' : Layout R) (w w' : World R),
    (1 <= n_cells)%Z ->
    _init_layout fuel n_cells cell_spacing avoid_overlap st w = Some (st', w') ->
    Z.of_nat (length (cell_centres st')) = n_cells /\
    living_centres st' = cell_centres st' /\
    Forall2 (fun c ring =>
               exists theta0,
                 evenly_spaced_ring c (152 / 1000)%R theta0
                                    (length Config.FUNCTIONS) ring)
            (cell_centres st') (function_centres st') /\
    dragging_idx st' = dragging_idx st /\
    last_xy st' = last_xy st /\
    (exists centres radii,
        all_circles (cell_centres st') (function_centres st')
        = Some (centres, radii)) /\
    (exists groups,
        connections (living_centres st') (function_centres st')
        = Some (concat groups, total_connections n_cells)).
Proof.
  intros fuel n spacing avoid st st' w w' Hn Hinit.
  unfold _init_layout in Hinit.
  destruct (random_cell_positions fuel n (if avoid then spacing else lit 5 100)
              max_attempts_default relax_factor_default w)
    as [[centres w1]|] eqn:Ep; [|discriminate].
  pose proof (rings_for_spec centres w1) as Hrings.
  destruct (rings_for centres w1) as [rings w2]. cbn [fst] in Hrings.
  inversion Hinit; subst st' w'. cbn [cell_centres living_centres function_centres
                                      dragging_idx last_xy].
  assert (Hlen : Z.of_nat (length centres) = n).
  { unfold random_cell_positions in Ep.
    apply (place_loop_length max_attempts_default relax_factor_default n fuel
             _ (centres, w1)) in Ep; [exact Ep | simpl; lia]. }
  assert (Hsame : length rings = length centres).
  { symmetry. apply (Forall2_length Hrings). }
  assert (Hnine : forall ring, In ring rings -> length ring = length Config.FUNCTIONS).
  { clear - Hrings. induction Hrings as [|c ring0 cs rs [theta0 Hev] _ IH];
      intros ring Hin; [destruct Hin|].
    destruct Hin as [<-|Hin]; [exact (proj1 Hev) | exact (IH ring Hin)]. }
  split; [exact Hlen | split; [reflexivity | split; [exact Hrings|]]].
  split; [reflexivity | split; [reflexivity | split]].
  - destruct (all_circles_from_some centres 0 rings) as (cs & rs & Hs & _);
      [simpl; lia|].
    exists cs, rs. exact Hs.
  - destruct (connect_from_spec centres 0 rings 0%Z) as (groups & c & Hs & Hg & Hc & _);
      [simpl; lia|].
    exists groups. unfold connections. rewrite Hs. f_equal. f_equal.
    rewrite Hc, (groups_length centres groups (all_targets rings) Hg).
    rewrite (all_targets_length rings Hnine), Hsame.
    unfold total_connections. lia.
Qed.

Lemma init_layout_returns_for_one_cell :
  exists st' w',
    _init_layout 2 1 (55 / 100)%R true
      {| cell_centres := []; living_centres := []; function_centres := [];
         dragging_idx := None; last_xy := None |}
      {| rng := fun _ => (1 / 2)%R; rng_pos := 0; stdout := []; canvas := [] |}
    = Some (st', w').
Proof.
  unfold _init_layout, random_cell_positions.
  cbn -[Rplus Rmult Rminus Rdiv Ropp IZR Rinv PI Rtrigo_def.cos Rtrigo_def.sin
        ring_positions_inside_cell].
  match goal with
  | |- context [ring_positions_inside_cell ?c ?a ?k ?b ?w] =>
      destruct (ring_positions_inside_cell c a k b w) as [ring w1]
  end.
  eexists. eexists. reflexivity.
Qed.

Lemma init_layout_gives_n_cells_with_full_rings_witness :
  exists st' w',
    _init_layout 2 1 (55 / 100)%R true
      {| cell_centres := []; living_centres := []; function_centres := [];
         dragging_idx := None; last_xy := None |}
      {| rng := fun _ => (1 / 2)%R; rng_pos := 0; stdout := []; canvas := [] |}
    = Some (st', w') /\
    Z.of_nat (length (cell_centres st')) = 1%Z /\
    living_centres st' = cell_centres st' /\
    dragging_idx st' = None.
Proof.
  destruct init_layout_returns_for_one_cell as (st' & w' & H).
  exists st', w'. split; [exact H|].
  pose proof (init_layout_gives_n_cells_with_full_rings
                2 1 (55 / 100)%R true _ st' _ w' ltac:(lia) H) as T.
  split; [exact (proj1 T) | split; [exact (proj1 (proj2 T))|]].
  exact (proj1 (proj2 (proj2 (proj2 T)))).
Defined.

(** ** Placed cells keep their distance *)

Lemma ForallOrdPairs_snoc {T : Type} (P : T -> T -> Prop) (l : list T) (x : T) :
  ForallOrdPairs P l -> Forall (fun a => P a x) l -> ForallOrdPairs P (l ++ [x]).
Proof.
  intros H. induction H as [|a l Ha Hl IH]; intros Hx.
  - simpl. constructor; constructor.
  - inversion Hx as [|a' l' Pax Hx']; subst.
    simpl. constructor.
    + apply Forall_app. split; [exact Ha | constructor; [exact Pax | constructor]].
    + apply IH. exact Hx'.
Qed.

Lemma ForallOrdPairs_weaken {T : Type} (P Q : T -> T -> Prop) (l : list T) :
  (forall a b, P a b -> Q a b) -> ForallOrdPairs P l -> ForallOrdPairs Q l.
Proof.
  intros HPQ H. induction H as [|a l Ha Hl IH]; constructor.
  - eapply Forall_impl; [|exact Ha]. intros b. apply HPQ.
  - exact IH.
Qed.

Section RealSeparation.
Local Open Scope R_scope.

Variable M : Z.

Local Abbreviation run := (place_run M (9 / 10)).

Lemma norm_diff_nonneg (q c : Point R) : 0 <= norm_diff q c.
Proof. unfold norm_diff. apply sqrt_pos. Qed.

Lemma accepted_stdout (k : nat) (sw : PlaceState R * World R) :
  accepted_at M (9 / 10) sw k = true ->
  stdout (snd (run (S k) sw)) = stdout (snd (run k sw)).
Proof.
  unfold accepted_at. intros Ha.
  rewrite place_run_S, place_iter_step, place_step_accept by exact Ha.
  reflexivity.
Qed.

(** What the loop keeps true: the minimum distance is the starting one
    relaxed some [j] times, one message was written per relaxation, and the
    centres accepted so far are farther apart than the current minimum. *)
Lemma run_keeps_distance (md : R) (w : World R) (k : nat) :
  exists j : nat,
    min_dist (fst (run k (initial_state md, w))) = md * (9 / 10) ^ j /\
    stdout (snd (run k (initial_state md, w)))
    = stdout w ++ map (fun i => Relaxing (md * (9 / 10) ^ S i)) (seq 0 j) /\
    ForallOrdPairs (fun a b => md * (9 / 10) ^ j < norm_diff b a)
                   (centres (fst (run k (initial_state md, w)))).
Proof.
  induction k as [|k (j & Hd & Hout & Hsep)].
  - exists 0%nat. simpl. rewrite app_nil_r. repeat split; [lra | constructor].
  - destruct (place_run_next M (9 / 10) k (initial_state md, w))
      as [[Ha Hs] | [(Ha & _ & Hs & Ho) | (Ha & _ & Hs & Ho)]].
    + exists j. rewrite Hs. cbn [min_dist centres]. split; [exact Hd|]. split.
      * rewrite (accepted_stdout k _ Ha). exact Hout.
      * apply ForallOrdPairs_snoc; [exact Hsep|].
        unfold accepted_at in Ha. rewrite iter_candidate_run in Ha.
        apply Forall_forall. intros c Hc. rewrite <- Hd.
        exact (proj1 (far_enough_R _ _) Ha c Hc).
    + exists (S j). rewrite Hs. cbn [min_dist centres]. split; [|split].
      * rewrite Hd. change (md * (9 / 10) ^ j * (9 / 10) = md * (9 / 10) ^ S j).
        simpl. ring.
      * rewrite Ho, Hout, seq_S, map_app, <- app_assoc. cbn [map].
        rewrite Hd. change (@mul R Num_R) with Rmult.
        replace (md * (9 / 10) ^ j * (9 / 10)) with (md * (9 / 10) ^ S (0 + j))
          by (simpl; ring).
        reflexivity.
      * eapply ForallOrdPairs_weaken; [|exact Hsep].
        intros a b Hab. cbv beta in *.
        pose proof (norm_diff_nonneg b a) as Hnn.
        replace (md * (9 / 10) ^ S j) with (9 / 10 * (md * (9 / 10) ^ j))
          by (simpl; ring).
        revert Hab. generalize (md * (9 / 10) ^ j). intros x Hab. lra.
    + exists j. rewrite Hs. cbn [min_dist centres]. split; [exact Hd|].
      split; [rewrite Ho; exact Hout | exact Hsep].
Qed.

Lemma candidate_in_box (w : World R) (i : nat) :
  (forall m, 0 <= rng w m <= 1) ->
  15 / 100 <= fst (candidate_at w i) <= 85 / 100 /\
  15 / 100 <= snd (candidate_at w i) <= 85 / 100.
Proof.
  intros Hu. unfold candidate_at. cbn [fst snd].
  change (@lit R Num_R 15 100) with (15 / 100).
  change (@lit R Num_R 85 100) with (85 / 100).
  change (@add R Num_R) with Rplus. change (@mul R Num_R) with Rmult.
  change (@sub R Num_R) with Rminus.
  pose proof (Hu (rng_pos w + 2 * i)%nat). pose proof (Hu (rng_pos w + 2 * i + 1)%nat).
  lra.
Qed.

End RealSeparation.

(** X18. In exact arithmetic, whenever [random_cell_positions] returns with
    its default threshold and factor: for some number [j] of relaxations,
    every two returned centres are farther apart than the start distance
    times 0.9 to the power [j]; exactly [j] relaxation messages were
    written, the i-th announcing the start distance times 0.9 to the power
    [i]; and when the random stream stays in [0, 1], every
    centre lies in the square from 0.15 to 0.85. *)
Theorem placed_cells_keep_the_relaxed_distance :
  forall (fuel : nat) (n : Z) (md : R) (w w' : World R) (cs : list (Point R)),
    random_cell_positions fuel n md max_attempts_default relax_factor_default w
    = Some (cs, w') ->
    exists j : nat,
      ForallOrdPairs (fun a b => (md * (9 / 10) ^ j < norm_diff b a)%R) cs /\
      stdout w' = stdout w ++ map (fun i => Relaxing (md * (9 / 10) ^ S i)%R) (seq 0 j) /\
      ((forall m, (0 <= rng w m <= 1)%R) ->
       Forall (fun c => (15 / 100 <= fst c <= 85 / 100)%R /\
                        (15 / 100 <= snd c <= 85 / 100)%R) cs).
Proof.
  intros fuel n md w w' cs Hret.
  unfold random_cell_positions in Hret.
  apply place_loop_run in Hret. destruct Hret as (K & _ & _ & _ & Hres).
  inversion Hres; subst cs w'. clear Hres.
  change (@relax_factor_default R Num_R) with (9 / 10)%R.
  change ({| centres := []; attempts := 0; min_dist := md |}) with (initial_state md).
  destruct (run_keeps_distance max_attempts_default md w K) as (j & _ & Hout & Hsep).
  exists j. split; [exact Hsep | split; [exact Hout|]].
  intros Hu. rewrite centres_run. cbn [initial_state centres fst snd app].
  apply Forall_forall. intros c Hc. apply in_map_iff in Hc.
  destruct Hc as (i & <- & _). apply candidate_in_box. exact Hu.
Qed.

Lemma alternating_sampler_is_fair :
  fair_sampler 2 {| rng := fun i => if Nat.even (Nat.div2 i) then 0%R else 1%R;
                    rng_pos := 0; stdout := []; canvas := [] |}.
Proof.
  set (w := {| rng := fun i => if Nat.even (Nat.div2 i) then 0%R else 1%R;
               rng_pos := 0; stdout := []; canvas := [] |}).
  exists [candidate_at w 0; candidate_at w 1]. split; [|split].
  - constructor; [|constructor; [intros [] | constructor]].
    intros [H | []]. unfold candidate_at, lit in H. cbn in H.
    inversion H. lra.
  - simpl. lia.
  - assert (Hc : forall j, candidate_at w j
                           = if Nat.even j then candidate_at w 0 else candidate_at w 1).
    { intros j. unfold candidate_at. cbn [rng rng_pos w].
      replace (0 + 2 * j)%nat with (2 * j)%nat by lia.
      replace (2 * j + 1)%nat with (S (2 * j)) by lia.
      rewrite Nat.div2_double, Nat.div2_succ_double.
      destruct (Nat.even j); reflexivity. }
    intros q [<- | [<- | []]] i.
    + exists (2 * i)%nat. split; [lia|]. rewrite Hc.
      rewrite Nat.even_mul. reflexivity.
    + exists (S (2 * i)). split; [lia|]. rewrite Hc.
      rewrite Nat.even_succ, Nat.odd_mul. reflexivity.
Qed.

Lemma placed_cells_keep_the_relaxed_distance_witness :
  exists (fuel : nat) (cs : list (Point R)) (w' : World R) (j : nat),
    random_cell_positions fuel 2 (55 / 100)%R
      max_attempts_default relax_factor_default
      {| rng := fun i => if Nat.even (Nat.div2 i) then 0%R else 1%R;
         rng_pos := 0; stdout := []; canvas := [] |}
    = Some (cs, w') /\
    ForallOrdPairs (fun a b => (55 / 100 * (9 / 10) ^ j < norm_diff b a)%R) cs.
Proof.
  assert (HM : (1 <= max_attempts_default)%Z) by (unfold max_attempts_default; lia).
  assert (Hr : (0 <= @relax_factor_default R Num_R < 1)%R)
    by (unfold relax_factor_default, lit; cbn; lra).
  destruct (fair_sampler_terminates max_attempts_default relax_factor_default HM Hr
              2 (55 / 100)%R _ alternating_sampler_is_fair)
    as (fuel & [cs w'] & H).
  destruct (placed_cells_keep_the_relaxed_distance fuel 2 (55 / 100)%R _ w' cs H)
    as (j & Hsep & _).
  exists fuel, cs, w', j. split; [exact H | exact Hsep].
Defined.
